(** * Video visual-relation evaluation: detection and tagging metrics

    A shallow embedding of [evaluation/visual_relation_detection.py]
    ([eval_detection_scores], [eval_tagging_scores], [evaluate],
    [evaluate_segs]) and of the zero-shot filter of [evaluate.py]
    ([evaluate_relation]).

    Conventions of the embedding.
    - Python floats (scores, overlaps, precision and recall values) are
      exact rationals [Q]; results are compared with [==].  Scores are
      finite; the miss sentinel [-np.inf] and the start value of [ov_max]
      are the constructor [NegInf] of [efloat].
    - A Python [dict] is an association list in insertion order; a
      well-formed one has no repeated key ([NoDup (keys d)]).
    - A raised exception is the [Raise] constructor of [result].
    - [viou] and [voc_ap] come from [evaluation/common.py], which is not
      part of the sources at hand: they are parameters of the development. *)

From Stdlib Require Import String.
From Stdlib Require Import List ZArith QArith Qminmax Bool Lia.
From Stdlib Require Import Permutation Sorted Arith PeanoNat.
Import ListNotations.

Set Implicit Arguments.

(** ** Data model *)

Definition label := string.
Definition triplet_t := (label * label * label)%type.

Record bbox := { xmin : Q; ymin : Q; xmax : Q; ymax : Q }.
Definition traj := list bbox.
Definition duration_t := (Z * Z)%type.

(** A ground-truth relation instance: the keys ['triplet'], ['sub_traj'],
    ['obj_traj'] and ['duration']. *)
Record relation := {
  triplet : triplet_t;
  sub_traj : traj;
  obj_traj : traj;
  duration : duration_t
}.

(** A predicted relation instance carries a ['score'] besides. *)
Record pred_relation := {
  rel :> relation;
  score : Q
}.

Definition triplet_eqb (a b : triplet_t) : bool :=
  let '(s1, p1, o1) := a in
  let '(s2, p2, o2) := b in
  String.eqb s1 s2 && String.eqb p1 p2 && String.eqb o1 o2.

(** The default of [nth] on a list of predictions. *)
Definition no_pred : pred_relation :=
  {| rel := {| triplet := (EmptyString, EmptyString, EmptyString);
               sub_traj := []; obj_traj := []; duration := (0, 0)%Z |};
     score := 0 |}.

(** Extended floats: a finite value or negative infinity. *)
Inductive efloat := NegInf | Fin (q : Q).

Definition isfinite (x : efloat) : bool :=
  match x with NegInf => false | Fin _ => true end.

(** [ov > ov_max] where [ov] is finite. *)
Definition gt_efloat (ov : Q) (ov_max : efloat) : bool :=
  match ov_max with
  | NegInf => true
  | Fin m => negb (Qle_bool ov m)
  end.

(** [a <= b] on extended floats. *)
Definition efloat_leb (a b : efloat) : bool :=
  match a, b with
  | NegInf, _ => true
  | Fin _, NegInf => false
  | Fin x, Fin y => Qle_bool x y
  end.

(** Exceptions the evaluation can raise. *)
Inductive exn := KeyError | ValueError | IndexError | SystemExit (code : Z).

Inductive result (A : Type) := Ok (a : A) | Raise (e : exn).
Arguments Ok {A} a.
Arguments Raise {A} e.

Definition bind {A B} (r : result A) (f : A -> result B) : result B :=
  match r with Ok a => f a | Raise e => Raise e end.

Notation "x <- c1 ;; c2" := (bind c1 (fun x => c2))
  (at level 61, c1 at next level, right associativity).

(** ** Python and numpy primitives *)

(** [enumerate(l)] *)
Definition enumerate_from {A} (start : nat) (l : list A) : list (nat * A) :=
  combine (seq start (length l)) l.
Definition enumerate {A} (l : list A) : list (nat * A) := enumerate_from 0 l.

(** [a[i] = v] for an index in range (out of range the list is unchanged;
    every use below is in range). *)
Fixpoint list_set {A} (l : list A) (i : nat) (v : A) : list A :=
  match l, i with
  | [], _ => []
  | _ :: t, O => v :: t
  | h :: t, S j => h :: list_set t j v
  end.

(** A stable sort: [stable_sort before l] orders [l] so that [x] precedes
    [y] when [before x y] holds, and elements that compare equal keep the
    order they have in [l].  Python's [sorted] is stable, with
    [reverse=True] as well, and a stable sort has one result only, so the
    insertion sort below returns what [sorted] returns. *)
Fixpoint insert_sorted {A} (before : A -> A -> bool) (x : A) (l : list A) : list A :=
  match l with
  | [] => [x]
  | y :: l' => if before x y then x :: l else y :: insert_sorted before x l'
  end.

Definition stable_sort {A} (before : A -> A -> bool) (l : list A) : list A :=
  fold_right (insert_sorted before) [] l.

(** [sorted(pred_relations, key=lambda x: x['score'], reverse=True)] *)
Definition score_geb (x y : pred_relation) : bool := Qle_bool (score y) (score x).
Definition sorted_by_score (l : list pred_relation) : list pred_relation :=
  stable_sort score_geb l.

(** [np.cumsum] of a boolean array *)
Fixpoint cumsum_from (acc : nat) (l : list bool) : list nat :=
  match l with
  | [] => []
  | b :: t => let acc' := (acc + if b then 1 else 0)%nat in acc' :: cumsum_from acc' t
  end.
Definition cumsum (l : list bool) : list nat := cumsum_from 0 l.

Definition Qnat (n : nat) : Q := inject_Z (Z.of_nat n).

(** [np.finfo(np.float32).eps], that is 2^-23 *)
Definition eps : Q := 1 # 8388608.

(** [rec = cum_tp / np.maximum(n, eps)] *)
Definition recall_curve (cum_tp : list nat) (n : nat) : list Q :=
  map (fun c => Qnat c / Qmax (Qnat n) eps) cum_tp.

(** [prec = cum_tp / np.maximum(cum_tp + cum_fp, eps)] *)
Definition precision_curve (cum_tp cum_fp : list nat) : list Q :=
  map (fun cc => Qnat (fst cc) / Qmax (Qnat (fst cc) + Qnat (snd cc)) eps)
      (combine cum_tp cum_fp).

(** The tail of both matchers: hit scores to precision and recall. *)
Definition curves (hit_scores : list efloat) (n_gt : nat) : list Q * list Q :=
  let tp := map isfinite hit_scores in
  let fp := map negb tp in
  let cum_tp := cumsum tp in
  let cum_fp := cumsum fp in
  let rec := recall_curve cum_tp n_gt in
  let prec := precision_curve cum_tp cum_fp in
  (prec, rec).

(** ** The matcher, [eval_detection_scores] *)

Section Matcher.

Variable viou : traj -> duration_t -> traj -> duration_t -> Q.

(** [ov = min(s_iou, o_iou)] *)
Definition overlap (p : pred_relation) (g : relation) : Q :=
  let s_iou := viou (sub_traj p) (duration p) (sub_traj g) (duration g) in
  let o_iou := viou (obj_traj p) (duration p) (obj_traj g) (duration g) in
  Qmin s_iou o_iou.

(** One round of the loop over [enumerate(gt_relations)]; the state is
    [(ov_max, k_max)]. *)
Definition scan_step (viou_threshold : Q) (gt_detected : list bool)
    (p : pred_relation) (st : efloat * Z) (ig : nat * relation) : efloat * Z :=
  let '(ov_max, k_max) := st in
  let '(gt_idx, g) := ig in
  if negb (nth gt_idx gt_detected false)
     && triplet_eqb (triplet p) (triplet g)
  then
    let ov := overlap p g in
    if Qle_bool viou_threshold ov && gt_efloat ov ov_max
    then (Fin ov, Z.of_nat gt_idx)
    else st
  else st.

Definition scan_gt (viou_threshold : Q) (gt_relations : list relation)
    (gt_detected : list bool) (p : pred_relation) : efloat * Z :=
  fold_left (scan_step viou_threshold gt_detected p)
            (enumerate gt_relations) (NegInf, (-1)%Z).

(** One round of the loop over [enumerate(pred_relations)]; the state is
    [(gt_detected, hit_scores)]. *)
Definition match_step (viou_threshold : Q) (gt_relations : list relation)
    (st : list bool * list efloat) (ip : nat * pred_relation)
    : list bool * list efloat :=
  let '(gt_detected, hit_scores) := st in
  let '(pred_idx, p) := ip in
  let k_max := snd (scan_gt viou_threshold gt_relations gt_detected p) in
  if (0 <=? k_max)%Z
  then (list_set gt_detected (Z.to_nat k_max) true,
        list_set hit_scores pred_idx (Fin (score p)))
  else st.

Definition match_loop (viou_threshold : Q) (gt_relations : list relation)
    (sorted_preds : list pred_relation) : list bool * list efloat :=
  fold_left (match_step viou_threshold gt_relations)
            (enumerate sorted_preds)
            (repeat false (length gt_relations),
             repeat NegInf (length sorted_preds)).

Definition eval_detection_scores (gt_relations : list relation)
    (pred_relations : list pred_relation) (viou_threshold : Q)
    : list Q * list Q * list efloat :=
  let pred_relations := sorted_by_score pred_relations in
  let hit_scores := snd (match_loop viou_threshold gt_relations pred_relations) in
  let '(prec, rec) := curves hit_scores (length gt_relations) in
  (prec, rec, hit_scores).

End Matcher.

(** ** The tagger, [eval_tagging_scores] *)

Definition triplet_in (t : triplet_t) (l : list triplet_t) : bool :=
  existsb (triplet_eqb t) l.

(** [set(tuple(r['triplet']) for r in gt_relations)]: the distinct
    triplets, as a duplicate-free list. *)
Fixpoint triplet_set (l : list triplet_t) : list triplet_t :=
  match l with
  | [] => []
  | t :: l' => let s := triplet_set l' in if triplet_in t s then s else t :: s
  end.

(** One round of the first loop; the state is [(pred_triplets, hit_scores)]. *)
Definition tag_step (st : list triplet_t * list Q) (r : pred_relation)
    : list triplet_t * list Q :=
  let '(pred_triplets, hit_scores) := st in
  let t := triplet r in
  if negb (triplet_in t pred_triplets)
  then (pred_triplets ++ [t], hit_scores ++ [score r])
  else st.

(** The second loop: [hit_scores[i] = -np.inf] where the triplet is not in
    the ground truth. *)
Definition tag_mark (gt_triplets : list triplet_t) (hit_scores : list efloat)
    (it : nat * triplet_t) : list efloat :=
  let '(i, t) := it in
  if negb (triplet_in t gt_triplets) then list_set hit_scores i NegInf else hit_scores.

Definition eval_tagging_scores (gt_relations : list relation)
    (pred_relations : list pred_relation) : list Q * list Q * list efloat :=
  let pred_relations := sorted_by_score pred_relations in
  let gt_triplets := triplet_set (map triplet gt_relations) in
  let '(pred_triplets, hit_scores) :=
    fold_left tag_step pred_relations ([], []) in
  let hit_scores := map Fin hit_scores in
  let hit_scores := fold_left (tag_mark gt_triplets) (enumerate pred_triplets) hit_scores in
  let '(prec, rec) := curves hit_scores (length gt_triplets) in
  (prec, rec, hit_scores).

(** ** Dictionaries *)

Section Dict.

Variables (K V : Type) (eqb : K -> K -> bool).

(** [d.get(k)] *)
Fixpoint lookup (k : K) (d : list (K * V)) : option V :=
  match d with
  | [] => None
  | (k', v) :: d' => if eqb k k' then Some v else lookup k d'
  end.

(** [d[k]] on a plain dict: a missing key raises [KeyError]. *)
Definition getitem (d : list (K * V)) (k : K) : result V :=
  match lookup k d with
  | Some v => Ok v
  | None => Raise KeyError
  end.

(** [d[k] = v]: an existing key keeps its place, a new one goes last. *)
Fixpoint dict_set (d : list (K * V)) (k : K) (v : V) : list (K * V) :=
  match d with
  | [] => [(k, v)]
  | (k', v') :: d' =>
      if eqb k k' then (k, v) :: d' else (k', v') :: dict_set d' k v
  end.

End Dict.

(** Dictionaries keyed by a video id, and by a rank [nre]. *)
Definition sdict (V : Type) := list (string * V).
Definition ndict (V : Type) := list (nat * V).

Definition keys {K V} (d : list (K * V)) : list K := map fst d.
Definition values {K V} (d : list (K * V)) : list V := map snd d.

(** [d[k]] on a [defaultdict(list)] *)
Definition dd_get {V} (d : ndict (list V)) (k : nat) : list V :=
  match lookup Nat.eqb k d with
  | Some l => l
  | None => []
  end.

(** [d[k].append(x)] on a [defaultdict(list)] *)
Definition dd_append {V} (d : ndict (list V)) (k : nat) (x : V) : ndict (list V) :=
  dict_set Nat.eqb d k (dd_get d k ++ [x]).

(** ** numpy reductions of the aggregators *)

(** A float that may be [nan]: what [np.mean] returns. *)
Inductive npfloat := NaN | Num (q : Q).

Definition Qsum (l : list Q) : Q := fold_right Qplus 0 l.

(** [np.mean(l)]: [nan] on an empty list. *)
Definition np_mean (l : list Q) : npfloat :=
  match l with
  | [] => NaN
  | _ => Num (Qsum l / Qnat (length l))
  end.

(** [np.concatenate(arrays)]: an empty list of arrays raises [ValueError]. *)
Definition np_concatenate {A} (arrays : list (list A)) : result (list A) :=
  match arrays with
  | [] => Raise ValueError
  | _ => Ok (concat arrays)
  end.

(** [np.argsort(scores)]: the indices in ascending order of their score.
    numpy leaves the order of equal scores to the sorting routine; here
    they keep their order. *)
Definition argsort (scores : list efloat) : list nat :=
  stable_sort
    (fun i j => efloat_leb (nth i scores NegInf) (nth j scores NegInf))
    (seq 0 (length scores)).

(** [a[indices]] *)
Fixpoint take {A} (a : list A) (indices : list nat) : result (list A) :=
  match indices with
  | [] => Ok []
  | i :: rest =>
      match nth_error a i with
      | Some x => t <- take a rest ;; Ok (x :: t)
      | None => Raise IndexError
      end
  end.

(** [a[-1]] *)
Definition last_item {A} (a : list A) : result A :=
  match rev a with
  | [] => Raise IndexError
  | x :: _ => Ok x
  end.

(** The body of the loop [for nre in det_nreturns] that fills [rec_at_n]. *)
Definition recall_at (tot_scores : list (list efloat)) (tot_tp : list (list bool))
    (tot_relations : nat) : result Q :=
  scores <- np_concatenate tot_scores ;;
  tps <- np_concatenate tot_tp ;;
  let sort_indices := rev (argsort scores) in
  tps <- take tps sort_indices ;;
  let cum_tp := cumsum tps in
  let rec := recall_curve cum_tp tot_relations in
  last_item rec.

(** ** The aggregators, [evaluate] and [evaluate_segs] *)

(** The accumulators of one aggregation. *)
Record accum := {
  video_ap : sdict Q;
  tot_scores : ndict (list (list efloat));
  tot_tp : ndict (list (list bool));
  prec_at_n : ndict (list Q);
  tot_relations : nat
}.

Definition accum_init : accum :=
  {| video_ap := []; tot_scores := []; tot_tp := []; prec_at_n := [];
     tot_relations := 0 |}.

(** What an aggregator returns: [(mean_ap, rec_at_n, mprec_at_n)]. *)
Record scores_t := {
  mean_ap : npfloat;
  rec_at_n : ndict Q;
  mprec_at_n : ndict npfloat
}.

Definition default_viou_threshold : Q := 1 # 2.
Definition default_det_nreturns : list nat := [50; 100]%nat.
Definition default_tag_nreturns : list nat := [1; 5; 10]%nat.

Section Aggregator.

Variable viou : traj -> duration_t -> traj -> duration_t -> Q.
Variable voc_ap : list Q -> list Q -> Q.

Variable viou_threshold : Q.
Variables det_nreturns tag_nreturns : list nat.

(** [tot_... += len(...)] *)
Definition count_relations (st : accum) (n : nat) : accum :=
  {| video_ap := video_ap st; tot_scores := tot_scores st;
     tot_tp := tot_tp st; prec_at_n := prec_at_n st;
     tot_relations := tot_relations st + n |}.

(** The statements from "compute average precision and recalls in
    detection setting" to the end of the loop body; the same in both
    branches of [evaluate] and in [evaluate_segs], where [gt_relations] is
    [[each_gt_seg]]. *)
Definition score_video (st : accum) (vid : string)
    (gt_relations : list relation) (pred_relations : list pred_relation) : accum :=
  let '(det_prec, det_rec, det_scores) :=
    eval_detection_scores viou gt_relations pred_relations viou_threshold in
  let video_ap' := dict_set String.eqb (video_ap st) vid (voc_ap det_rec det_prec) in
  let tp := map isfinite det_scores in
  let '(tot_scores', tot_tp') :=
    fold_left
      (fun (acc : ndict (list (list efloat)) * ndict (list (list bool))) nre =>
         let cut_off := Nat.min nre (length det_scores) in
         (dd_append (fst acc) nre (firstn cut_off det_scores),
          dd_append (snd acc) nre (firstn cut_off tp)))
      det_nreturns (tot_scores st, tot_tp st) in
  let '(tag_prec, _, _) := eval_tagging_scores gt_relations pred_relations in
  let prec_at_n' :=
    fold_left
      (fun (acc : ndict (list Q)) nre =>
         let cut_off := Nat.min nre (length tag_prec) in
         if (0 <? cut_off)%nat
         then dd_append acc nre (nth (cut_off - 1) tag_prec 0)
         else dd_append acc nre 0)
      tag_nreturns (prec_at_n st) in
  {| video_ap := video_ap'; tot_scores := tot_scores'; tot_tp := tot_tp';
     prec_at_n := prec_at_n'; tot_relations := tot_relations st |}.

(** The statements after the loop over the videos, up to [return]. *)
Definition finish (st : accum) : result scores_t :=
  let mean_ap := np_mean (values (video_ap st)) in
  rec_at_n <-
    fold_left
      (fun (acc : result (ndict Q)) nre =>
         d <- acc ;;
         r <- recall_at (dd_get (tot_scores st) nre) (dd_get (tot_tp st) nre)
                        (tot_relations st) ;;
         Ok (dict_set Nat.eqb d nre r))
      det_nreturns (Ok []) ;;
  let mprec_at_n :=
    fold_left
      (fun (acc : ndict npfloat) nre =>
         dict_set Nat.eqb acc nre (np_mean (dd_get (prec_at_n st) nre)))
      tag_nreturns [] in
  (* the report prints rec_at_n[50], rec_at_n[100], mprec_at_n[1],
     mprec_at_n[5] and mprec_at_n[10] *)
  _ <- getitem Nat.eqb rec_at_n 50%nat ;;
  _ <- getitem Nat.eqb rec_at_n 100%nat ;;
  _ <- getitem Nat.eqb mprec_at_n 1%nat ;;
  _ <- getitem Nat.eqb mprec_at_n 5%nat ;;
  _ <- getitem Nat.eqb mprec_at_n 10%nat ;;
  Ok {| mean_ap := mean_ap; rec_at_n := rec_at_n; mprec_at_n := mprec_at_n |}.

(** The loop [for vid, gt_relations in groundtruth.items()]. *)
Definition gt_step (prediction : sdict (list pred_relation))
    (acc : result accum) (item : string * list relation) : result accum :=
  st <- acc ;;
  let '(vid, gt_relations) := item in
  if (length gt_relations =? 0)%nat then Ok st
  else
    let st := count_relations st (length gt_relations) in
    predict_relations <- getitem String.eqb prediction vid ;;
    Ok (score_video st vid gt_relations predict_relations).

Definition gt_loop (groundtruth : sdict (list relation))
    (prediction : sdict (list pred_relation)) : result accum :=
  fold_left (gt_step prediction) groundtruth (Ok accum_init).

(** The loop [for vid, pred_relations in prediction.items()]. *)
Definition pred_step (groundtruth : sdict (list relation))
    (acc : result accum) (item : string * list pred_relation) : result accum :=
  st <- acc ;;
  let '(vid, pred_relations) := item in
  if (length pred_relations =? 0)%nat then Ok st
  else
    let st := count_relations st (length pred_relations) in
    gt_relations <- getitem String.eqb groundtruth vid ;;
    Ok (score_video st vid gt_relations pred_relations).

Definition pred_loop (groundtruth : sdict (list relation))
    (prediction : sdict (list pred_relation)) : result accum :=
  fold_left (pred_step groundtruth) prediction (Ok accum_init).

Definition evaluate (groundtruth : sdict (list relation))
    (prediction : sdict (list pred_relation)) (base_on_gt : bool)
    : result scores_t :=
  if base_on_gt then
    st <- gt_loop groundtruth prediction ;; finish st
  else
    st <- pred_loop groundtruth prediction ;; finish st.

(** The loop [for vid, pred_relations in prediction.items()] of
    [evaluate_segs], with its inner loop [for each_gt_seg in gt_relations]. *)
Definition seg_step (groundtruth : sdict (list relation))
    (acc : result accum) (item : string * list pred_relation) : result accum :=
  st <- acc ;;
  let '(vid, pred_relations) := item in
  if (length pred_relations =? 0)%nat then Ok st
  else
    let st := count_relations st (length pred_relations) in
    gt_relations <- getitem String.eqb groundtruth vid ;;
    Ok (fold_left
          (fun st each_gt_seg => score_video st vid [each_gt_seg] pred_relations)
          gt_relations st).

Definition seg_loop (groundtruth : sdict (list relation))
    (prediction : sdict (list pred_relation)) : result accum :=
  fold_left (seg_step groundtruth) prediction (Ok accum_init).

Definition evaluate_segs (groundtruth : sdict (list relation))
    (prediction : sdict (list pred_relation)) (base_on_gt : bool)
    : result scores_t :=
  if negb base_on_gt then
    st <- seg_loop groundtruth prediction ;; finish st
  else
    (* print("What???"); exit(0) *)
    Raise (SystemExit 0).

End Aggregator.

(** ** The zero-shot pass of [evaluate_relation] ([evaluate.py]) *)

(** The dataset object: [dataset.py] is not part of the sources at hand, so
    its three methods used here are the fields of a record.  A triplet
    vocabulary ([get_triplets], a Python set) is a list read as a set. *)
Record dataset := {
  get_index : string -> list string;
  get_relation_insts : string -> list relation;
  get_triplets : string -> list triplet_t
}.

(** [dataset.get_triplets(split).difference(dataset.get_triplets('train'))] *)
Definition zeroshot_triplets_of (ds : dataset) (split : string) : list triplet_t :=
  filter (fun t => negb (triplet_in t (get_triplets ds "train")))
         (get_triplets ds split).

(** One round of the loop [for vid in dataset.get_index(split)] of the
    zero-shot pass; the state is [(groundtruth, zs_prediction)]. *)
Definition zs_step (ds : dataset) (zeroshot_triplets : list triplet_t)
    (prediction : sdict (list pred_relation))
    (acc : result (sdict (list relation) * sdict (list pred_relation)))
    (vid : string) : result (sdict (list relation) * sdict (list pred_relation)) :=
  st <- acc ;;
  let '(groundtruth, zs_prediction) := st in
  let gt_relations := get_relation_insts ds vid in
  let zs_gt_relations :=
    filter (fun r => triplet_in (triplet r) zeroshot_triplets) gt_relations in
  if (0 <? length zs_gt_relations)%nat then
    let groundtruth := dict_set String.eqb groundtruth vid zs_gt_relations in
    preds <- getitem String.eqb prediction vid ;;
    let zs_preds :=
      filter (fun r : pred_relation => triplet_in (triplet r) zeroshot_triplets)
             preds in
    Ok (groundtruth, dict_set String.eqb zs_prediction vid zs_preds)
  else Ok st.

Definition zero_shot_inputs (ds : dataset) (split : string)
    (prediction : sdict (list pred_relation))
    : result (sdict (list relation) * sdict (list pred_relation)) :=
  fold_left (zs_step ds (zeroshot_triplets_of ds split) prediction)
            (get_index ds split) (Ok ([], [])).

Section EvaluateRelation.

(** [eval_visual_relation] and [eval_visual_relation_segs], imported from
    the [evaluation] package and called with the default parameters. *)
Variable eval_visual_relation eval_visual_relation_segs :
  sdict (list relation) -> sdict (list pred_relation) -> result scores_t.

Definition evaluate_relation (ds : dataset) (split : string)
    (prediction : sdict (list pred_relation)) (segment : bool) : result unit :=
  let groundtruth :=
    fold_left (fun d vid => dict_set String.eqb d vid (get_relation_insts ds vid))
              (get_index ds split) [] in
  _ <- (if segment then eval_visual_relation_segs groundtruth prediction
        else eval_visual_relation groundtruth prediction) ;;
  (* evaluate in zero-shot setting *)
  zs <- zero_shot_inputs ds split prediction ;;
  _ <- (if segment then eval_visual_relation_segs (fst zs) (snd zs)
        else eval_visual_relation (fst zs) (snd zs)) ;;
  Ok tt.

End EvaluateRelation.

(** ** Fixtures

    Concrete inputs on which the definitions are run.  Every trajectory of
    a fixture is one box repeated over the frames of its duration.  On
    such trajectories the overlap of two trajectories is the overlap of
    their durations: the number of frames they share over the number of
    frames either covers.  [Fixture.viou] is that function. *)

Module Fixture.

Definition viou (t1 : traj) (d1 : duration_t) (t2 : traj) (d2 : duration_t) : Q :=
  let shared :=
    Z.max 0 (Z.min (snd d1) (snd d2) - Z.max (fst d1) (fst d2)) in
  let covered := ((snd d1 - fst d1) + (snd d2 - fst d2) - shared)%Z in
  if (shared =? 0)%Z then 0 else inject_Z shared / inject_Z covered.

(** Modelled from the spec: [voc_ap] of [evaluation/common.py], which is
    not part of the sources at hand: the recall sequence is extended by 0
    and 1 and the precision sequence by 0 and 0, the precision at each
    point becomes the maximum precision at or beyond it, and the
    precision is summed over the recall steps, each weighted by the
    length of the step. *)
Fixpoint envelope (mpre : list Q) : list Q :=
  match mpre with
  | [] => []
  | p :: t =>
      let e := envelope t in
      match e with
      | [] => [p]
      | q :: _ => Qmax p q :: e
      end
  end.

Fixpoint area (mrec mpre : list Q) : Q :=
  match mrec, mpre with
  | r0 :: ((r1 :: _) as mrec'), _ :: ((p1 :: _) as mpre') =>
      (if Qeq_bool r1 r0 then 0 else (r1 - r0) * p1) + area mrec' mpre'
  | _, _ => 0
  end.

Definition voc_ap (rec prec : list Q) : Q :=
  let mrec := 0 :: rec ++ [1] in
  let mpre := envelope (0 :: prec ++ [0]) in
  Qred (area mrec mpre).

Definition box : bbox := {| xmin := 0; ymin := 0; xmax := 10; ymax := 10 |}.

Definition track (d : duration_t) : traj :=
  repeat box (Z.to_nat (snd d - fst d)).

Definition gt (t : triplet_t) (d : duration_t) : relation :=
  {| triplet := t; sub_traj := track d; obj_traj := track d; duration := d |}.

Definition pr (t : triplet_t) (d : duration_t) (s : Q) : pred_relation :=
  {| rel := gt t d; score := s |}.

Definition t123 : triplet_t := ("1", "2", "3")%string.
Definition t456 : triplet_t := ("4", "5", "6")%string.
Definition d01 : duration_t := (0, 1)%Z.
Definition d56 : duration_t := (5, 6)%Z.
Definition d06 : duration_t := (0, 6)%Z.
Definition d010 : duration_t := (0, 10)%Z.

End Fixture.

(** * Vocabulary of the properties *)

(** ** Ranking and counting *)

(** Ranked by score: every prediction is followed only by predictions whose
    score is not greater. *)
Definition score_ge (x y : pred_relation) : Prop := score y <= score x.

(** The number of [True] in a boolean array. *)
Definition count_true (l : list bool) : nat := length (filter (fun b => b) l).

(** The triplet of a prediction, as a function on predictions. *)
Abbreviation ptriplet := (fun r : pred_relation => triplet r).

(** ** The greedy matching *)

Section MatcherSpec.

Variable viou : traj -> duration_t -> traj -> duration_t -> Q.
Variable thr : Q.
Variable gts : list relation.

(** The overlap of a prediction and a ground-truth instance in the words
    of the specification: the subject trajectories are compared, the
    object trajectories are compared, and the smaller of the two vIoU
    values counts. *)
Definition overlap_as_specified (p : pred_relation) (g : relation) : Q :=
  Qmin (viou (sub_traj p) (duration p) (sub_traj g) (duration g))
       (viou (obj_traj p) (duration p) (obj_traj g) (duration g)).

(** Ground-truth instance [g], at index [k], is a candidate for the
    prediction [p]: it is not yet claimed, its triplet is the triplet of
    [p], and its overlap with [p] is at least the threshold. *)
Definition candidate (det : list bool) (p : pred_relation)
    (k : nat) (g : relation) : Prop :=
  nth_error gts k = Some g /\
  nth k det false = false /\
  triplet p = triplet g /\
  thr <= overlap_as_specified p g.

(** The candidate of maximal overlap, the one of least index among those
    of maximal overlap. *)
Definition best_candidate (det : list bool) (p : pred_relation)
    (k : nat) (g : relation) : Prop :=
  candidate det p k g /\
  forall j h, candidate det p j h ->
    overlap_as_specified p h <= overlap_as_specified p g /\
    ((j < k)%nat -> overlap_as_specified p h < overlap_as_specified p g).

(** What holds of [(ov_max, k_max)] after the scan of the first [n]
    ground-truth instances. *)
Definition scan_inv (det : list bool) (p : pred_relation) (n : nat)
    (st : efloat * Z) : Prop :=
  match st with
  | (NegInf, k) =>
      k = (-1)%Z /\ forall j h, (j < n)%nat -> ~ candidate det p j h
  | (Fin ov, k) =>
      exists g, (0 <= k)%Z /\ (Z.to_nat k < n)%nat /\
        candidate det p (Z.to_nat k) g /\ ov = overlap_as_specified p g /\
        forall j h, (j < n)%nat -> candidate det p j h ->
          overlap_as_specified p h <= ov /\
          ((j < Z.to_nat k)%nat -> overlap_as_specified p h < ov)
  end.

(** The greedy matching in the words of the specification: the
    predictions are taken in rank order; a prediction with a candidate
    claims its best candidate and records its score, a prediction with
    no candidate records the miss sentinel. *)
Inductive greedy : list bool -> list pred_relation -> list efloat -> Prop :=
| greedy_done det :
    greedy det [] []
| greedy_hit det p k g ps hs :
    best_candidate det p k g ->
    greedy (list_set det k true) ps hs ->
    greedy det (p :: ps) (Fin (score p) :: hs)
| greedy_miss det p ps hs :
    (forall k g, ~ candidate det p k g) ->
    greedy det ps hs ->
    greedy det (p :: ps) (NegInf :: hs).

(** The loop as a recursion on the predictions left. *)
Fixpoint match_run (det : list bool) (ps : list pred_relation)
    : list bool * list efloat :=
  match ps with
  | [] => (det, [])
  | p :: ps' =>
      let k_max := snd (scan_gt viou thr gts det p) in
      if (0 <=? k_max)%Z
      then let r := match_run (list_set det (Z.to_nat k_max) true) ps' in
           (fst r, Fin (score p) :: snd r)
      else let r := match_run det ps' in
           (fst r, NegInf :: snd r)
  end.

(** The state [(gt_detected, hit_scores)] after [n] rounds of the loop
    over the ranked predictions [ps]. *)
Definition match_state (ps : list pred_relation) (n : nat)
    : list bool * list efloat :=
  fold_left (match_step viou thr gts) (firstn n (enumerate ps))
            (repeat false (length gts), repeat NegInf (length ps)).

End MatcherSpec.

(** ** The tagging ranks *)

(** Rank [i] of the ranked predictions is the first occurrence of its
    triplet: no prediction of a smaller rank has the same triplet. *)
Definition first_occurrence (ranked : list pred_relation)
    (ir : nat * pred_relation) : bool :=
  negb (triplet_in (triplet (snd ir))
                   (map ptriplet (firstn (fst ir) ranked))).

(** The predictions the tagger retains, in rank order. *)
Definition retained (ranked : list pred_relation) : list pred_relation :=
  map snd (filter (first_occurrence ranked) (enumerate ranked)).

(** The entry of [hit_scores] of a retained prediction. *)
Definition tag_of (gt_triplets : list triplet_t) (r : pred_relation) : efloat :=
  if triplet_in (triplet r) gt_triplets then Fin (score r) else NegInf.

(** The predictions of [l] whose triplet is neither in [seen] nor carried
    by an earlier prediction of [l]. *)
Fixpoint dedup (seen : list triplet_t) (l : list pred_relation) : list pred_relation :=
  match l with
  | [] => []
  | r :: l' =>
      if triplet_in (triplet r) seen then dedup seen l'
      else r :: dedup (seen ++ [triplet r]) l'
  end.

(** ** The zero-shot inputs *)

(** The triplets carried by the instances of a mapping from videos to
    instance lists. *)
Definition triplets_of_gt (d : sdict (list relation)) : list triplet_t :=
  flat_map (map triplet) (values d).

Definition triplets_of_pred (d : sdict (list pred_relation)) : list triplet_t :=
  flat_map (map ptriplet) (values d).

Section ZeroShotSpec.

Variable ds : dataset.
Variable zs : list triplet_t.
Variable prediction : sdict (list pred_relation).

(** What holds of the state of the zero-shot loop after every round. *)
Definition zs_inv
    (acc : result (sdict (list relation) * sdict (list pred_relation))) : Prop :=
  match acc with
  | Ok (groundtruth, zs_prediction) =>
      (forall vid rels, In (vid, rels) groundtruth ->
         rels = filter (fun r => triplet_in (triplet r) zs)
                       (get_relation_insts ds vid)) /\
      (forall vid rels, In (vid, rels) zs_prediction ->
         exists preds, lookup String.eqb vid prediction = Some preds /\
           rels = filter (fun r : pred_relation => triplet_in (triplet r) zs)
                         preds)
  | Raise e => e = KeyError
  end.

End ZeroShotSpec.

(** ** The videos that an aggregator scores *)

(** A video as the loop body sees it: its id, its ground-truth list and its
    prediction list. *)
Record video := {
  v_id : string;
  v_gt : list relation;
  v_pred : list pred_relation
}.

(** The value at tagging rank [nre] that a video adds to [prec_at_n[nre]]:
    the precision at rank [min(nre, size)], and 0 for an empty sequence. *)
Definition prec_at (nre : nat) (tag_prec : list Q) : Q :=
  let cut_off := Nat.min nre (length tag_prec) in
  if (0 <? cut_off)%nat then nth (cut_off - 1) tag_prec 0 else 0.

(** The contribution of a video to [prec_at_n[nre]] in the words of the
    specification: the precision at rank [nre], and 0 for a video with
    fewer than [nre] retained triplets. *)
Definition prec_at_as_specified (nre : nat) (tag_prec : list Q) : Q :=
  if (nre <=? length tag_prec)%nat then nth (nre - 1) tag_prec 0 else 0.

Section VideoSpec.

Variable viou : traj -> duration_t -> traj -> duration_t -> Q.
Variable voc_ap : list Q -> list Q -> Q.
Variable thr : Q.
Variables dets tags : list nat.

(** The [hit_scores] of the matcher on a video, its average precision
    and the precision sequence of the tagger on it. *)
Definition det_scores (v : video) : list efloat :=
  snd (eval_detection_scores viou (v_gt v) (v_pred v) thr).

Definition video_ap_of (v : video) : Q :=
  let r := eval_detection_scores viou (v_gt v) (v_pred v) thr in
  voc_ap (snd (fst r)) (fst (fst r)).

Definition tag_prec_of (v : video) : list Q :=
  fst (fst (eval_tagging_scores (v_gt v) (v_pred v))).

Variable cnt : video -> nat.

(** One round of a loop over the videos, after the lookup. *)
Definition score_one (st : accum) (v : video) : accum :=
  score_video viou voc_ap thr dets tags
              (count_relations st (cnt v)) (v_id v) (v_gt v) (v_pred v).

Definition ap_dict (vs : list video) (d : sdict Q) : sdict Q :=
  fold_left (fun d v => dict_set String.eqb d (v_id v) (video_ap_of v)) vs d.

Variable vid : string.
Variable preds : list pred_relation.

(** The inner loop [for each_gt_seg in gt_relations]. *)
Definition seg_inner (segs : list relation) (st : accum) : accum :=
  fold_left
    (fun st each_gt_seg =>
       score_video viou voc_ap thr dets tags st vid [each_gt_seg] preds)
    segs st.

End VideoSpec.

(** [d[vid]] where the key is known to be present. *)
Definition lookup_list {V} (d : sdict (list V)) (vid : string) : list V :=
  match lookup String.eqb vid d with
  | Some l => l
  | None => []
  end.

(** [len(item[1]) != 0]: the item is not skipped by the loop. *)
Definition nonempty {K V} (item : K * list V) : bool :=
  negb (length (snd item) =? 0)%nat.

(** The videos [evaluate] scores: in ground-truth-anchored mode the videos
    of the ground truth with at least one relation, each with its entry of
    the predictions; in prediction-anchored mode the videos of the
    predictions with at least one prediction, each with its entry of the
    ground truth. *)
Definition evaluated_videos (base_on_gt : bool)
    (groundtruth : sdict (list relation))
    (prediction : sdict (list pred_relation)) : list video :=
  if base_on_gt then
    map (fun item => {| v_id := fst item; v_gt := snd item;
                        v_pred := lookup_list prediction (fst item) |})
        (filter nonempty groundtruth)
  else
    map (fun item => {| v_id := fst item;
                        v_gt := lookup_list groundtruth (fst item);
                        v_pred := snd item |})
        (filter nonempty prediction).

(** Every video that is scored has an entry in the other mapping. *)
Definition resolvable (base_on_gt : bool)
    (groundtruth : sdict (list relation))
    (prediction : sdict (list pred_relation)) : Prop :=
  if base_on_gt then
    forall vid rels, In (vid, rels) groundtruth -> rels <> [] ->
      lookup String.eqb vid prediction <> None
  else
    forall vid preds, In (vid, preds) prediction -> preds <> [] ->
      lookup String.eqb vid groundtruth <> None.

(** [tot_gt_relations], respectively [tot_pred_relations]. *)
Definition counted (base_on_gt : bool) (v : video) : nat :=
  if base_on_gt then length (v_gt v) else length (v_pred v).

(** The loop over the videos with the lookups done first: the videos in
    the order of the loop, or the [KeyError] of the first failing lookup. *)
Fixpoint resolve_gt (groundtruth : sdict (list relation))
    (prediction : sdict (list pred_relation)) : result (list video) :=
  match groundtruth with
  | [] => Ok []
  | (vid, gt_relations) :: rest =>
      if (length gt_relations =? 0)%nat then resolve_gt rest prediction
      else
        predict_relations <- getitem String.eqb prediction vid ;;
        vs <- resolve_gt rest prediction ;;
        Ok ({| v_id := vid; v_gt := gt_relations; v_pred := predict_relations |} :: vs)
  end.

Fixpoint resolve_pred (groundtruth : sdict (list relation))
    (prediction : sdict (list pred_relation)) : result (list video) :=
  match prediction with
  | [] => Ok []
  | (vid, pred_relations) :: rest =>
      if (length pred_relations =? 0)%nat then resolve_pred groundtruth rest
      else
        gt_relations <- getitem String.eqb groundtruth vid ;;
        vs <- resolve_pred groundtruth rest ;;
        Ok ({| v_id := vid; v_gt := gt_relations; v_pred := pred_relations |} :: vs)
  end.

(** The lookups of the loop of either mode. *)
Definition resolve (base_on_gt : bool) (groundtruth : sdict (list relation))
    (prediction : sdict (list pred_relation)) : result (list video) :=
  if base_on_gt then resolve_gt groundtruth prediction
  else resolve_pred groundtruth prediction.

(** ** The result of [evaluate] *)

Section ResultSpec.

Variable viou : traj -> duration_t -> traj -> duration_t -> Q.
Variable voc_ap : list Q -> list Q -> Q.
Variable thr : Q.

(** The top-[N] hit scores of the videos, one list per video. *)
Definition pool (N : nat) (vs : list video) : list (list efloat) :=
  map (fun v => firstn N (det_scores viou thr v)) vs.

(** The hits among the top-[N] ranks of each video, added up. *)
Definition hits_top (N : nat) (vs : list video) : nat :=
  list_sum (map (fun v => count_true (map isfinite (firstn N (det_scores viou thr v))))
                vs).

(** [tot_gt_relations], respectively [tot_pred_relations], after the loop. *)
Definition total (b : bool) (vs : list video) : nat :=
  list_sum (map (counted b) vs).

(** [rec_at_n[N]] as the loop [for nre in det_nreturns] computes it. *)
Definition pooled_recall (b : bool) (N : nat) (vs : list video) : result Q :=
  match concat (pool N vs) with
  | [] => Raise IndexError
  | _ => Ok (Qnat (hits_top N vs) / Qmax (Qnat (total b vs)) eps)
  end.

(** What [evaluate] returns on the videos [vs] it scores. *)
Definition scores_of (b : bool) (vs : list video) : scores_t :=
  {| mean_ap := np_mean (values (ap_dict viou voc_ap thr vs []));
     rec_at_n :=
       [(50%nat, Qnat (hits_top 50 vs) / Qmax (Qnat (total b vs)) eps);
        (100%nat, Qnat (hits_top 100 vs) / Qmax (Qnat (total b vs)) eps)];
     mprec_at_n :=
       [(1%nat, np_mean (map (fun v => prec_at 1 (tag_prec_of v)) vs));
        (5%nat, np_mean (map (fun v => prec_at 5 (tag_prec_of v)) vs));
        (10%nat, np_mean (map (fun v => prec_at 10 (tag_prec_of v)) vs))] |}.

End ResultSpec.

(** ** The segments that [evaluate_segs] scores *)

(** The rounds of the inner loop [for each_gt_seg in gt_relations] on a
    video: one per ground-truth segment, each against all the predictions
    of the video. *)
Definition segments_of (v : video) : list video :=
  map (fun seg => {| v_id := v_id v; v_gt := [seg]; v_pred := v_pred v |})
      (v_gt v).

(** The rounds of the inner loop over a whole call of [evaluate_segs]. *)
Definition evaluated_segments (groundtruth : sdict (list relation))
    (prediction : sdict (list pred_relation)) : list video :=
  flat_map segments_of (evaluated_videos false groundtruth prediction).

(** One round of the outer loop of [evaluate_segs], after the lookup. *)
Definition seg_one (viou : traj -> duration_t -> traj -> duration_t -> Q)
    (voc_ap : list Q -> list Q -> Q) (thr : Q) (dets tags : list nat)
    (st : accum) (v : video) : accum :=
  seg_inner viou voc_ap thr dets tags (v_id v) (v_pred v) (v_gt v)
            (count_relations st (length (v_pred v))).

(** ** The ground truth of [evaluate_relation] *)

(** The mapping built by the loop [for vid in dataset.get_index(split)]
    at the head of [evaluate_relation]. *)
Definition relation_groundtruth (ds : dataset) (split : string)
    : sdict (list relation) :=
  fold_left (fun d vid => dict_set String.eqb d vid (get_relation_insts ds vid))
            (get_index ds split) [].

(** ** Runs on the fixtures *)

Definition ran_ok {A} (r : result A) : bool :=
  match r with Ok _ => true | Raise _ => false end.

(** [rec_at_n[N]] of a returned result is [q]. *)
Definition rec_is (r : result scores_t) (N : nat) (q : Q) : bool :=
  match r with
  | Ok s => match lookup Nat.eqb N (rec_at_n s) with
            | Some x => Qeq_bool x q
            | None => false
            end
  | Raise _ => false
  end.

(** [mprec_at_n[N]] of a returned result is [q]. *)
Definition mprec_is (r : result scores_t) (N : nat) (q : Q) : bool :=
  match r with
  | Ok s => match lookup Nat.eqb N (mprec_at_n s) with
            | Some (Num x) => Qeq_bool x q
            | _ => false
            end
  | Raise _ => false
  end.

(** [mean_ap] of a returned result is [q]. *)
Definition mean_ap_is (r : result scores_t) (q : Q) : bool :=
  match r with
  | Ok s => match mean_ap s with Num x => Qeq_bool x q | NaN => false end
  | Raise _ => false
  end.

Module Runs.

Import Fixture.

Definition evaluate :=
  evaluate viou voc_ap default_viou_threshold
           default_det_nreturns default_tag_nreturns.

Definition evaluate_segs :=
  evaluate_segs viou voc_ap default_viou_threshold
                default_det_nreturns default_tag_nreturns.

(** Two videos with one ground-truth relation each; the prediction of A
    hits, the prediction of B misses. *)
Definition gt_two : sdict (list relation) :=
  [("A"%string, [gt t123 d01]); ("B"%string, [gt t123 d01])].
Definition pred_two : sdict (list pred_relation) :=
  [("A"%string, [pr t123 d01 (9 # 10)]); ("B"%string, [pr t456 d01 (9 # 10)])].

(** One video with one ground-truth relation and one prediction, a hit. *)
Definition gt_one : sdict (list relation) := [("A"%string, [gt t123 d01])].
Definition pred_one_list : list pred_relation := [pr t123 d01 (9 # 10)].
Definition pred_one : sdict (list pred_relation) :=
  [("A"%string, pred_one_list)].

(** One video with two ground-truth segments; the only prediction
    matches the first one. *)
Definition gt_segs : sdict (list relation) :=
  [("A"%string, [gt t123 d01; gt t456 d01])].

End Runs.

(** A dataset of one test video with two relation instances; the triplet
    of the first one is in the train vocabulary, the triplet of the second
    one is not. *)
Module ZeroShotRuns.

Import Fixture.

Definition ds : dataset :=
  {| get_index := fun split => ["A"%string];
     get_relation_insts := fun vid => [gt t123 d01; gt t456 d01];
     get_triplets := fun split =>
       if String.eqb split "train" then [t123] else [t123; t456] |}.

End ZeroShotRuns.

(** * Properties *)

(** ** Lists, sorting and counting *)

Lemma enumerate_from_cons {A} (n : nat) (x : A) (l : list A) :
  enumerate_from n (x :: l) = (n, x) :: enumerate_from (S n) l.
Proof. reflexivity. Qed.

Lemma list_set_length {A} (l : list A) i v : length (list_set l i v) = length l.
Proof.
  revert i; induction l as [|h t IH]; intros [|i]; simpl; auto.
Qed.

Lemma list_set_app_here {A} (done rest : list A) x v :
  list_set (done ++ x :: rest) (length done) v = done ++ v :: rest.
Proof. induction done as [|h t IH]; simpl; [reflexivity | now rewrite IH]. Qed.

Lemma nth_list_set_same {A} (l : list A) i v d :
  (i < length l)%nat -> nth i (list_set l i v) d = v.
Proof.
  revert i; induction l as [|h t IH]; intros [|i] Hi; simpl in *; try lia; auto.
  apply IH; lia.
Qed.

Lemma nth_list_set_other {A} (l : list A) i j v d :
  i <> j -> nth j (list_set l i v) d = nth j l d.
Proof.
  revert i j; induction l as [|h t IH]; intros [|i] [|j] Hij; simpl; auto;
    try congruence.
Qed.

Lemma insert_sorted_perm {A} (before : A -> A -> bool) x l :
  Permutation (insert_sorted before x l) (x :: l).
Proof.
  induction l as [|y l IH]; simpl; [reflexivity|].
  destruct (before x y); [reflexivity|].
  rewrite IH. apply perm_swap.
Qed.

Lemma stable_sort_perm {A} (before : A -> A -> bool) l :
  Permutation (stable_sort before l) l.
Proof.
  induction l as [|x l IH]; simpl; [constructor|].
  rewrite insert_sorted_perm. now constructor.
Qed.

Lemma stable_sort_length {A} (before : A -> A -> bool) l :
  length (stable_sort before l) = length l.
Proof. apply Permutation_length, stable_sort_perm. Qed.

Lemma insert_by_score_sorted x l :
  StronglySorted score_ge l ->
  StronglySorted score_ge (insert_sorted score_geb x l).
Proof.
  induction 1 as [|y l Hs IH Hy]; simpl.
  - repeat constructor.
  - unfold score_geb at 1. destruct (Qle_bool (score y) (score x)) eqn:E.
    + apply Qle_bool_iff in E. constructor; [constructor; auto|].
      constructor; [exact E|].
      rewrite Forall_forall in *. intros z Hz. unfold score_ge in *.
      apply Qle_trans with (score y); auto.
    + assert (Hlt : score x < score y).
      { apply Qnot_le_lt. intro H. apply Qle_bool_iff in H. congruence. }
      constructor; [exact IH|].
      rewrite Forall_forall in *. intros z Hz.
      apply (Permutation_in _ (insert_sorted_perm score_geb x l)) in Hz.
      destruct Hz as [<-|Hz]; [apply Qlt_le_weak, Hlt | auto].
Qed.

Lemma sorted_by_score_sorted l : StronglySorted score_ge (sorted_by_score l).
Proof.
  induction l as [|x l IH]; simpl; [constructor|].
  apply insert_by_score_sorted, IH.
Qed.

Lemma cumsum_from_length acc l : length (cumsum_from acc l) = length l.
Proof. revert acc; induction l; intros; simpl; auto. Qed.

Lemma cumsum_from_bound acc l :
  Forall (fun c => (c <= acc + count_true l)%nat) (cumsum_from acc l).
Proof.
  revert acc; induction l as [|b l IH]; intros acc; simpl; [constructor|].
  constructor.
  - unfold count_true; destruct b; simpl; lia.
  - specialize (IH (acc + if b then 1 else 0)%nat).
    eapply Forall_impl; [|exact IH].
    intros c Hc. unfold count_true in *. destruct b; simpl in *; lia.
Qed.

Lemma cumsum_from_last acc l :
  l <> [] -> last (cumsum_from acc l) 0%nat = (acc + count_true l)%nat.
Proof.
  revert acc; induction l as [|b l IH]; intros acc Hl; [congruence|].
  destruct l as [|b' l'].
  - unfold count_true; destruct b; simpl; lia.
  - change (cumsum_from acc (b :: b' :: l'))
      with ((acc + if b then 1 else 0)%nat
              :: cumsum_from (acc + if b then 1 else 0) (b' :: l')).
    assert (Hne : cumsum_from (acc + (if b then 1 else 0)) (b' :: l') <> [])
      by (simpl; congruence).
    destruct (cumsum_from (acc + (if b then 1 else 0)) (b' :: l')) eqn:E;
      [congruence|].
    change (last (?a :: n :: l) 0%nat) with (last (n :: l) 0%nat).
    rewrite <- E, IH by congruence.
    unfold count_true; destruct b; simpl; lia.
Qed.

Lemma count_true_perm l l' : Permutation l l' -> count_true l = count_true l'.
Proof.
  intros H. unfold count_true. apply Permutation_length.
  induction H; simpl; repeat match goal with |- context [if ?b then _ else _] =>
    destruct b end; eauto using Permutation.
Qed.

Lemma count_true_app l l' : count_true (l ++ l') = (count_true l + count_true l')%nat.
Proof. unfold count_true. now rewrite filter_app, length_app. Qed.

Lemma count_true_le_length l : (count_true l <= length l)%nat.
Proof. unfold count_true. apply filter_length_le. Qed.

Lemma triplet_eqb_eq (a b : triplet_t) : triplet_eqb a b = true <-> a = b.
Proof.
  destruct a as [[s1 p1] o1], b as [[s2 p2] o2]; simpl.
  rewrite !andb_true_iff, !String.eqb_eq. split.
  - intros [[-> ->] ->]; reflexivity.
  - intros H; inversion H; auto.
Qed.

Lemma triplet_in_In t l : triplet_in t l = true <-> In t l.
Proof.
  unfold triplet_in. rewrite existsb_exists. split.
  - intros [x [Hx E]]. apply triplet_eqb_eq in E. now subst.
  - intros H. exists t. split; [exact H | now apply triplet_eqb_eq].
Qed.

(** ** The matcher: what one scan of the ground truth selects *)

Section MatcherProps.

Variable viou : traj -> duration_t -> traj -> duration_t -> Q.
Variable thr : Q.
Variable gts : list relation.

Lemma nth_error_middle {A} (pre suf : list A) (x : A) :
  nth_error (pre ++ x :: suf) (length pre) = Some x.
Proof. induction pre; simpl; auto. Qed.

Lemma scan_step_inv det p pre g suf st :
  gts = pre ++ g :: suf ->
  scan_inv viou thr gts det p (length pre) st ->
  scan_inv viou thr gts det p (S (length pre))
           (scan_step viou thr det p st (length pre, g)).
Proof.
  intros Hg Hinv.
  assert (Hnth : nth_error gts (length pre) = Some g)
    by (rewrite Hg; apply nth_error_middle).
  assert (Hcand : forall h, candidate viou thr gts det p (length pre) h ->
            h = g /\ nth (length pre) det false = false /\
            triplet_eqb (triplet p) (triplet g) = true /\
            Qle_bool thr (overlap viou p g) = true).
  { intros h (H1 & H2 & H3 & H4). rewrite Hnth in H1.
    injection H1 as <-. repeat split; auto.
    - now apply triplet_eqb_eq.
    - now apply Qle_bool_iff. }
  destruct st as [ovm k]. unfold scan_step.
  destruct (negb (nth (length pre) det false)
            && triplet_eqb (triplet p) (triplet g)) eqn:C1.
  2:{ (* the instance is claimed or of another triplet *)
    assert (Hno : forall h, ~ candidate viou thr gts det p (length pre) h).
    { intros h Hc. destruct (Hcand h Hc) as (_ & Hd & Ht & _).
      rewrite Hd, Ht in C1. discriminate. }
    destruct ovm as [|ov]; simpl in *.
    - destruct Hinv as [-> Hinv]. split; [reflexivity|].
      intros j h Hj Hc.
      destruct (Nat.eq_dec j (length pre)) as [->|Hne];
        [exact (Hno h Hc) | apply (Hinv j h); [lia | exact Hc]].
    - destruct Hinv as (g0 & Hk & Hlt & Hc0 & Hov & Hmax).
      exists g0. split; [exact Hk|]. split; [lia|].
      split; [exact Hc0|]. split; [exact Hov|].
      intros j h Hj Hc.
      destruct (Nat.eq_dec j (length pre)) as [->|Hne];
        [exfalso; exact (Hno h Hc) | apply Hmax; auto; lia]. }
  apply andb_true_iff in C1. destruct C1 as [Hd Ht].
  apply negb_true_iff in Hd. apply triplet_eqb_eq in Ht.
  cbv zeta.
  destruct (Qle_bool thr (overlap viou p g) && gt_efloat (overlap viou p g) ovm)
    eqn:C2.
  - (* a new maximum *)
    apply andb_true_iff in C2. destruct C2 as [Hthr Hgt].
    apply Qle_bool_iff in Hthr.
    simpl. exists g. rewrite Nat2Z.id.
    split; [lia|]. split; [lia|].
    split; [repeat split; auto|]. split; [reflexivity|].
    intros j h Hj Hc.
    destruct (Nat.eq_dec j (length pre)) as [->|Hne].
    + destruct (Hcand h Hc) as (-> & _). split; [apply Qle_refl | lia].
    + assert (Hj' : (j < length pre)%nat) by lia.
      destruct ovm as [|m]; simpl in *.
      * destruct Hinv as [_ Hinv]. exfalso. exact (Hinv j h Hj' Hc).
      * destruct Hinv as (g0 & _ & _ & _ & _ & Hmax).
        apply negb_true_iff in Hgt.
        assert (Hlt : m < overlap viou p g).
        { apply Qnot_le_lt. intro H. apply Qle_bool_iff in H. congruence. }
        destruct (Hmax j h Hj' Hc) as [Hle _].
        split; [apply Qlt_le_weak|intros _];
          apply Qle_lt_trans with m; auto.
  - (* below the threshold, or not above the maximum so far *)
    apply andb_false_iff in C2.
    destruct ovm as [|m]; simpl in *.
    + destruct Hinv as [-> Hinv]. split; [reflexivity|].
      intros j h Hj Hc.
      destruct (Nat.eq_dec j (length pre)) as [->|Hne].
      * destruct (Hcand h Hc) as (_ & _ & _ & Hthr).
        destruct C2 as [C2|C2]; congruence.
      * apply (Hinv j h); [lia | exact Hc].
    + destruct Hinv as (g0 & Hk & Hlt & Hc0 & Hov & Hmax).
      exists g0. split; [exact Hk|]. split; [lia|].
      split; [exact Hc0|]. split; [exact Hov|].
      intros j h Hj Hc.
      destruct (Nat.eq_dec j (length pre)) as [->|Hne].
      * destruct (Hcand h Hc) as (-> & _ & _ & Hthr).
        destruct C2 as [C2|C2]; [congruence|].
        apply negb_false_iff, Qle_bool_iff in C2.
        split; [exact C2 | lia].
      * apply Hmax; auto; lia.
Qed.

Lemma scan_fold_inv det p suf : forall pre st,
  gts = pre ++ suf ->
  scan_inv viou thr gts det p (length pre) st ->
  scan_inv viou thr gts det p (length gts)
    (fold_left (scan_step viou thr det p) (enumerate_from (length pre) suf) st).
Proof.
  induction suf as [|g suf IH]; intros pre st Hg Hinv.
  - simpl. replace (length gts) with (length pre)
      by (rewrite Hg, app_nil_r; reflexivity).
    exact Hinv.
  - rewrite enumerate_from_cons. simpl fold_left.
    replace (S (length pre)) with (length (pre ++ [g]))
      by (rewrite length_app; simpl; lia).
    apply IH.
    + rewrite <- app_assoc. exact Hg.
    + rewrite length_app; simpl. rewrite Nat.add_1_r.
      eapply scan_step_inv; eauto.
Qed.

(** The scan returns [-1] when the prediction has no candidate, and the
    index of its best candidate otherwise. *)
Lemma scan_gt_spec det p :
  let k_max := snd (scan_gt viou thr gts det p) in
  (k_max = (-1)%Z /\ forall j h, ~ candidate viou thr gts det p j h) \/
  (exists g, (0 <= k_max)%Z /\ best_candidate viou thr gts det p (Z.to_nat k_max) g).
Proof.
  assert (H := @scan_fold_inv det p gts [] (NegInf, (-1)%Z) eq_refl).
  simpl in H. fold (enumerate gts) in H.
  fold (scan_gt viou thr gts det p) in H.
  assert (Hinit : (-1)%Z = (-1)%Z /\
            (forall j h, (j < 0)%nat -> ~ candidate viou thr gts det p j h))
    by (split; [reflexivity | intros; lia]).
  specialize (H Hinit). clear Hinit.
  assert (Hrange : forall j h, candidate viou thr gts det p j h -> (j < length gts)%nat).
  { intros j h (H1 & _). apply nth_error_Some. congruence. }
  destruct (scan_gt viou thr gts det p) as [[|ov] k]; simpl in *.
  - left. destruct H as [-> H]. split; [reflexivity|].
    intros j h Hc. exact (H j h (Hrange j h Hc) Hc).
  - right. destruct H as (g & Hk & _ & Hc & -> & Hmax).
    exists g. split; [exact Hk|]. split; [exact Hc|].
    intros j h Hc'. exact (Hmax j h (Hrange j h Hc') Hc').
Qed.

End MatcherProps.

Lemma firstn_seq n : forall start len,
  firstn n (seq start len) = seq start (Nat.min n len).
Proof.
  induction n as [|n IH]; intros start [|len]; simpl; auto.
  now rewrite IH.
Qed.

(** ** The matcher: the loop over the ranked predictions *)

Section MatcherLoop.

Variable viou : traj -> duration_t -> traj -> duration_t -> Q.
Variable thr : Q.
Variable gts : list relation.

Lemma match_run_length det ps : length (snd (match_run viou thr gts det ps)) = length ps.
Proof.
  revert det; induction ps as [|p ps IH]; intros det; simpl; auto.
  destruct (0 <=? _)%Z; simpl; now rewrite IH.
Qed.

Lemma match_fold_run ps : forall det done tail,
  fold_left (match_step viou thr gts) (enumerate_from (length done) ps)
            (det, done ++ repeat NegInf (length ps) ++ tail)
  = (fst (match_run viou thr gts det ps),
     done ++ snd (match_run viou thr gts det ps) ++ tail).
Proof.
  induction ps as [|p ps IH]; intros det done tail; [reflexivity|].
  rewrite enumerate_from_cons. cbn [fold_left match_run].
  unfold match_step at 2. cbv zeta.
  destruct (0 <=? snd (scan_gt viou thr gts det p))%Z.
  - simpl repeat. rewrite <- app_comm_cons, list_set_app_here.
    specialize (IH (list_set det (Z.to_nat (snd (scan_gt viou thr gts det p))) true)
                   (done ++ [Fin (score p)]) tail).
    rewrite length_app in IH; simpl in IH. rewrite Nat.add_1_r in IH.
    rewrite <- !app_assoc in IH. simpl in IH. rewrite IH. reflexivity.
  - specialize (IH det (done ++ [NegInf]) tail).
    rewrite length_app in IH; simpl in IH. rewrite Nat.add_1_r in IH.
    rewrite <- !app_assoc in IH. simpl in IH. simpl repeat.
    rewrite <- app_comm_cons. rewrite IH. reflexivity.
Qed.

Lemma match_loop_run ps :
  match_loop viou thr gts ps
  = match_run viou thr gts (repeat false (length gts)) ps.
Proof.
  unfold match_loop, enumerate.
  assert (H := match_fold_run ps (repeat false (length gts)) [] []).
  simpl in H. rewrite !app_nil_r in H. rewrite H.
  now destruct (match_run viou thr gts _ ps).
Qed.

Lemma match_run_greedy ps : forall det,
  greedy viou thr gts det ps (snd (match_run viou thr gts det ps)).
Proof.
  induction ps as [|p ps IH]; intros det; simpl; [constructor|].
  destruct (scan_gt_spec viou thr gts det p) as [[Hk Hno] | (g & Hk & Hbest)].
  - rewrite Hk. simpl. apply greedy_miss; auto.
  - apply Z.leb_le in Hk. rewrite Hk. simpl.
    eapply greedy_hit; eauto.
Qed.

Lemma match_state_run ps n :
  (n <= length ps)%nat ->
  match_state viou thr gts ps n
  = (fst (match_run viou thr gts (repeat false (length gts)) (firstn n ps)),
     snd (match_run viou thr gts (repeat false (length gts)) (firstn n ps))
       ++ repeat NegInf (length ps - n)).
Proof.
  intros Hn. unfold match_state, enumerate, enumerate_from.
  rewrite combine_firstn, firstn_seq, Nat.min_l by exact Hn.
  assert (H := match_fold_run (firstn n ps) (repeat false (length gts)) []
                 (repeat NegInf (length ps - n))).
  simpl in H. unfold enumerate_from in H.
  rewrite length_firstn, Nat.min_l in H by exact Hn.
  rewrite <- repeat_app in H.
  replace (n + (length ps - n))%nat with (length ps) in H by lia.
  exact H.
Qed.

Lemma match_state_final ps :
  match_state viou thr gts ps (length ps) = match_loop viou thr gts ps.
Proof.
  unfold match_state, match_loop.
  rewrite firstn_all2; [reflexivity|].
  unfold enumerate, enumerate_from.
  rewrite length_combine, length_seq. lia.
Qed.

Lemma match_run_snoc ps p : forall det,
  match_run viou thr gts det (ps ++ [p])
  = (let st := match_run viou thr gts det ps in
     let k_max := snd (scan_gt viou thr gts (fst st) p) in
     if (0 <=? k_max)%Z
     then (list_set (fst st) (Z.to_nat k_max) true, snd st ++ [Fin (score p)])
     else (fst st, snd st ++ [NegInf])).
Proof.
  induction ps as [|q ps IH]; intros det.
  - simpl. destruct (0 <=? _)%Z; reflexivity.
  - simpl app. simpl match_run.
    destruct (0 <=? snd (scan_gt viou thr gts det q))%Z;
      rewrite IH; cbv zeta; simpl fst; simpl snd;
      destruct (0 <=? _)%Z; reflexivity.
Qed.

Lemma count_true_list_set det k :
  (k < length det)%nat -> nth k det false = false ->
  count_true (list_set det k true) = S (count_true det).
Proof.
  revert k; induction det as [|b det IH]; intros [|k] Hk Hn;
    simpl in *; try lia.
  - subst b. reflexivity.
  - unfold count_true in *. simpl. destruct b; simpl; rewrite IH; auto; lia.
Qed.

(** A scan that selects an instance selects one in range and unclaimed. *)
Lemma scan_gt_selects det p :
  let k_max := snd (scan_gt viou thr gts det p) in
  (0 <= k_max)%Z ->
  (Z.to_nat k_max < length gts)%nat /\ nth (Z.to_nat k_max) det false = false.
Proof.
  intros k_max Hk. subst k_max.
  destruct (scan_gt_spec viou thr gts det p) as [[E _] | (g & _ & (Hc & _))].
  - rewrite E in Hk. lia.
  - destruct Hc as (H1 & H2 & _). split; [|exact H2].
    apply nth_error_Some. congruence.
Qed.

Lemma match_run_inv ps : forall det,
  length det = length gts ->
  length (fst (match_run viou thr gts det ps)) = length gts /\
  count_true (fst (match_run viou thr gts det ps))
  = (count_true det
     + count_true (map isfinite (snd (match_run viou thr gts det ps))))%nat.
Proof.
  induction ps as [|p ps IH]; intros det Hlen; simpl.
  - split; [exact Hlen | unfold count_true; simpl; lia].
  - destruct (0 <=? snd (scan_gt viou thr gts det p))%Z eqn:E; simpl.
    + apply Z.leb_le in E.
      destruct (scan_gt_selects det p E) as [Hr Hu].
      destruct (IH (list_set det (Z.to_nat (snd (scan_gt viou thr gts det p))) true))
        as [H1 H2]; [now rewrite list_set_length|].
      split; [exact H1|]. rewrite H2, count_true_list_set by (auto; lia).
      unfold count_true; simpl; lia.
    + destruct (IH det Hlen) as [H1 H2]. split; [exact H1|].
      rewrite H2. unfold count_true; simpl; lia.
Qed.

End MatcherLoop.

Lemma firstn_snoc {A} (l : list A) (d : A) : forall n,
  (n < length l)%nat -> firstn (S n) l = firstn n l ++ [nth n l d].
Proof.
  induction l as [|x l IH]; intros [|n] Hn; simpl in *; try lia; auto.
  f_equal. apply IH. lia.
Qed.

Lemma Qnat_le (a b : nat) : (a <= b)%nat -> Qnat a <= Qnat b.
Proof.
  intros H. unfold Qnat. rewrite <- Zle_Qle. lia.
Qed.

Lemma Qmax_eps_pos (q : Q) : 0 < Qmax q eps.
Proof.
  apply Qlt_le_trans with eps; [reflexivity | apply Q.le_max_r].
Qed.

Lemma recall_curve_le_1 (cum : list nat) (n : nat) :
  Forall (fun c => (c <= n)%nat) cum ->
  Forall (fun r => r <= 1) (recall_curve cum n).
Proof.
  intros H. unfold recall_curve. apply Forall_map.
  eapply Forall_impl; [|exact H]. intros c Hc. simpl.
  apply Qle_shift_div_r; [apply Qmax_eps_pos|].
  rewrite Qmult_1_l.
  apply Qle_trans with (Qnat n); [now apply Qnat_le | apply Q.le_max_l].
Qed.

(** ** The matcher: properties of [eval_detection_scores] *)

Section MatcherClaims.

Variable viou : traj -> duration_t -> traj -> duration_t -> Q.

Lemma eval_detection_scores_eq gts preds thr :
  eval_detection_scores viou gts preds thr
  = (fst (curves (snd (match_loop viou thr gts (sorted_by_score preds)))
                 (length gts)),
     snd (curves (snd (match_loop viou thr gts (sorted_by_score preds)))
                 (length gts)),
     snd (match_loop viou thr gts (sorted_by_score preds))).
Proof. reflexivity. Qed.

(** C1.  [eval_detection_scores] ranks the predictions by descending
    score and runs the greedy matching on them: each prediction, in rank
    order, looks only at the ground-truth instances not yet claimed whose
    triplet is its own and whose overlap, the smaller of the subject vIoU
    and the object vIoU ([overlap_as_specified]), is at least
    [viou_threshold]; if there is one, the instance of maximal overlap
    among them is claimed (not the first one that qualifies) and the
    score of the prediction is recorded at its rank in [hit_scores];
    if there is none, that rank keeps the sentinel [-inf].

    Two runs show what the general statement excludes.  In the first,
    the best prediction overlaps the first instance by 0.6 and the second
    by 1, the other prediction overlaps the first instance by 0.5 and the
    second by 0.3: both are hits, because the best prediction claims the
    second instance; had it claimed the first instance that qualifies,
    the other prediction would be a miss.  In the second, with a vIoU
    that is 1 on trajectories of the same length and 0 otherwise, a
    prediction that agrees with the instance on one trajectory only is a
    miss, whichever trajectory it is, and a hit when it agrees on both. *)
Theorem eval_detection_scores_greedy
    (gts : list relation) (preds : list pred_relation) (thr : Q) :
  let ranked := sorted_by_score preds in
  let hit_scores := snd (eval_detection_scores viou gts preds thr) in
  (Permutation ranked preds /\
   StronglySorted score_ge ranked /\
   greedy viou thr gts (repeat false (length gts)) ranked hit_scores) /\
  snd (eval_detection_scores Fixture.viou
         [Fixture.gt Fixture.t123 Fixture.d06;
          Fixture.gt Fixture.t123 Fixture.d010]
         [Fixture.pr Fixture.t123 (0, 3)%Z (8 # 10);
          Fixture.pr Fixture.t123 Fixture.d010 (9 # 10)]
         (1 # 2))
  = [Fin (9 # 10); Fin (8 # 10)] /\
  (let same_length (t1 : traj) (d1 : duration_t) (t2 : traj) (d2 : duration_t) :=
     if (length t1 =? length t2)%nat then 1 else 0 in
   let short := Fixture.track Fixture.d01 in
   let long := Fixture.track Fixture.d06 in
   let inst s o :=
     {| triplet := Fixture.t123; sub_traj := s; obj_traj := o;
        duration := Fixture.d01 |} in
   let run s o :=
     snd (eval_detection_scores same_length [inst short short]
            [{| rel := inst s o; score := 9 # 10 |}] (1 # 2)) in
   run short short = [Fin (9 # 10)] /\
   run short long = [NegInf] /\
   run long short = [NegInf]).
Proof.
  cbv zeta. split; [|split; [reflexivity | repeat split]].
  split; [apply stable_sort_perm|].
  split; [apply sorted_by_score_sorted|].
  rewrite eval_detection_scores_eq. cbn [snd].
  rewrite match_loop_run. apply match_run_greedy.
Qed.

(** C10.  During one call of [eval_detection_scores] a round of the loop
    either leaves [gt_detected] as it is or sets the flag of one
    ground-truth instance that was not claimed before, and a flag once
    set stays set, so no instance is claimed by two predictions; the
    finite entries of the returned [hit_scores] are at most as many as
    the ground-truth instances, and every value of the returned recall
    sequence is at most 1. *)
Theorem ground_truth_claimed_at_most_once
    (gts : list relation) (preds : list pred_relation) (thr : Q) :
  let ranked := sorted_by_score preds in
  let state := match_state viou thr gts ranked in
  let rec := snd (fst (eval_detection_scores viou gts preds thr)) in
  let hit_scores := snd (eval_detection_scores viou gts preds thr) in
  (forall n, (n < length ranked)%nat ->
     state (S n) = state n \/
     exists k, (k < length gts)%nat /\
       nth k (fst (state n)) false = false /\
       fst (state (S n)) = list_set (fst (state n)) k true /\
       snd (state (S n))
       = list_set (snd (state n)) n (Fin (score (nth n ranked no_pred)))) /\
  (forall n, (n <= length ranked)%nat ->
     length (fst (state n)) = length gts /\
     count_true (map isfinite (snd (state n))) = count_true (fst (state n))) /\
  snd (state (length ranked)) = hit_scores /\
  (count_true (map isfinite hit_scores) <= length gts)%nat /\
  Forall (fun r => r <= 1) rec.
Proof.
  cbv zeta.
  set (ranked := sorted_by_score preds).
  set (det0 := repeat false (length gts)).
  assert (Hdet0 : length det0 = length gts) by apply repeat_length.
  assert (Hzero : count_true det0 = 0%nat).
  { unfold det0, count_true. induction (length gts); simpl; auto. }
  assert (Hinv : forall n, (n <= length ranked)%nat ->
            length (fst (match_state viou thr gts ranked n)) = length gts /\
            count_true (map isfinite (snd (match_state viou thr gts ranked n)))
            = count_true (fst (match_state viou thr gts ranked n))).
  { intros n Hn. rewrite match_state_run by exact Hn. cbn [fst snd].
    fold det0.
    destruct (match_run_inv viou thr gts (firstn n ranked) det0 Hdet0)
      as [H1 H2].
    split; [exact H1|]. rewrite H2, Hzero, map_app, count_true_app.
    assert (Hrep : forall m, count_true (map isfinite (repeat NegInf m)) = 0%nat).
    { induction m; simpl; auto. }
    rewrite Hrep. lia. }
  assert (Hfinal : snd (match_state viou thr gts ranked (length ranked))
                   = snd (eval_detection_scores viou gts preds thr)).
  { rewrite match_state_final, eval_detection_scores_eq. reflexivity. }
  assert (Hcount : (count_true (map isfinite
                      (snd (eval_detection_scores viou gts preds thr)))
                    <= length gts)%nat).
  { rewrite <- Hfinal.
    destruct (Hinv (length ranked) (le_n _)) as [H1 H2].
    rewrite H2, <- H1. apply count_true_le_length. }
  split; [|split; [exact Hinv | split; [exact Hfinal | split; [exact Hcount|]]]].
  - intros n Hn.
    set (d := no_pred).
    rewrite (match_state_run viou thr gts ranked (n := S n)) by lia.
    rewrite (match_state_run viou thr gts ranked (n := n)) by lia.
    rewrite (firstn_snoc ranked d Hn), match_run_snoc. fold det0.
    cbv zeta.
    set (st := match_run viou thr gts det0 (firstn n ranked)).
    assert (Hlen : length (snd st) = n).
    { unfold st. rewrite match_run_length, length_firstn. lia. }
    replace (length ranked - n)%nat with (S (length ranked - S n)) by lia.
    destruct (0 <=? snd (scan_gt viou thr gts (fst st) (nth n ranked d)))%Z eqn:E;
      cbn [fst snd].
    + right. apply Z.leb_le in E.
      destruct (scan_gt_selects viou thr gts (fst st) (nth n ranked d) E)
        as [Hr Hu].
      eexists. split; [exact Hr|]. split; [exact Hu|]. split; [reflexivity|].
      simpl repeat.
      assert (Hset := list_set_app_here (snd st)
                        (repeat NegInf (length ranked - S n)) NegInf
                        (Fin (score (nth n ranked d)))).
      rewrite Hlen in Hset. rewrite Hset, <- app_assoc. reflexivity.
    + left. rewrite <- app_assoc. reflexivity.
  - rewrite eval_detection_scores_eq. cbn [fst snd]. unfold curves. cbn [snd].
    apply recall_curve_le_1.
    rewrite eval_detection_scores_eq in Hcount. cbn [snd] in Hcount.
    eapply Forall_impl; [|apply cumsum_from_bound].
    intros c Hc. simpl in Hc. lia.
Qed.

End MatcherClaims.

(** The instance of maximal overlap is claimed, not the first one that
    qualifies: the prediction overlaps the first instance by 0.6 and the
    second by 1, both at least the threshold 0.5, and claims the second. *)
Example matcher_claims_best_not_first :
  let gts := [Fixture.gt Fixture.t123 Fixture.d06;
              Fixture.gt Fixture.t123 Fixture.d010] in
  let p := Fixture.pr Fixture.t123 Fixture.d010 (9 # 10) in
  Qeq_bool (overlap Fixture.viou p (Fixture.gt Fixture.t123 Fixture.d06)) (6 # 10)
  = true /\
  Qeq_bool (overlap Fixture.viou p (Fixture.gt Fixture.t123 Fixture.d010)) 1
  = true /\
  match_loop Fixture.viou (1 # 2) gts [p] = ([false; true], [Fin (9 # 10)]).
Proof. vm_compute. repeat split. Qed.

(** ** The tagger: properties of [eval_tagging_scores] *)

Lemma triplet_in_app t l1 l2 :
  triplet_in t (l1 ++ l2) = triplet_in t l1 || triplet_in t l2.
Proof. apply existsb_app. Qed.

Lemma triplet_in_set t l : triplet_in t (triplet_set l) = triplet_in t l.
Proof.
  induction l as [|x l IH]; [reflexivity|].
  simpl triplet_set. destruct (triplet_in x (triplet_set l)) eqn:E.
  - rewrite IH. simpl. destruct (triplet_eqb t x) eqn:Ex; [|reflexivity].
    apply triplet_eqb_eq in Ex. subst x. simpl. now rewrite <- IH.
  - simpl. now rewrite <- IH.
Qed.

Lemma dedup_ext l : forall s1 s2,
  (forall t, triplet_in t s1 = triplet_in t s2) -> dedup s1 l = dedup s2 l.
Proof.
  induction l as [|r l IH]; intros s1 s2 H; simpl; [reflexivity|].
  rewrite (H (triplet r)). destruct (triplet_in (triplet r) s2).
  - now apply IH.
  - f_equal. apply IH. intros t. now rewrite !triplet_in_app, H.
Qed.

Lemma tag_fold_dedup l : forall ts hs,
  fold_left tag_step l (ts, hs)
  = (ts ++ map ptriplet (dedup ts l), hs ++ map score (dedup ts l)).
Proof.
  induction l as [|r l IH]; intros ts hs; simpl.
  - now rewrite !app_nil_r.
  - destruct (triplet_in (triplet r) ts); simpl.
    + apply IH.
    + rewrite IH. simpl. now rewrite <- !app_assoc.
Qed.

Lemma retained_dedup suf : forall pre,
  map snd (filter (first_occurrence (pre ++ suf))
                  (enumerate_from (length pre) suf))
  = dedup (map ptriplet pre) suf.
Proof.
  induction suf as [|r suf IH]; intros pre; [reflexivity|].
  rewrite enumerate_from_cons. simpl filter. simpl dedup.
  unfold first_occurrence at 1. cbn [fst snd].
  rewrite firstn_app, Nat.sub_diag, firstn_all. simpl firstn. rewrite app_nil_r.
  specialize (IH (pre ++ [r])).
  rewrite length_app, <- app_assoc in IH. simpl in IH.
  rewrite Nat.add_1_r in IH.
  destruct (triplet_in (triplet r) (map ptriplet pre)) eqn:E; simpl.
  - rewrite IH. apply dedup_ext. intros t.
    rewrite map_app, triplet_in_app. simpl.
    destruct (triplet_eqb t (triplet r)) eqn:Et; simpl.
    + apply triplet_eqb_eq in Et. subst t. rewrite E. reflexivity.
    + now rewrite orb_false_r.
  - rewrite IH, map_app. reflexivity.
Qed.

Lemma tag_mark_fold gt_triplets l : forall done,
  fold_left (tag_mark gt_triplets)
            (enumerate_from (length done) (map ptriplet l))
            (done ++ map (fun r => Fin (score r)) l)
  = done ++ map (tag_of gt_triplets) l.
Proof.
  induction l as [|r l IH]; intros done; [reflexivity|].
  simpl map. rewrite enumerate_from_cons. cbn [fold_left].
  assert (Hstep :
    tag_mark gt_triplets
      (done ++ Fin (score r) :: map (fun r => Fin (score r)) l)
      (length done, triplet r)
    = (done ++ [tag_of gt_triplets r]) ++ map (fun r => Fin (score r)) l).
  { unfold tag_mark, tag_of.
    destruct (triplet_in (triplet r) gt_triplets); simpl negb; cbv iota.
    - now rewrite <- app_assoc.
    - rewrite list_set_app_here. now rewrite <- app_assoc. }
  rewrite Hstep.
  specialize (IH (done ++ [tag_of gt_triplets r])).
  rewrite length_app in IH. simpl length in IH. rewrite Nat.add_1_r in IH.
  rewrite IH. now rewrite <- app_assoc.
Qed.

Lemma eval_tagging_scores_eq gts preds :
  let gt_triplets := triplet_set (map triplet gts) in
  let hit_scores := map (tag_of gt_triplets) (retained (sorted_by_score preds)) in
  eval_tagging_scores gts preds
  = (fst (curves hit_scores (length gt_triplets)),
     snd (curves hit_scores (length gt_triplets)),
     hit_scores).
Proof.
  cbv zeta. unfold eval_tagging_scores.
  rewrite tag_fold_dedup. simpl app.
  assert (Hr := retained_dedup (sorted_by_score preds) []).
  simpl in Hr. fold (enumerate (sorted_by_score preds)) in Hr.
  fold (retained (sorted_by_score preds)) in Hr. rewrite <- Hr.
  rewrite map_map.
  assert (Hm := tag_mark_fold (triplet_set (map triplet gts))
                  (retained (sorted_by_score preds)) []).
  simpl in Hm. fold (enumerate (map ptriplet (retained (sorted_by_score preds)))) in Hm.
  rewrite Hm. reflexivity.
Qed.


(** ** The segment-level aggregator in ground-truth-anchored mode *)

(** C7.  [evaluate_segs] with [base_on_gt=True] never returns a result and
    computes nothing else instead: on every input the call stops in
    [exit(0)]. *)
Theorem evaluate_segs_on_gt_exits
    (viou : traj -> duration_t -> traj -> duration_t -> Q)
    (voc_ap : list Q -> list Q -> Q)
    (viou_threshold : Q) (det_nreturns tag_nreturns : list nat)
    (groundtruth : sdict (list relation))
    (prediction : sdict (list pred_relation)) :
  evaluate_segs viou voc_ap viou_threshold det_nreturns tag_nreturns
                groundtruth prediction true
  = Raise (SystemExit 0).
Proof. reflexivity. Qed.

(** ** The zero-shot filter *)

Lemma In_dict_set {K V} (eqb : K -> K -> bool) (d : list (K * V)) k v kv :
  In kv (dict_set eqb d k v) -> kv = (k, v) \/ In kv d.
Proof.
  induction d as [|[k' v'] d IH]; simpl.
  - intros [<-|[]]; auto.
  - destruct (eqb k k'); simpl; intros [<-|H]; auto.
    destruct (IH H); auto.
Qed.

Lemma zeroshot_triplets_spec ds split t :
  In t (zeroshot_triplets_of ds split) <->
  In t (get_triplets ds split) /\ ~ In t (get_triplets ds "train").
Proof.
  unfold zeroshot_triplets_of. rewrite filter_In, negb_true_iff.
  rewrite <- (triplet_in_In t (get_triplets ds "train")), not_true_iff_false.
  reflexivity.
Qed.

Section ZeroShot.

Variable ds : dataset.
Variable split : string.
Variable prediction : sdict (list pred_relation).

Let zs := zeroshot_triplets_of ds split.

Lemma zs_step_inv acc vid :
  zs_inv ds zs prediction acc ->
  zs_inv ds zs prediction (zs_step ds zs prediction acc vid).
Proof.
  destruct acc as [[g z]|e]; simpl; [|auto].
  intros [Hg Hz].
  destruct (0 <? length _)%nat; [|split; assumption].
  unfold getitem. destruct (lookup String.eqb vid prediction) as [preds|] eqn:E;
    simpl; [|reflexivity].
  split.
  - intros v rels H. apply In_dict_set in H. destruct H as [H|H]; auto.
    now inversion H.
  - intros v rels H. apply In_dict_set in H. destruct H as [H|H]; auto.
    inversion H; subst. eauto.
Qed.

Lemma zs_fold_inv l : forall acc,
  zs_inv ds zs prediction acc ->
  zs_inv ds zs prediction (fold_left (zs_step ds zs prediction) l acc).
Proof.
  induction l as [|vid l IH]; intros acc H; simpl; auto using zs_step_inv.
Qed.

Lemma zs_fold_total l : forall st,
  (forall vid, In vid l -> lookup String.eqb vid prediction <> None) ->
  exists st', fold_left (zs_step ds zs prediction) l (Ok st) = Ok st'.
Proof.
  induction l as [|vid l IH]; intros st H; simpl; [eauto|].
  destruct st as [g z].
  destruct (0 <? length _)%nat.
  - unfold getitem.
    destruct (lookup String.eqb vid prediction) eqn:E;
      [|exfalso; apply (H vid); simpl; auto].
    simpl. apply IH. intros v Hv. apply H. simpl; auto.
  - apply IH. intros v Hv. apply H. simpl; auto.
Qed.

(** C9.  The zero-shot pass of [evaluate_relation] keeps, per video, the
    ground-truth instances and the predicted instances whose triplet is
    in the vocabulary of the evaluated split and not in the vocabulary of
    the train split.  So no instance of the filtered ground truth or of
    the filtered predictions carries a triplet of the train vocabulary
    (in particular none carries a triplet of both vocabularies): the
    triplet sets of the filtered inputs do not meet the train
    vocabulary.  The pass fails only on a [KeyError], and not at all when
    every video of the split has an entry in the predictions. *)
Theorem zero_shot_inputs_exclude_train :
  match zero_shot_inputs ds split prediction with
  | Ok (groundtruth, zs_prediction) =>
      (forall vid rels, In (vid, rels) groundtruth ->
         rels = filter (fun r => triplet_in (triplet r) zs)
                       (get_relation_insts ds vid)) /\
      (forall vid rels, In (vid, rels) zs_prediction ->
         exists preds, lookup String.eqb vid prediction = Some preds /\
           rels = filter (fun r : pred_relation => triplet_in (triplet r) zs)
                         preds) /\
      (forall t, In t (get_triplets ds "train") ->
         ~ In t (triplets_of_gt groundtruth) /\
         ~ In t (triplets_of_pred zs_prediction)) /\
      (forall t, In t (triplets_of_gt groundtruth)
                 \/ In t (triplets_of_pred zs_prediction) ->
         In t (get_triplets ds split))
  | Raise e => e = KeyError
  end /\
  ((forall vid, In vid (get_index ds split) ->
      lookup String.eqb vid prediction <> None) ->
   exists inputs, zero_shot_inputs ds split prediction = Ok inputs).
Proof.
  split.
  - assert (H : zs_inv ds zs prediction (zero_shot_inputs ds split prediction)).
    { apply zs_fold_inv. simpl. split; intros ? ? []. }
    destruct (zero_shot_inputs ds split prediction) as [[g z]|e]; [|exact H].
    destruct H as [Hg Hz]. split; [exact Hg|]. split; [exact Hz|].
    assert (Hgt : forall t, In t (triplets_of_gt g) -> In t zs).
    { intros t Ht. unfold triplets_of_gt, values in Ht.
      apply in_flat_map in Ht. destruct Ht as (rels & Hin & Ht).
      apply in_map_iff in Hin. destruct Hin as ([vid rels'] & <- & Hin).
      simpl in Ht. rewrite (Hg _ _ Hin) in Ht.
      apply in_map_iff in Ht. destruct Ht as (r & <- & Hr).
      apply filter_In in Hr. now apply triplet_in_In. }
    assert (Hpr : forall t, In t (triplets_of_pred z) -> In t zs).
    { intros t Ht. unfold triplets_of_pred, values in Ht.
      apply in_flat_map in Ht. destruct Ht as (rels & Hin & Ht).
      apply in_map_iff in Hin. destruct Hin as ([vid rels'] & <- & Hin).
      simpl in Ht. destruct (Hz _ _ Hin) as (preds & _ & ->).
      apply in_map_iff in Ht. destruct Ht as (r & <- & Hr).
      apply filter_In in Hr. now apply triplet_in_In. }
    split.
    + intros t Ht. split; intros Hin;
        [apply Hgt in Hin | apply Hpr in Hin];
        apply zeroshot_triplets_spec in Hin; tauto.
    + intros t [Hin|Hin]; [apply Hgt in Hin | apply Hpr in Hin];
        apply zeroshot_triplets_spec in Hin; tauto.
  - intros H. apply zs_fold_total. exact H.
Qed.

End ZeroShot.

(** ** Dictionaries and pooled lists *)

Lemma lookup_dict_set_nat {V} (d : ndict V) k v k' :
  lookup Nat.eqb k' (dict_set Nat.eqb d k v)
  = if (k' =? k)%nat then Some v else lookup Nat.eqb k' d.
Proof.
  induction d as [|[k0 v0] d IH]; simpl.
  - destruct (k' =? k)%nat; reflexivity.
  - destruct (k =? k0)%nat eqn:E; simpl.
    + apply Nat.eqb_eq in E. subst k0.
      destruct (k' =? k)%nat; reflexivity.
    + destruct (k' =? k0)%nat eqn:E'.
      * apply Nat.eqb_eq in E'. subst k0.
        rewrite Nat.eqb_sym, E. reflexivity.
      * exact IH.
Qed.

Lemma dd_get_append {V} (d : ndict (list V)) k x k' :
  dd_get (dd_append d k x) k'
  = if (k' =? k)%nat then dd_get d k ++ [x] else dd_get d k'.
Proof.
  unfold dd_append, dd_get at 1. rewrite lookup_dict_set_nat.
  destruct (k' =? k)%nat; reflexivity.
Qed.

(** Appending [F nre] to the list of each [nre] of [l]. *)
Lemma dd_get_fold {V} (F : nat -> V) (l : list nat) : forall d N,
  dd_get (fold_left (fun acc nre => dd_append acc nre (F nre)) l d) N
  = dd_get d N ++ map F (filter (Nat.eqb N) l).
Proof.
  induction l as [|nre l IH]; intros d N; simpl.
  - now rewrite app_nil_r.
  - rewrite IH, dd_get_append. destruct (N =? nre)%nat eqn:E.
    + apply Nat.eqb_eq in E. subst nre. simpl. now rewrite <- app_assoc.
    + reflexivity.
Qed.

Lemma fold_pair {A B C} (f : A -> C -> A) (g : B -> C -> B) (l : list C) :
  forall a b,
  fold_left (fun (acc : A * B) c => (f (fst acc) c, g (snd acc) c)) l (a, b)
  = (fold_left f l a, fold_left g l b).
Proof. induction l; intros; simpl; auto. Qed.

Lemma dict_set_fresh {V} (d : sdict V) k v :
  ~ In k (keys d) -> dict_set String.eqb d k v = d ++ [(k, v)].
Proof.
  induction d as [|[k' v'] d IH]; simpl; intros H; [reflexivity|].
  destruct (String.eqb k k') eqn:E.
  - apply String.eqb_eq in E. subst. tauto.
  - rewrite IH; tauto.
Qed.

Lemma lookup_In {V} (d : sdict V) k v :
  lookup String.eqb k d = Some v -> In (k, v) d.
Proof.
  induction d as [|[k' v'] d IH]; simpl; [discriminate|].
  destruct (String.eqb k k') eqn:E.
  - apply String.eqb_eq in E. intros [= ->]. subst. auto.
  - auto.
Qed.

Lemma map_nth_seq {A} (a : list A) (d : A) :
  map (fun i => nth i a d) (seq 0 (length a)) = a.
Proof.
  induction a as [|x a IH]; simpl; [reflexivity|].
  f_equal. rewrite <- seq_shift, map_map. exact IH.
Qed.

Lemma take_nth {A} (a : list A) (d : A) (indices : list nat) :
  Forall (fun i => (i < length a)%nat) indices ->
  take a indices = Ok (map (fun i => nth i a d) indices).
Proof.
  induction 1 as [|i l Hi _ IH]; simpl; [reflexivity|].
  destruct (nth_error a i) as [x|] eqn:E.
  - rewrite IH. simpl. f_equal. f_equal.
    symmetry. now apply nth_error_nth.
  - apply nth_error_None in E. lia.
Qed.

(** [a[indices]] for a permutation of the indices of [a] is a permutation
    of [a]. *)
Lemma take_perm {A} (a : list A) (indices : list nat) :
  Permutation indices (seq 0 (length a)) ->
  exists a', take a indices = Ok a' /\ Permutation a' a.
Proof.
  intros H. destruct a as [|d a0] eqn:Ea.
  - simpl in H. apply Permutation_sym, Permutation_nil in H. subst.
    exists []. split; auto.
  - rewrite <- Ea in *. exists (map (fun i => nth i a d) indices). split.
    + apply take_nth. rewrite Forall_forall. intros i Hi.
      apply (Permutation_in _ H) in Hi. apply in_seq in Hi. lia.
    + eapply perm_trans; [apply Permutation_map; exact H|].
      rewrite map_nth_seq. reflexivity.
Qed.

Lemma argsort_perm scores :
  Permutation (rev (argsort scores)) (seq 0 (length scores)).
Proof.
  rewrite <- Permutation_rev. apply stable_sort_perm.
Qed.

Lemma last_item_last {A} (l : list A) (d : A) :
  l <> [] -> last_item l = Ok (last l d).
Proof.
  intros H. destruct (exists_last H) as (l' & x & ->).
  unfold last_item. rewrite rev_app_distr, last_last. reflexivity.
Qed.

Lemma last_item_nil {A} : @last_item A [] = Raise IndexError.
Proof. reflexivity. Qed.

Lemma last_map {A B} (f : A -> B) (l : list A) d d' :
  l <> [] -> last (map f l) d' = f (last l d).
Proof.
  intros H. destruct (exists_last H) as (l' & x & ->).
  rewrite map_app. simpl map. now rewrite !last_last.
Qed.

(** [rec[-1]] of a pooled list: the number of hits over the total. *)
Lemma recall_at_pooled (pool : list (list efloat)) (tot : nat) :
  recall_at pool (map (map isfinite) pool) tot
  = match pool with
    | [] => Raise ValueError
    | _ =>
        match concat pool with
        | [] => Raise IndexError
        | _ => Ok (Qnat (count_true (map isfinite (concat pool)))
                   / Qmax (Qnat tot) eps)
        end
    end.
Proof.
  destruct pool as [|s pool]; [reflexivity|].
  unfold recall_at. set (P := s :: pool).
  assert (Hc : np_concatenate P = Ok (concat P)) by reflexivity.
  assert (Hc' : np_concatenate (map (map isfinite) P)
                = Ok (map isfinite (concat P))).
  { unfold P. simpl. now rewrite map_app, concat_map. }
  rewrite Hc, Hc'. cbn [bind].
  set (tps := map isfinite (concat P)).
  destruct (take_perm tps (indices := rev (argsort (concat P)))) as (tps' & Ht & Hp).
  { unfold tps. rewrite length_map. apply argsort_perm. }
  fold tps. rewrite Ht. cbn [bind].
  destruct (concat P) as [|x xs] eqn:E.
  - unfold tps in Hp. simpl in Hp. apply Permutation_sym, Permutation_nil in Hp.
    subst. reflexivity.
  - assert (Hne : tps' <> []).
    { intros ->. apply Permutation_nil in Hp.
      unfold tps in Hp. discriminate. }
    assert (Hcs : cumsum tps' <> []).
    { unfold cumsum. destruct tps'; [congruence | simpl; discriminate]. }
    rewrite (@last_item_last _ _ 0).
    2:{ unfold recall_curve.
        destruct (cumsum tps'); [congruence | simpl; discriminate]. }
    f_equal. unfold recall_curve.
    rewrite (@last_map _ _ _ (cumsum tps') 0%nat 0) by exact Hcs.
    unfold cumsum. rewrite cumsum_from_last by exact Hne.
    rewrite (count_true_perm Hp). reflexivity.
Qed.

Lemma fold_left_ext {A B} (f g : A -> B -> A) (l : list B) :
  (forall a b, f a b = g a b) -> forall a, fold_left f l a = fold_left g l a.
Proof.
  intros H. induction l as [|x l IH]; intros a; simpl; [reflexivity|].
  now rewrite H, IH.
Qed.

Lemma firstn_min_length {A} (l : list A) n :
  firstn (Nat.min n (length l)) l = firstn n l.
Proof.
  destruct (Nat.le_ge_cases n (length l)) as [H|H].
  - now rewrite Nat.min_l.
  - rewrite Nat.min_r by exact H. now rewrite !firstn_all2 by lia.
Qed.

(** ** The aggregators: what the loop over the videos accumulates *)

Section AggregatorLoop.

Variable viou : traj -> duration_t -> traj -> duration_t -> Q.
Variable voc_ap : list Q -> list Q -> Q.
Variable thr : Q.
Variables dets tags : list nat.

Lemma score_video_fields st vid g p :
  let v := {| v_id := vid; v_gt := g; v_pred := p |} in
  let st' := score_video viou voc_ap thr dets tags st vid g p in
  video_ap st' = dict_set String.eqb (video_ap st) vid (video_ap_of viou voc_ap thr v) /\
  tot_scores st'
  = fold_left (fun acc nre => dd_append acc nre (firstn nre (det_scores viou thr v)))
              dets (tot_scores st) /\
  tot_tp st'
  = fold_left (fun acc nre =>
                 dd_append acc nre (map isfinite (firstn nre (det_scores viou thr v))))
              dets (tot_tp st) /\
  prec_at_n st'
  = fold_left (fun acc nre => dd_append acc nre (prec_at nre (tag_prec_of v)))
              tags (prec_at_n st) /\
  tot_relations st' = tot_relations st.
Proof.
  cbv zeta. unfold score_video, det_scores, video_ap_of, tag_prec_of.
  cbn [v_gt v_pred].
  destruct (eval_detection_scores viou g p thr) as [[dp dr] ds].
  destruct (eval_tagging_scores g p) as [[tp tr] ts].
  cbn [fst snd].
  match goal with
  | |- context [fold_left ?f dets (tot_scores st, tot_tp st)] =>
      assert (Hf : fold_left f dets (tot_scores st, tot_tp st)
        = (fold_left (fun acc nre => dd_append acc nre (firstn nre ds))
                     dets (tot_scores st),
           fold_left (fun acc nre => dd_append acc nre (map isfinite (firstn nre ds)))
                     dets (tot_tp st)))
  end.
  { rewrite <- fold_pair. apply fold_left_ext. intros [a b] nre.
    cbn [fst snd]. rewrite firstn_min_length.
    rewrite <- (length_map isfinite ds) at 1.
    rewrite firstn_min_length, firstn_map. reflexivity. }
  rewrite Hf. cbn [video_ap tot_scores tot_tp prec_at_n tot_relations].
  repeat split.
  apply fold_left_ext. intros a nre. unfold prec_at.
  destruct (0 <? Nat.min nre (length tp))%nat; reflexivity.
Qed.

Variable cnt : video -> nat.

Lemma fold_score_fields vs : forall st,
  let st' := fold_left (score_one viou voc_ap thr dets tags cnt) vs st in
  video_ap st' = ap_dict viou voc_ap thr vs (video_ap st) /\
  (forall N, dd_get (tot_scores st') N
     = dd_get (tot_scores st) N
       ++ flat_map (fun v => map (fun nre => firstn nre (det_scores viou thr v))
                                 (filter (Nat.eqb N) dets)) vs) /\
  (forall N, dd_get (tot_tp st') N
     = dd_get (tot_tp st) N
       ++ flat_map (fun v => map (fun nre => map isfinite (firstn nre (det_scores viou thr v)))
                                 (filter (Nat.eqb N) dets)) vs) /\
  (forall N, dd_get (prec_at_n st') N
     = dd_get (prec_at_n st) N
       ++ flat_map (fun v => map (fun nre => prec_at nre (tag_prec_of v))
                                 (filter (Nat.eqb N) tags)) vs) /\
  tot_relations st' = (tot_relations st + list_sum (map cnt vs))%nat.
Proof.
  induction vs as [|v vs IH]; intros st; cbv zeta.
  - simpl. repeat split; intros; try now rewrite app_nil_r. lia.
  - cbn [fold_left].
    specialize (IH (score_one viou voc_ap thr dets tags cnt st v)).
    cbv zeta in IH.
    destruct IH as (H1 & H2 & H3 & H4 & H5).
    destruct (score_video_fields (count_relations st (cnt v))
                (v_id v) (v_gt v) (v_pred v)) as (F1 & F2 & F3 & F4 & F5).
    fold (score_one viou voc_ap thr dets tags cnt st v) in F1, F2, F3, F4, F5.
    replace {| v_id := v_id v; v_gt := v_gt v; v_pred := v_pred v |}
      with v in * by (now destruct v).
    cbn [count_relations video_ap tot_scores tot_tp prec_at_n tot_relations]
      in F1, F2, F3, F4, F5.
    split; [rewrite H1, F1; reflexivity|].
    split; [intros N; rewrite H2, F2, dd_get_fold, <- app_assoc; reflexivity|].
    split; [intros N; rewrite H3, F3, dd_get_fold, <- app_assoc; reflexivity|].
    split; [intros N; rewrite H4, F4, dd_get_fold, <- app_assoc; reflexivity|].
    rewrite H5, F5. simpl. lia.
Qed.

End AggregatorLoop.

(** ** The aggregators: the videos a call evaluates *)

Lemma length_zero_nil {A} (l : list A) : (length l =? 0)%nat = true <-> l = [].
Proof. rewrite Nat.eqb_eq. apply length_zero_iff_nil. Qed.

Lemma resolve_gt_ok gt pred :
  resolvable true gt pred ->
  resolve_gt gt pred = Ok (evaluated_videos true gt pred).
Proof.
  unfold resolvable, evaluated_videos.
  induction gt as [|[vid rels] gt IH]; intros H; simpl; [reflexivity|].
  unfold nonempty at 1. cbn [snd].
  destruct (length rels =? 0)%nat eqn:E; simpl.
  - apply IH. intros v r Hin. apply H. simpl; auto.
  - unfold getitem, lookup_list.
    destruct (lookup String.eqb vid pred) eqn:El.
    + cbn [bind]. rewrite IH; [reflexivity|].
      intros v r Hin. apply H. simpl; auto.
    + exfalso. apply (H vid rels); simpl; auto.
      intros ->. discriminate.
Qed.

Lemma resolve_pred_ok gt pred :
  resolvable false gt pred ->
  resolve_pred gt pred = Ok (evaluated_videos false gt pred).
Proof.
  unfold resolvable, evaluated_videos.
  induction pred as [|[vid preds] pred IH]; intros H; simpl; [reflexivity|].
  unfold nonempty at 1. cbn [snd].
  destruct (length preds =? 0)%nat eqn:E; simpl.
  - apply IH. intros v r Hin. apply H. simpl; auto.
  - unfold getitem, lookup_list.
    destruct (lookup String.eqb vid gt) eqn:El.
    + cbn [bind]. rewrite IH; [reflexivity|].
      intros v r Hin. apply H. simpl; auto.
    + exfalso. apply (H vid preds); simpl; auto.
      intros ->. discriminate.
Qed.

Lemma resolve_gt_missing gt pred vid rels :
  In (vid, rels) gt -> rels <> [] -> lookup String.eqb vid pred = None ->
  resolve_gt gt pred = Raise KeyError.
Proof.
  intros Hin Hne Hl. induction gt as [|[v r] gt IH]; [destruct Hin|].
  simpl. destruct (length r =? 0)%nat eqn:E.
  - destruct Hin as [H|H]; [|auto].
    inversion H; subst. apply length_zero_nil in E. contradiction.
  - unfold getitem. destruct (lookup String.eqb v pred) eqn:El.
    + cbn [bind]. destruct Hin as [H|H].
      * inversion H; subst. congruence.
      * rewrite (IH H). reflexivity.
    + reflexivity.
Qed.

Lemma resolve_pred_missing gt pred vid preds :
  In (vid, preds) pred -> preds <> [] -> lookup String.eqb vid gt = None ->
  resolve_pred gt pred = Raise KeyError.
Proof.
  intros Hin Hne Hl. induction pred as [|[v r] pred IH]; [destruct Hin|].
  simpl. destruct (length r =? 0)%nat eqn:E.
  - destruct Hin as [H|H]; [|auto].
    inversion H; subst. apply length_zero_nil in E. contradiction.
  - unfold getitem. destruct (lookup String.eqb v gt) eqn:El.
    + cbn [bind]. destruct Hin as [H|H].
      * inversion H; subst. congruence.
      * rewrite (IH H). reflexivity.
    + reflexivity.
Qed.

(** A call that gets through its lookups has scored [evaluated_videos]. *)
Lemma resolve_cases b gt pred :
  (resolvable b gt pred /\ resolve b gt pred = Ok (evaluated_videos b gt pred)) \/
  (~ resolvable b gt pred /\ resolve b gt pred = Raise KeyError).
Proof.
  destruct b; unfold resolve.
  - assert (D : resolvable true gt pred \/
                exists vid rels, In (vid, rels) gt /\ rels <> [] /\
                  lookup String.eqb vid pred = None).
    { unfold resolvable. induction gt as [|[v r] gt IH]; [left; intros ? ? []|].
      destruct IH as [IH|(v' & r' & H1 & H2 & H3)].
      - destruct r as [|x r].
        + left. intros vid rels [H|H]; [inversion H; subst; congruence | eauto].
        + destruct (lookup String.eqb v pred) eqn:E.
          * left. intros vid rels [H|H]; [inversion H; subst; congruence | eauto].
          * right. exists v, (x :: r). simpl. repeat split; auto. discriminate.
      - right. exists v', r'. simpl. auto. }
    destruct D as [D|(v & r & H1 & H2 & H3)].
    + left. split; [exact D | now apply resolve_gt_ok].
    + right. split; [|eapply resolve_gt_missing; eauto].
      intros H. exact (H v r H1 H2 H3).
  - assert (D : resolvable false gt pred \/
                exists vid preds, In (vid, preds) pred /\ preds <> [] /\
                  lookup String.eqb vid gt = None).
    { unfold resolvable. induction pred as [|[v r] pred IH]; [left; intros ? ? []|].
      destruct IH as [IH|(v' & r' & H1 & H2 & H3)].
      - destruct r as [|x r].
        + left. intros vid rels [H|H]; [inversion H; subst; congruence | eauto].
        + destruct (lookup String.eqb v gt) eqn:E.
          * left. intros vid rels [H|H]; [inversion H; subst; congruence | eauto].
          * right. exists v, (x :: r). simpl. repeat split; auto. discriminate.
      - right. exists v', r'. simpl. auto. }
    destruct D as [D|(v & r & H1 & H2 & H3)].
    + left. split; [exact D | now apply resolve_pred_ok].
    + right. split; [|eapply resolve_pred_missing; eauto].
      intros H. exact (H v r H1 H2 H3).
Qed.

Lemma flat_map_single {A B} (f : A -> B) (l : list A) :
  flat_map (fun x => [f x]) l = map f l.
Proof. induction l; simpl; congruence. Qed.

Lemma NoDup_keys_filter {K V} (f : K * V -> bool) (d : list (K * V)) :
  NoDup (keys d) -> NoDup (keys (filter f d)).
Proof.
  unfold keys. induction d as [|kv d IH]; simpl; intros H; [constructor|].
  inversion H as [|? ? Hn Hd]; subst.
  destruct (f kv); simpl; auto.
  constructor; auto. intros Hin. apply Hn.
  apply in_map_iff in Hin. destruct Hin as (x & <- & Hx).
  apply filter_In in Hx. apply in_map. tauto.
Qed.

(** ** The aggregators: the result of [evaluate] *)

Section AggregatorResult.

Variable viou : traj -> duration_t -> traj -> duration_t -> Q.
Variable voc_ap : list Q -> list Q -> Q.
Variable thr : Q.

Let dets := default_det_nreturns.
Let tags := default_tag_nreturns.

Lemma gt_loop_raise pred l e :
  fold_left (gt_step viou voc_ap thr dets tags pred) l (Raise e) = Raise e.
Proof. induction l; simpl; auto. Qed.

Lemma pred_loop_raise gt l e :
  fold_left (pred_step viou voc_ap thr dets tags gt) l (Raise e) = Raise e.
Proof. induction l; simpl; auto. Qed.

Lemma gt_loop_resolve pred gt : forall st,
  fold_left (gt_step viou voc_ap thr dets tags pred) gt (Ok st)
  = vs <- resolve_gt gt pred ;;
    Ok (fold_left (score_one viou voc_ap thr dets tags (counted true)) vs st).
Proof.
  induction gt as [|[vid rels] gt IH]; intros st; [reflexivity|].
  cbn [fold_left resolve_gt]. unfold gt_step at 2. cbn [bind].
  destruct (length rels =? 0)%nat; [apply IH|].
  unfold getitem. destruct (lookup String.eqb vid pred) as [preds|]; cbn [bind].
  - rewrite IH. destruct (resolve_gt gt pred); reflexivity.
  - apply gt_loop_raise.
Qed.

Lemma pred_loop_resolve gt pred : forall st,
  fold_left (pred_step viou voc_ap thr dets tags gt) pred (Ok st)
  = vs <- resolve_pred gt pred ;;
    Ok (fold_left (score_one viou voc_ap thr dets tags (counted false)) vs st).
Proof.
  induction pred as [|[vid preds] pred IH]; intros st; [reflexivity|].
  cbn [fold_left resolve_pred]. unfold pred_step at 2. cbn [bind].
  destruct (length preds =? 0)%nat; [apply IH|].
  unfold getitem. destruct (lookup String.eqb vid gt) as [rels|]; cbn [bind].
  - rewrite IH. destruct (resolve_pred gt pred); reflexivity.
  - apply pred_loop_raise.
Qed.

Lemma evaluate_resolve b gt pred :
  evaluate viou voc_ap thr dets tags gt pred b
  = vs <- resolve b gt pred ;;
    finish dets tags
      (fold_left (score_one viou voc_ap thr dets tags (counted b)) vs accum_init).
Proof.
  unfold evaluate, resolve, gt_loop, pred_loop. destruct b.
  - rewrite gt_loop_resolve. destruct (resolve_gt gt pred); reflexivity.
  - rewrite pred_loop_resolve. destruct (resolve_pred gt pred); reflexivity.
Qed.

Lemma finish_defaults st :
  finish dets tags st
  = r50 <- recall_at (dd_get (tot_scores st) 50) (dd_get (tot_tp st) 50)
                     (tot_relations st) ;;
    r100 <- recall_at (dd_get (tot_scores st) 100) (dd_get (tot_tp st) 100)
                      (tot_relations st) ;;
    Ok {| mean_ap := np_mean (values (video_ap st));
          rec_at_n := [(50%nat, r50); (100%nat, r100)];
          mprec_at_n := [(1%nat, np_mean (dd_get (prec_at_n st) 1));
                         (5%nat, np_mean (dd_get (prec_at_n st) 5));
                         (10%nat, np_mean (dd_get (prec_at_n st) 10))] |}.
Proof.
  unfold finish, dets, tags, default_det_nreturns, default_tag_nreturns.
  cbn [fold_left bind].
  destruct (recall_at (dd_get (tot_scores st) 50) _ _); [|reflexivity].
  cbn [bind].
  destruct (recall_at (dd_get (tot_scores st) 100) _ _); reflexivity.
Qed.

Lemma hits_top_pool N vs :
  count_true (map isfinite (concat (pool viou thr N vs))) = hits_top viou thr N vs.
Proof.
  unfold pool, hits_top. induction vs as [|v vs IH]; [reflexivity|].
  simpl. now rewrite map_app, count_true_app, IH.
Qed.

Lemma finish_scored b vs :
  finish dets tags
    (fold_left (score_one viou voc_ap thr dets tags (counted b)) vs accum_init)
  = match vs with
    | [] => Raise ValueError
    | _ =>
        r50 <- pooled_recall viou thr b 50 vs ;;
        r100 <- pooled_recall viou thr b 100 vs ;;
        Ok {| mean_ap := np_mean (values (ap_dict viou voc_ap thr vs []));
              rec_at_n := [(50%nat, r50); (100%nat, r100)];
              mprec_at_n :=
                [(1%nat, np_mean (map (fun v => prec_at 1 (tag_prec_of v)) vs));
                 (5%nat, np_mean (map (fun v => prec_at 5 (tag_prec_of v)) vs));
                 (10%nat, np_mean (map (fun v => prec_at 10 (tag_prec_of v)) vs))] |}
    end.
Proof.
  rewrite finish_defaults.
  destruct (fold_score_fields viou voc_ap thr dets tags (counted b) vs accum_init)
    as (H1 & H2 & H3 & H4 & H5).
  set (st := fold_left _ vs accum_init) in *.
  assert (Hs : forall N, In N dets -> dd_get (tot_scores st) N = pool viou thr N vs).
  { intros N HN. rewrite H2. simpl dd_get. simpl app.
    destruct HN as [<-|[<-|[]]]; simpl filter; simpl map;
      apply flat_map_single. }
  assert (Ht : forall N, In N dets ->
            dd_get (tot_tp st) N = map (map isfinite) (pool viou thr N vs)).
  { intros N HN. rewrite H3. simpl dd_get. simpl app. unfold pool.
    rewrite map_map.
    destruct HN as [<-|[<-|[]]]; simpl filter; simpl map;
      apply flat_map_single. }
  assert (Hp : forall N, In N tags ->
            dd_get (prec_at_n st) N = map (fun v => prec_at N (tag_prec_of v)) vs).
  { intros N HN. rewrite H4. simpl dd_get. simpl app.
    destruct HN as [<-|[<-|[<-|[]]]]; simpl filter; simpl map;
      apply flat_map_single. }
  rewrite !Hs, !Ht, !Hp by (unfold dets, tags; simpl; auto 6).
  rewrite !recall_at_pooled, H1, H5. simpl tot_relations. simpl video_ap.
  destruct vs as [|v vs']; [reflexivity|].
  set (vs := v :: vs') in *.
  unfold pooled_recall, total. rewrite !hits_top_pool.
  reflexivity.
Qed.

End AggregatorResult.

Section AggregatorClaims.

Variable viou : traj -> duration_t -> traj -> duration_t -> Q.
Variable voc_ap : list Q -> list Q -> Q.
Variable thr : Q.

Let dets := default_det_nreturns.
Let tags := default_tag_nreturns.

Lemma det_scores_length v :
  length (det_scores viou thr v) = length (v_pred v).
Proof.
  unfold det_scores. rewrite eval_detection_scores_eq. cbn [snd].
  rewrite match_loop_run, match_run_length.
  apply stable_sort_length.
Qed.

Lemma pool_nonempty N vs :
  (1 <= N)%nat ->
  (exists v, In v vs /\ v_pred v <> []) ->
  concat (pool viou thr N vs) <> [].
Proof.
  intros HN (v & Hin & Hne) Hc.
  assert (Hall := proj1 (concat_nil_Forall _) Hc).
  rewrite Forall_forall in Hall.
  specialize (Hall (firstn N (det_scores viou thr v))).
  assert (Hl : length (firstn N (det_scores viou thr v)) = 0%nat).
  { rewrite Hall; [reflexivity|]. unfold pool.
    apply (in_map (fun v => firstn N (det_scores viou thr v))). exact Hin. }
  rewrite length_firstn, det_scores_length in Hl.
  destruct (v_pred v); [congruence | simpl in Hl; lia].
Qed.

Lemma pool_nonempty_inv N vs :
  concat (pool viou thr N vs) <> [] ->
  exists v, In v vs /\ v_pred v <> [].
Proof.
  induction vs as [|v vs IH]; simpl; [congruence|].
  intros H. destruct (v_pred v) eqn:E.
  - assert (Hd : det_scores viou thr v = []).
    { apply length_zero_iff_nil. now rewrite det_scores_length, E. }
    rewrite Hd, firstn_nil in H. simpl in H.
    destruct (IH H) as (w & Hw & Hne). exists w. auto.
  - exists v. split; [auto | congruence].
Qed.

(** [evaluate] returns exactly when every scored video has an entry in
    the other mapping and some scored video has a prediction. *)
Lemma evaluate_returns b gt pred :
  resolvable b gt pred ->
  (exists v, In v (evaluated_videos b gt pred) /\ v_pred v <> []) ->
  evaluate viou voc_ap thr dets tags gt pred b
  = Ok (scores_of viou voc_ap thr b (evaluated_videos b gt pred)).
Proof.
  intros Hr Hex. rewrite evaluate_resolve.
  destruct (resolve_cases b gt pred) as [[_ ->]|[Hn _]]; [|contradiction].
  cbn [bind]. rewrite finish_scored.
  destruct (evaluated_videos b gt pred) as [|v vs] eqn:E.
  - destruct Hex as (v & [] & _).
  - unfold pooled_recall.
    assert (H50 := @pool_nonempty 50 (v :: vs) ltac:(lia) Hex).
    assert (H100 := @pool_nonempty 100 (v :: vs) ltac:(lia) Hex).
    destruct (concat (pool viou thr 50 (v :: vs))); [congruence|].
    destruct (concat (pool viou thr 100 (v :: vs))); [congruence|].
    reflexivity.
Qed.

Lemma evaluate_returns_inv b gt pred r :
  evaluate viou voc_ap thr dets tags gt pred b = Ok r ->
  resolvable b gt pred /\
  (exists v, In v (evaluated_videos b gt pred) /\ v_pred v <> []) /\
  r = scores_of viou voc_ap thr b (evaluated_videos b gt pred).
Proof.
  intros H.
  assert (Hr : resolvable b gt pred).
  { rewrite evaluate_resolve in H.
    destruct (resolve_cases b gt pred) as [[Hr _]|[_ E]]; [exact Hr|].
    rewrite E in H. discriminate. }
  assert (Hex : exists v, In v (evaluated_videos b gt pred) /\ v_pred v <> []).
  { rewrite evaluate_resolve in H.
    destruct (resolve_cases b gt pred) as [[_ E]|[Hn _]]; [|contradiction].
    rewrite E in H. cbn [bind] in H. rewrite finish_scored in H.
    destruct (evaluated_videos b gt pred) as [|v vs]; [discriminate|].
    unfold pooled_recall in H.
    apply (@pool_nonempty_inv 50). intros Hc. rewrite Hc in H. discriminate. }
  split; [exact Hr|]. split; [exact Hex|].
  rewrite (@evaluate_returns b gt pred Hr Hex) in H. congruence.
Qed.

Lemma evaluate_raises_KeyError b gt pred :
  ~ resolvable b gt pred ->
  evaluate viou voc_ap thr dets tags gt pred b = Raise KeyError.
Proof.
  intros Hn. rewrite evaluate_resolve.
  destruct (resolve_cases b gt pred) as [[Hr _]|[_ ->]]; [contradiction|].
  reflexivity.
Qed.

Lemma ap_dict_fresh vs : forall d,
  NoDup (keys d ++ map v_id vs) ->
  ap_dict viou voc_ap thr vs d
  = d ++ map (fun v => (v_id v, video_ap_of viou voc_ap thr v)) vs.
Proof.
  induction vs as [|v vs IH]; intros d H; simpl.
  - now rewrite app_nil_r.
  - unfold ap_dict in *. simpl.
    assert (Hv : ~ In (v_id v) (keys d)).
    { intros Hin. apply NoDup_remove_2 in H. apply H.
      apply in_or_app. auto. }
    rewrite dict_set_fresh by exact Hv. rewrite IH.
    + now rewrite <- app_assoc.
    + unfold keys in *. rewrite map_app. simpl. rewrite <- app_assoc. exact H.
Qed.

Lemma evaluated_ids gt pred :
  map v_id (evaluated_videos true gt pred) = keys (filter nonempty gt).
Proof.
  unfold evaluated_videos, keys. rewrite map_map. reflexivity.
Qed.

Lemma values_ap_dict gt pred :
  NoDup (keys gt) ->
  values (ap_dict viou voc_ap thr (evaluated_videos true gt pred) [])
  = map (video_ap_of viou voc_ap thr) (evaluated_videos true gt pred).
Proof.
  intros H. rewrite ap_dict_fresh.
  - unfold values. simpl. now rewrite map_map.
  - change (NoDup (map v_id (evaluated_videos true gt pred))).
    rewrite evaluated_ids. now apply NoDup_keys_filter.
Qed.

End AggregatorClaims.

Lemma list_sum_In {A} (f : A -> nat) (l : list A) x :
  In x l -> (f x <= list_sum (map f l))%nat.
Proof.
  induction l as [|y l IH]; simpl; [tauto|].
  intros [->|H]; [lia | specialize (IH H); lia].
Qed.

Lemma Qmax_eps_nat (n : nat) : (1 <= n)%nat -> Qmax (Qnat n) eps == Qnat n.
Proof.
  intros H. apply Q.max_l.
  apply Qle_trans with (Qnat 1); [discriminate | now apply Qnat_le].
Qed.

Lemma curves_length hs n :
  length (fst (curves hs n)) = length hs /\ length (snd (curves hs n)) = length hs.
Proof.
  unfold curves, precision_curve, recall_curve, cumsum. cbn [fst snd].
  rewrite !length_map, length_combine, !cumsum_from_length, !length_map.
  lia.
Qed.

(** The value of [prec_at] by cases, for a rank [nre >= 1]. *)
Lemma prec_at_cases (nre : nat) (tag_prec : list Q) :
  (1 <= nre)%nat ->
  (tag_prec = [] -> prec_at nre tag_prec = 0) /\
  ((nre <= length tag_prec)%nat ->
     prec_at nre tag_prec = nth (nre - 1) tag_prec 0) /\
  ((0 < length tag_prec < nre)%nat ->
     prec_at nre tag_prec = nth (length tag_prec - 1) tag_prec 0).
Proof.
  intros H. unfold prec_at. repeat split.
  - intros ->. simpl. now rewrite Nat.min_0_r.
  - intros Hle. rewrite Nat.min_l by exact Hle.
    destruct (Nat.ltb_spec 0 nre); [reflexivity | lia].
  - intros Hlt. rewrite Nat.min_r by lia.
    destruct (Nat.ltb_spec 0 (length tag_prec)); [reflexivity | lia].
Qed.

Section EvaluateClaims.

Variable viou : traj -> duration_t -> traj -> duration_t -> Q.
Variable voc_ap : list Q -> list Q -> Q.
Variable thr : Q.

Lemma evaluated_gt_nonempty gt pred v :
  In v (evaluated_videos true gt pred) -> (1 <= length (v_gt v))%nat.
Proof.
  unfold evaluated_videos. rewrite in_map_iff.
  intros ([vid rels] & <- & H). apply filter_In in H.
  destruct H as [_ H]. unfold nonempty in H. cbn [snd v_gt] in *.
  destruct rels; [discriminate | simpl; lia].
Qed.

Lemma hits_top_no_prediction N vs :
  (forall v, In v vs -> v_pred v = []) -> hits_top viou thr N vs = 0%nat.
Proof.
  induction vs as [|v vs IH]; intros H; [reflexivity|].
  change (hits_top viou thr N (v :: vs))
    with (count_true (map isfinite (firstn N (det_scores viou thr v)))
          + hits_top viou thr N vs)%nat.
  rewrite IH by (intros w Hw; apply H; right; exact Hw).
  assert (Hd : det_scores viou thr v = []).
  { apply length_zero_iff_nil. rewrite det_scores_length.
    rewrite (H v) by (left; reflexivity). reflexivity. }
  rewrite Hd, firstn_nil. reflexivity.
Qed.

(** When every scored video has an empty prediction list, the pooled
    arrays are empty and [rec[-1]] fails. *)
Lemma evaluate_raises_IndexError b gt pred :
  resolvable b gt pred ->
  evaluated_videos b gt pred <> [] ->
  (forall v, In v (evaluated_videos b gt pred) -> v_pred v = []) ->
  evaluate viou voc_ap thr default_det_nreturns default_tag_nreturns gt pred b
  = Raise IndexError.
Proof.
  intros Hr Hne Hempty. rewrite evaluate_resolve.
  destruct (resolve_cases b gt pred) as [[_ ->]|[Hn _]]; [|contradiction].
  cbn [bind]. rewrite finish_scored.
  destruct (evaluated_videos b gt pred) as [|v vs]; [congruence|].
  unfold pooled_recall.
  destruct (concat (pool viou thr 50 (v :: vs))) eqn:Ec; [reflexivity|].
  exfalso.
  assert (Hc : concat (pool viou thr 50 (v :: vs)) <> []) by congruence.
  apply pool_nonempty_inv in Hc. destruct Hc as (w & Hw & Hne').
  apply Hne'. apply Hempty. exact Hw.
Qed.

(** C2.  [evaluate] with [base_on_gt=True], on a ground truth in which some
    video has a relation and every video with a relation has an entry in
    the predictions.  The value the specification gives for [rec_at_n[N]]
    is the number of hits among the top [N] ranked predictions of each
    evaluated video, added over the evaluated videos (pooling and sorting
    them again by score does not change that number), divided by the
    number of ground-truth relations of these videos, which is at least 1.

    When some evaluated video has a prediction, the call returns and
    [rec_at_n[50]] and [rec_at_n[100]] are that value; on the two videos
    of [Runs.gt_two], one ground-truth relation each, a hit for A and a
    miss for B, [rec_at_n[50]] is 0.5.

    When every evaluated video has an empty prediction list, that value
    is 0, no hit over at least one relation, but the call returns
    nothing: the pooled arrays are empty and [rec[-1]] raises
    [IndexError].  So it is on one video with one ground-truth relation
    and the prediction list [[]]. *)
Theorem evaluate_recall_at_n
    (groundtruth : sdict (list relation))
    (prediction : sdict (list pred_relation)) :
  resolvable true groundtruth prediction ->
  (exists vid rels, In (vid, rels) groundtruth /\ rels <> []) ->
  let vs := evaluated_videos true groundtruth prediction in
  let specified N := Qnat (hits_top viou thr N vs) / Qnat (total true vs) in
  (1 <= total true vs)%nat /\
  ((exists v, In v vs /\ v_pred v <> []) ->
   exists r,
     evaluate viou voc_ap thr default_det_nreturns default_tag_nreturns
              groundtruth prediction true = Ok r /\
     forall N, In N default_det_nreturns ->
       exists q, lookup Nat.eqb N (rec_at_n r) = Some q /\ q == specified N) /\
  ((forall v, In v vs -> v_pred v = []) ->
   (forall N, specified N == 0) /\
   evaluate viou voc_ap thr default_det_nreturns default_tag_nreturns
            groundtruth prediction true = Raise IndexError) /\
  rec_is (Runs.evaluate Runs.gt_two Runs.pred_two true) 50 (1 # 2) = true /\
  Runs.evaluate Runs.gt_one [("A"%string, [])] true = Raise IndexError.
Proof.
  intros Hr (vid & rels & Hin & Hne) vs specified.
  assert (Hv : In {| v_id := vid; v_gt := rels;
                     v_pred := lookup_list prediction vid |} vs).
  { unfold vs, evaluated_videos.
    apply (in_map (fun item => {| v_id := fst item; v_gt := snd item;
                                  v_pred := lookup_list prediction (fst item) |})
                  _ (vid, rels)).
    apply filter_In. split; [exact Hin|].
    unfold nonempty. destruct rels; [congruence | reflexivity]. }
  assert (Htot : (1 <= total true vs)%nat).
  { apply Nat.le_trans with (length rels).
    - destruct rels; [congruence | simpl; lia].
    - unfold total. apply (list_sum_In (counted true) _ _ Hv). }
  split; [exact Htot|]. split; [|split; [|split]].
  - intros Hex. exists (scores_of viou voc_ap thr true vs).
    split; [now apply evaluate_returns|].
    intros N [<-|[<-|[]]]; eexists; (split; [reflexivity|]);
      unfold specified; now rewrite (Qmax_eps_nat Htot).
  - intros Hempty. split.
    + intros N. unfold specified.
      rewrite (@hits_top_no_prediction N vs Hempty).
      unfold Qdiv. apply Qmult_0_l.
    + apply evaluate_raises_IndexError; [exact Hr | | exact Hempty].
      intros E. fold vs in E. rewrite E in Hv. destruct Hv.
  - vm_compute. reflexivity.
  - vm_compute. reflexivity.
Qed.

(** C3 (amended).  In [evaluate] with [base_on_gt=True], on a ground truth
    (a dictionary, so without repeated keys) in which at least one video
    has a relation and every video with a relation has an entry in the
    predictions, the loop over the ground truth completes and the
    [mean_ap] computed after it is the arithmetic mean of the [voc_ap]
    values of the videos that have at least one ground-truth relation, one
    value per such video; a video without ground-truth relations adds no
    value.  It is the [mean_ap] returned whenever the call returns. *)
Theorem evaluate_mean_ap
    (groundtruth : sdict (list relation))
    (prediction : sdict (list pred_relation)) :
  NoDup (keys groundtruth) ->
  (exists vid rels, In (vid, rels) groundtruth /\ rels <> []) ->
  resolvable true groundtruth prediction ->
  let aps := map (video_ap_of viou voc_ap thr)
                 (evaluated_videos true groundtruth prediction) in
  length aps = length (filter nonempty groundtruth) /\
  (exists st,
     gt_loop viou voc_ap thr default_det_nreturns default_tag_nreturns
             groundtruth prediction = Ok st /\
     np_mean (values (video_ap st)) = Num (Qsum aps / Qnat (length aps))) /\
  (forall r,
     evaluate viou voc_ap thr default_det_nreturns default_tag_nreturns
              groundtruth prediction true = Ok r ->
     mean_ap r = Num (Qsum aps / Qnat (length aps))).
Proof.
  intros Hnd (vid & rels & Hin & Hne) Hres aps.
  assert (Hlen : length aps = length (filter nonempty groundtruth)).
  { unfold aps, evaluated_videos. now rewrite !length_map. }
  set (vs := evaluated_videos true groundtruth prediction) in *.
  assert (Hmean : np_mean aps = Num (Qsum aps / Qnat (length aps))).
  { destruct aps as [|a aps'] eqn:E; [|reflexivity].
    exfalso. simpl in Hlen.
    assert (Hf : In (vid, rels) (filter nonempty groundtruth)).
    { apply filter_In. split; [exact Hin|].
      unfold nonempty. destruct rels; [congruence | reflexivity]. }
    destruct (filter nonempty groundtruth); [destruct Hf | discriminate]. }
  split; [exact Hlen|]. split.
  - unfold gt_loop. rewrite gt_loop_resolve, (resolve_gt_ok Hres).
    fold vs. cbn [bind]. eexists. split; [reflexivity|].
    destruct (fold_score_fields viou voc_ap thr default_det_nreturns
                default_tag_nreturns (counted true) vs accum_init)
      as (H1 & _).
    rewrite H1. simpl video_ap. unfold vs.
    rewrite values_ap_dict by exact Hnd.
    exact Hmean.
  - intros r Hret. apply evaluate_returns_inv in Hret.
    destruct Hret as (_ & _ & ->). cbn [scores_of mean_ap]. unfold vs.
    rewrite values_ap_dict by exact Hnd. exact Hmean.
Qed.

(** C4 (amended).  When every scored video has an entry in the other
    mapping and one scored video has at least one prediction, [evaluate]
    returns, for [N] in 1, 5, 10, [mprec_at_n[N]] equal to the mean over
    the scored videos of the value [prec_at N] of the video: the tagging
    precision at rank [N] when the video has at least [N] retained
    triplets, the precision at its last rank when it has fewer than [N]
    but at least one, and 0 when it has none. *)
Theorem evaluate_mprec_at_n (base_on_gt : bool)
    (groundtruth : sdict (list relation))
    (prediction : sdict (list pred_relation)) :
  resolvable base_on_gt groundtruth prediction ->
  (exists v, In v (evaluated_videos base_on_gt groundtruth prediction)
             /\ v_pred v <> []) ->
  let vs := evaluated_videos base_on_gt groundtruth prediction in
  exists r,
    evaluate viou voc_ap thr default_det_nreturns default_tag_nreturns
             groundtruth prediction base_on_gt = Ok r /\
    forall N, In N default_tag_nreturns ->
      let ps := map (fun v => prec_at N (tag_prec_of v)) vs in
      lookup Nat.eqb N (mprec_at_n r) = Some (Num (Qsum ps / Qnat (length ps))) /\
      forall v, In v vs ->
        let size := length (retained (sorted_by_score (v_pred v))) in
        length (tag_prec_of v) = size /\
        ((N <= size)%nat ->
           prec_at N (tag_prec_of v) = nth (N - 1) (tag_prec_of v) 0) /\
        ((0 < size < N)%nat ->
           prec_at N (tag_prec_of v) = nth (size - 1) (tag_prec_of v) 0) /\
        (size = 0%nat -> prec_at N (tag_prec_of v) = 0).
Proof.
  intros Hr Hex vs. exists (scores_of viou voc_ap thr base_on_gt vs).
  split; [now apply evaluate_returns|].
  assert (Hne : vs <> []).
  { destruct Hex as (v & Hin & _). intros E. fold vs in Hin.
    rewrite E in Hin. destruct Hin. }
  intros N HN ps. split.
  - assert (Hps : np_mean ps = Num (Qsum ps / Qnat (length ps))).
    { unfold ps. destruct vs; [congruence | reflexivity]. }
    rewrite <- Hps.
    destruct HN as [<-|[<-|[<-|[]]]]; reflexivity.
  - intros v _ size.
    assert (Hsize : length (tag_prec_of v) = size).
    { unfold tag_prec_of. rewrite eval_tagging_scores_eq. cbn [fst].
      destruct (curves_length
        (map (tag_of (triplet_set (map triplet (v_gt v))))
             (retained (sorted_by_score (v_pred v))))
        (length (triplet_set (map triplet (v_gt v))))) as [-> _].
      now rewrite length_map. }
    assert (HN1 : (1 <= N)%nat).
    { destruct HN as [<-|[<-|[<-|[]]]]; lia. }
    destruct (prec_at_cases (tag_prec_of v) HN1) as (C0 & C1 & C2).
    rewrite Hsize in C1, C2.
    split; [exact Hsize|]. split; [exact C1|]. split; [exact C2|].
    intros Hz. apply C0. apply length_zero_iff_nil. congruence.
Qed.

(** C8 (amended).  In [evaluate] with [base_on_gt=True], a video of the
    ground truth that has at least one relation and no entry in the
    predictions makes the lookup [prediction[vid]] fail: the call raises
    [KeyError] and returns nothing. *)
Theorem evaluate_missing_prediction
    (groundtruth : sdict (list relation))
    (prediction : sdict (list pred_relation))
    (vid : string) (rels : list relation) :
  In (vid, rels) groundtruth ->
  rels <> [] ->
  lookup String.eqb vid prediction = None ->
  evaluate viou voc_ap thr default_det_nreturns default_tag_nreturns
           groundtruth prediction true
  = Raise KeyError.
Proof.
  intros Hin Hne Hl. apply evaluate_raises_KeyError.
  intros Hr. exact (Hr vid rels Hin Hne Hl).
Qed.

End EvaluateClaims.

(** ** Runs on the fixtures *)

(** The two videos of [Runs.gt_two] have their entries in [Runs.pred_two],
    and predictions. *)
Lemma resolvable_two : resolvable true Runs.gt_two Runs.pred_two.
Proof.
  intros vid rels [H|[H|[]]] _; inversion H; subst; simpl; discriminate.
Defined.

Lemma has_prediction_two :
  exists v, In v (evaluated_videos true Runs.gt_two Runs.pred_two)
            /\ v_pred v <> [].
Proof.
  eexists. split; [left; reflexivity | simpl; discriminate].
Defined.

Lemma resolvable_no_prediction :
  resolvable true Runs.gt_one [("A"%string, [])].
Proof.
  intros vid rels [H|[]] _. inversion H; subst. simpl. discriminate.
Defined.

Lemma has_relation_one :
  exists vid rels, In (vid, rels) Runs.gt_one /\ rels <> [].
Proof.
  do 2 eexists. split; [left; reflexivity | discriminate].
Defined.

Lemma no_prediction_one :
  forall v, In v (evaluated_videos true Runs.gt_one [("A"%string, [])]) ->
    v_pred v = [].
Proof.
  intros v [<-|[]]. reflexivity.
Defined.

(** One video with one ground-truth relation and an empty prediction
    list: the specified recall is 0 and the call raises [IndexError]. *)
Lemma evaluate_recall_at_n_witness :
  resolvable true Runs.gt_one [("A"%string, [])] /\
  (exists vid rels, In (vid, rels) Runs.gt_one /\ rels <> []) /\
  (forall v, In v (evaluated_videos true Runs.gt_one [("A"%string, [])]) ->
     v_pred v = []) /\
  (forall N,
     Qnat (hits_top Fixture.viou default_viou_threshold N
             (evaluated_videos true Runs.gt_one [("A"%string, [])]))
     / Qnat (total true (evaluated_videos true Runs.gt_one [("A"%string, [])]))
     == 0) /\
  evaluate Fixture.viou Fixture.voc_ap default_viou_threshold
           default_det_nreturns default_tag_nreturns
           Runs.gt_one [("A"%string, [])] true
  = Raise IndexError.
Proof.
  split; [exact resolvable_no_prediction|].
  split; [exact has_relation_one|].
  split; [exact no_prediction_one|].
  exact (proj1 (proj2 (proj2
           (@evaluate_recall_at_n Fixture.viou Fixture.voc_ap
              default_viou_threshold Runs.gt_one [("A"%string, [])]
              resolvable_no_prediction has_relation_one)))
           no_prediction_one).
Defined.

(** The mean average precision on the two videos of [Runs.gt_two]. *)
Lemma evaluate_mean_ap_witness :
  NoDup (keys Runs.gt_two) /\
  (exists vid rels, In (vid, rels) Runs.gt_two /\ rels <> []) /\
  resolvable true Runs.gt_two Runs.pred_two /\
  let aps := map (video_ap_of Fixture.viou Fixture.voc_ap default_viou_threshold)
                 (evaluated_videos true Runs.gt_two Runs.pred_two) in
  length aps = length (filter nonempty Runs.gt_two) /\
  (exists st,
     gt_loop Fixture.viou Fixture.voc_ap default_viou_threshold
             default_det_nreturns default_tag_nreturns
             Runs.gt_two Runs.pred_two = Ok st /\
     np_mean (values (video_ap st)) = Num (Qsum aps / Qnat (length aps))) /\
  (forall r,
     evaluate Fixture.viou Fixture.voc_ap default_viou_threshold
              default_det_nreturns default_tag_nreturns
              Runs.gt_two Runs.pred_two true = Ok r ->
     mean_ap r = Num (Qsum aps / Qnat (length aps))).
Proof.
  assert (H1 : NoDup (keys Runs.gt_two)).
  { repeat constructor; simpl; intuition discriminate. }
  assert (H2 : exists vid rels, In (vid, rels) Runs.gt_two /\ rels <> []).
  { do 2 eexists. split; [left; reflexivity | discriminate]. }
  split; [exact H1|]. split; [exact H2|]. split; [exact resolvable_two|].
  exact (@evaluate_mean_ap Fixture.viou Fixture.voc_ap default_viou_threshold
           Runs.gt_two Runs.pred_two H1 H2 resolvable_two).
Defined.

(** The loop stops at the lookup of a video that has a ground-truth
    relation and no entry in the predictions, before any [mean_ap] is
    computed. *)
Lemma evaluate_mean_ap_needs_entries :
  gt_loop Fixture.viou Fixture.voc_ap default_viou_threshold
          default_det_nreturns default_tag_nreturns
          Runs.gt_one [("C"%string, Runs.pred_one_list)]
  = Raise KeyError /\
  Runs.evaluate Runs.gt_one [("C"%string, Runs.pred_one_list)] true
  = Raise KeyError.
Proof. vm_compute. split; reflexivity. Qed.

(** A video without ground-truth relations adds no value to the mean: the
    mean of the two videos of [gt_two] is 0.5 with and without it. *)
Example evaluate_mean_ap_skips_empty_video :
  mean_ap_is (Runs.evaluate Runs.gt_two Runs.pred_two true) (1 # 2) = true /\
  mean_ap_is (Runs.evaluate (("C"%string, []) :: Runs.gt_two) Runs.pred_two true)
             (1 # 2) = true.
Proof. vm_compute. split; reflexivity. Qed.

(** The mean precision at [N] on the two videos of [Runs.gt_two]. *)
Lemma evaluate_mprec_at_n_witness :
  resolvable true Runs.gt_two Runs.pred_two /\
  (exists v, In v (evaluated_videos true Runs.gt_two Runs.pred_two)
             /\ v_pred v <> []) /\
  let vs := evaluated_videos true Runs.gt_two Runs.pred_two in
  exists r,
    evaluate Fixture.viou Fixture.voc_ap default_viou_threshold
             default_det_nreturns default_tag_nreturns
             Runs.gt_two Runs.pred_two true = Ok r /\
    forall N, In N default_tag_nreturns ->
      let ps := map (fun v => prec_at N (tag_prec_of v)) vs in
      lookup Nat.eqb N (mprec_at_n r) = Some (Num (Qsum ps / Qnat (length ps))) /\
      forall v, In v vs ->
        let size := length (retained (sorted_by_score (v_pred v))) in
        length (tag_prec_of v) = size /\
        ((N <= size)%nat ->
           prec_at N (tag_prec_of v) = nth (N - 1) (tag_prec_of v) 0) /\
        ((0 < size < N)%nat ->
           prec_at N (tag_prec_of v) = nth (size - 1) (tag_prec_of v) 0) /\
        (size = 0%nat -> prec_at N (tag_prec_of v) = 0).
Proof.
  split; [exact resolvable_two|]. split; [exact has_prediction_two|].
  exact (@evaluate_mprec_at_n Fixture.viou Fixture.voc_ap default_viou_threshold
           true Runs.gt_two Runs.pred_two resolvable_two has_prediction_two).
Defined.

(** A video with one retained triplet, a hit, adds its precision at rank 1
    to [mprec_at_n[5]], which is 1 and not 0 as the mean would be if a
    video with fewer than 5 retained triplets counted as 0; and [evaluate]
    does not return when the only video has no prediction. *)
Lemma evaluate_mprec_short_video_counts :
  mprec_is (Runs.evaluate Runs.gt_one Runs.pred_one true) 5 1 = true /\
  (let ps := map (fun v => prec_at_as_specified 5 (tag_prec_of v))
                 (evaluated_videos true Runs.gt_one Runs.pred_one) in
   Qeq_bool (Qsum ps / Qnat (length ps)) 0) = true /\
  Runs.evaluate Runs.gt_one [("A"%string, [])] false = Raise ValueError /\
  Runs.evaluate Runs.gt_one [("B"%string, [])] true = Raise KeyError.
Proof. vm_compute. repeat split. Qed.

(** The failing lookup on [Runs.gt_two], with predictions for video B only. *)
Lemma evaluate_missing_prediction_witness :
  In ("A"%string, [Fixture.gt Fixture.t123 Fixture.d01]) Runs.gt_two /\
  [Fixture.gt Fixture.t123 Fixture.d01] <> [] /\
  lookup String.eqb "A"%string
         [("B"%string, [Fixture.pr Fixture.t456 Fixture.d01 (9 # 10)])] = None /\
  evaluate Fixture.viou Fixture.voc_ap default_viou_threshold
           default_det_nreturns default_tag_nreturns Runs.gt_two
           [("B"%string, [Fixture.pr Fixture.t456 Fixture.d01 (9 # 10)])] true
  = Raise KeyError.
Proof.
  assert (H1 : In ("A"%string, [Fixture.gt Fixture.t123 Fixture.d01]) Runs.gt_two)
    by (left; reflexivity).
  assert (H2 : [Fixture.gt Fixture.t123 Fixture.d01] <> []) by discriminate.
  assert (H3 : lookup String.eqb "A"%string
                 [("B"%string, [Fixture.pr Fixture.t456 Fixture.d01 (9 # 10)])]
               = None) by reflexivity.
  split; [exact H1|]. split; [exact H2|]. split; [exact H3|].
  exact (@evaluate_missing_prediction Fixture.viou Fixture.voc_ap
           default_viou_threshold Runs.gt_two _ _ _ H1 H2 H3).
Defined.

(** Video A has a ground-truth relation and no entry in the predictions:
    the call raises [KeyError], whereas with the entry [A: []] it returns. *)
Lemma evaluate_missing_is_not_empty :
  Runs.evaluate Runs.gt_two
    [("B"%string, [Fixture.pr Fixture.t456 Fixture.d01 (9 # 10)])] true
  = Raise KeyError /\
  ran_ok (Runs.evaluate Runs.gt_two
    [("A"%string, []);
     ("B"%string, [Fixture.pr Fixture.t456 Fixture.d01 (9 # 10)])] true) = true.
Proof. vm_compute. split; reflexivity. Qed.

(** ** The segment-level aggregator in prediction-anchored mode *)

Lemma dict_set_twice {V} (d : sdict V) k x y :
  dict_set String.eqb (dict_set String.eqb d k x) k y = dict_set String.eqb d k y.
Proof.
  induction d as [|[k' v'] d IH]; simpl.
  - now rewrite String.eqb_refl.
  - destruct (String.eqb k k') eqn:E; simpl.
    + now rewrite String.eqb_refl.
    + now rewrite E, IH.
Qed.

Section Segments.

Variable viou : traj -> duration_t -> traj -> duration_t -> Q.
Variable voc_ap : list Q -> list Q -> Q.
Variable thr : Q.
Variables dets tags : list nat.
Variable vid : string.
Variable preds : list pred_relation.

(** The round of the outer loop of [evaluate_segs] on a video with
    predictions runs the inner loop on its segments. *)
Lemma seg_step_inner groundtruth st gt_relations :
  preds <> [] ->
  lookup String.eqb vid groundtruth = Some gt_relations ->
  seg_step viou voc_ap thr dets tags groundtruth (Ok st) (vid, preds)
  = Ok (seg_inner viou voc_ap thr dets tags vid preds gt_relations
          (count_relations st (length preds))).
Proof.
  intros Hne Hl. unfold seg_step, getitem. cbn [bind]. rewrite Hl.
  destruct preds; [congruence | reflexivity].
Qed.

Lemma seg_inner_assign segs : forall st y,
  dict_set String.eqb
    (video_ap (seg_inner viou voc_ap thr dets tags vid preds segs st)) vid y
  = dict_set String.eqb (video_ap st) vid y.
Proof.
  induction segs as [|seg segs IH]; intros st y; [reflexivity|].
  unfold seg_inner in *. cbn [fold_left]. rewrite IH.
  destruct (score_video_fields viou voc_ap thr dets tags st vid [seg] preds)
    as (F1 & _).
  rewrite F1. apply dict_set_twice.
Qed.

Lemma seg_inner_last segs seg st :
  video_ap (seg_inner viou voc_ap thr dets tags vid preds (segs ++ [seg]) st)
  = dict_set String.eqb (video_ap st) vid
      (video_ap_of viou voc_ap thr
         {| v_id := vid; v_gt := [seg]; v_pred := preds |}).
Proof.
  unfold seg_inner. rewrite fold_left_app. cbn [fold_left].
  fold (seg_inner viou voc_ap thr dets tags vid preds segs st).
  destruct (score_video_fields viou voc_ap thr dets tags
              (seg_inner viou voc_ap thr dets tags vid preds segs st)
              vid [seg] preds) as (F1 & _).
  rewrite F1. apply seg_inner_assign.
Qed.

End Segments.

(** C6.  In [evaluate_segs] with [base_on_gt=False] the average precision of
    each segment is stored under the key of its video, [seg_ap[vid]]: after
    the loop over the segments of a video the entry holds the value of the
    last segment only, whatever the number of segments.  On a video with
    two segments whose values are 1 and 0 the reported [mean_ap] is 0, the
    value of the second segment, and not their mean 0.5; with the segments
    in the other order it is 1. *)
Theorem evaluate_segs_keeps_last_segment_ap :
  (forall viou voc_ap thr dets tags vid preds segs seg st,
     video_ap (seg_inner viou voc_ap thr dets tags vid preds (segs ++ [seg]) st)
     = dict_set String.eqb (video_ap st) vid
         (video_ap_of viou voc_ap thr
            {| v_id := vid; v_gt := [seg]; v_pred := preds |})) /\
  (let ap seg :=
     video_ap_of Fixture.viou Fixture.voc_ap default_viou_threshold
       {| v_id := "A"; v_gt := [seg];
          v_pred := [Fixture.pr Fixture.t123 Fixture.d01 (9 # 10)] |} in
   Qeq_bool (ap (Fixture.gt Fixture.t123 Fixture.d01)) 1 = true /\
   Qeq_bool (ap (Fixture.gt Fixture.t456 Fixture.d01)) 0 = true) /\
  mean_ap_is (Runs.evaluate_segs Runs.gt_segs Runs.pred_one false) 0 = true /\
  mean_ap_is (Runs.evaluate_segs
                [("A"%string, [Fixture.gt Fixture.t456 Fixture.d01;
                               Fixture.gt Fixture.t123 Fixture.d01])]
                Runs.pred_one false) 1 = true.
Proof.
  split; [intros; apply seg_inner_last|].
  vm_compute. repeat split.
Qed.

(** * Further properties *)

(** ** The precision and recall sequences *)

Lemma cumsum_from_nth l : forall acc i,
  (i < length l)%nat ->
  nth i (cumsum_from acc l) 0%nat = (acc + count_true (firstn (S i) l))%nat.
Proof.
  induction l as [|b l IH]; intros acc i Hi; simpl in Hi; [lia|].
  destruct i as [|i].
  - simpl. unfold count_true. destruct b; simpl; lia.
  - cbn [cumsum_from nth]. rewrite IH by lia.
    change (firstn (S (S i)) (b :: l)) with (b :: firstn (S i) l).
    unfold count_true. destruct b; simpl; lia.
Qed.

Lemma cumsum_from_sorted l : forall acc,
  StronglySorted le (cumsum_from acc l) /\
  Forall (fun c => (acc <= c)%nat) (cumsum_from acc l).
Proof.
  induction l as [|b l IH]; intros acc; simpl; [split; constructor|].
  destruct (IH (acc + if b then 1 else 0)%nat) as [Hs Hf]. split.
  - constructor; [exact Hs|]. exact Hf.
  - constructor; [lia|]. eapply Forall_impl; [|exact Hf].
    intros c Hc. simpl in Hc. lia.
Qed.

Lemma count_true_negb l :
  (count_true l + count_true (map negb l) = length l)%nat.
Proof.
  unfold count_true. induction l as [|b l IH]; simpl; [reflexivity|].
  destruct b; simpl; lia.
Qed.

Lemma Qnat_plus a b : Qnat a + Qnat b == Qnat (a + b).
Proof.
  unfold Qnat. rewrite <- inject_Z_plus, Nat2Z.inj_add. reflexivity.
Qed.

Lemma Qnat_nonneg a : 0 <= Qnat a.
Proof. apply (Qnat_le (Nat.le_0_l a)). Qed.

Lemma StronglySorted_map {A B} (R : A -> A -> Prop) (S : B -> B -> Prop)
    (f : A -> B) (l : list A) :
  (forall x y, R x y -> S (f x) (f y)) ->
  StronglySorted R l -> StronglySorted S (map f l).
Proof.
  intros Hf. induction 1 as [|x l Hs IH Hx]; simpl; constructor; auto.
  apply Forall_map. eapply Forall_impl; [|exact Hx]. auto.
Qed.

Lemma nth_map_lt {A B} (f : A -> B) (l : list A) (d : A) (d' : B) : forall i,
  (i < length l)%nat -> nth i (map f l) d' = f (nth i l d).
Proof.
  induction l as [|x l IH]; intros [|i] Hi; simpl in *; try lia; auto.
  apply IH. lia.
Qed.

(** The value of the two sequences at rank [i], for [hits] finite entries
    among the first [i + 1] hit scores: the guard [eps] of the precision
    is never the maximum, the guard of the recall only for [n = 0]. *)
Lemma curves_nth hs n i :
  (i < length hs)%nat ->
  let hits := count_true (map isfinite (firstn (S i) hs)) in
  nth i (fst (curves hs n)) 0 == Qnat hits / Qnat (S i) /\
  nth i (snd (curves hs n)) 0 == Qnat hits / Qmax (Qnat n) eps.
Proof.
  intros Hi hits. unfold curves. cbn [fst snd].
  set (tp := map isfinite hs).
  assert (Hlt : (i < length tp)%nat) by (unfold tp; now rewrite length_map).
  assert (Hc : nth i (cumsum tp) 0%nat = hits).
  { unfold cumsum. rewrite cumsum_from_nth by exact Hlt.
    unfold hits, tp. now rewrite firstn_map. }
  assert (Hf : nth i (cumsum (map negb tp)) 0%nat
               = count_true (firstn (S i) (map negb tp))).
  { unfold cumsum. rewrite cumsum_from_nth by (now rewrite length_map).
    reflexivity. }
  split.
  - unfold precision_curve.
    rewrite (@nth_map_lt _ _ _ _ (0%nat, 0%nat)).
    2:{ rewrite length_combine. unfold cumsum.
        rewrite !cumsum_from_length, length_map. lia. }
    rewrite combine_nth.
    2:{ unfold cumsum. now rewrite !cumsum_from_length, length_map. }
    cbn [fst snd]. rewrite Hc, Hf, Qnat_plus.
    assert (Hsum : (hits + count_true (firstn (S i) (map negb tp)) = S i)%nat).
    { unfold hits. rewrite <- firstn_map. fold tp.
      rewrite (firstn_map negb), count_true_negb, length_firstn. lia. }
    rewrite Hsum, Qmax_eps_nat by lia. reflexivity.
  - unfold recall_curve.
    rewrite (@nth_map_lt _ _ _ _ 0%nat).
    2:{ unfold cumsum. now rewrite cumsum_from_length. }
    rewrite Hc. reflexivity.
Qed.

Lemma curves_bounds hs n :
  Forall (fun p => 0 <= p /\ p <= 1) (fst (curves hs n)) /\
  Forall (fun r => 0 <= r) (snd (curves hs n)) /\
  StronglySorted Qle (snd (curves hs n)).
Proof.
  unfold curves. cbn [fst snd]. repeat split.
  - unfold precision_curve. apply Forall_map, Forall_forall.
    intros [c c'] _. cbn [fst snd]. split.
    + apply Qle_shift_div_l; [apply Qmax_eps_pos|].
      rewrite Qmult_0_l. apply Qnat_nonneg.
    + apply Qle_shift_div_r; [apply Qmax_eps_pos|]. rewrite Qmult_1_l.
      apply Qle_trans with (Qnat c + Qnat c'); [|apply Q.le_max_l].
      rewrite <- (Qplus_0_r (Qnat c)) at 1.
      apply Qplus_le_r, Qnat_nonneg.
  - unfold recall_curve. apply Forall_map, Forall_forall. intros c _.
    apply Qle_shift_div_l; [apply Qmax_eps_pos|].
    rewrite Qmult_0_l. apply Qnat_nonneg.
  - unfold recall_curve.
    apply (StronglySorted_map (R := le)); [|apply cumsum_from_sorted].
    intros x y Hxy.
    apply Qmult_le_compat_r; [now apply Qnat_le|].
    apply Qinv_le_0_compat, Qlt_le_weak, Qmax_eps_pos.
Qed.

(** ** The ranking of the predictions *)

Lemma insert_sorted_head x l :
  Forall (score_ge x) l -> insert_sorted score_geb x l = x :: l.
Proof.
  destruct l as [|y l]; simpl; [reflexivity|].
  intros H. inversion H as [|? ? Hy _]; subst.
  unfold score_geb. apply Qle_bool_iff in Hy. now rewrite Hy.
Qed.

Lemma sorted_by_score_fixed l :
  StronglySorted score_ge l -> sorted_by_score l = l.
Proof.
  induction 1 as [|x l Hs IH Hx]; [reflexivity|].
  unfold sorted_by_score in *. simpl. rewrite IH.
  now apply insert_sorted_head.
Qed.

Lemma sorted_by_score_idem l :
  sorted_by_score (sorted_by_score l) = sorted_by_score l.
Proof. apply sorted_by_score_fixed, sorted_by_score_sorted. Qed.

Lemma insert_sorted_class (q : Q) x l :
  filter (fun r => Qeq_bool (score r) q) (insert_sorted score_geb x l)
  = filter (fun r => Qeq_bool (score r) q) (x :: l).
Proof.
  induction l as [|y l IH]; [reflexivity|].
  cbn [insert_sorted]. unfold score_geb at 1.
  destruct (Qle_bool (score y) (score x)) eqn:E; [reflexivity|].
  cbn [filter] in *. rewrite IH.
  destruct (Qeq_bool (score x) q) eqn:Ex, (Qeq_bool (score y) q) eqn:Ey;
    try reflexivity.
  apply Qeq_bool_iff in Ex, Ey.
  assert (Hle : Qle_bool (score y) (score x) = true).
  { apply Qle_bool_iff. rewrite Ex, Ey. apply Qle_refl. }
  congruence.
Qed.

(** X4.  Ranking is stable and idempotent: the predictions of one score
    keep the order they have in the input, whatever the score, and ranking
    a ranked list changes nothing, so both matchers return on the ranked
    predictions what they return on the predictions as given. *)
Theorem ranking_stable_and_idempotent
    (viou : traj -> duration_t -> traj -> duration_t -> Q)
    (gts : list relation) (preds : list pred_relation) (thr : Q) :
  (forall q, filter (fun r => Qeq_bool (score r) q) (sorted_by_score preds)
             = filter (fun r => Qeq_bool (score r) q) preds) /\
  eval_detection_scores viou gts (sorted_by_score preds) thr
  = eval_detection_scores viou gts preds thr /\
  eval_tagging_scores gts (sorted_by_score preds)
  = eval_tagging_scores gts preds.
Proof.
  split; [|split].
  - intros q. induction preds as [|x l IH]; [reflexivity|].
    unfold sorted_by_score in *. cbn [stable_sort fold_right].
    fold (stable_sort score_geb l).
    rewrite insert_sorted_class. cbn [filter]. now rewrite IH.
  - unfold eval_detection_scores. now rewrite sorted_by_score_idem.
  - unfold eval_tagging_scores. now rewrite sorted_by_score_idem.
Qed.

(** ** The sequences of the matcher *)

Section MatcherCurves.

Variable viou : traj -> duration_t -> traj -> duration_t -> Q.

Lemma hit_scores_length gts preds thr :
  length (snd (eval_detection_scores viou gts preds thr)) = length preds.
Proof.
  rewrite eval_detection_scores_eq. cbn [snd].
  rewrite match_loop_run, match_run_length. apply stable_sort_length.
Qed.

Lemma match_run_no_ground_truth thr ps : forall det,
  match_run viou thr [] det ps = (det, repeat NegInf (length ps)).
Proof.
  induction ps as [|p ps IH]; intros det; [reflexivity|].
  cbn [match_run]. change (snd (scan_gt viou thr [] det p)) with (-1)%Z.
  cbn [Z.leb Z.compare]. rewrite IH. reflexivity.
Qed.

Lemma count_true_no_hit n : count_true (map isfinite (repeat NegInf n)) = 0%nat.
Proof. induction n; simpl; auto. Qed.

(** X1.  The three arrays that [eval_detection_scores] returns have one
    entry per prediction; every precision lies between 0 and 1, every
    recall is at least 0, and the recall sequence never decreases. *)
Theorem eval_detection_scores_shape
    (gts : list relation) (preds : list pred_relation) (thr : Q) :
  let prec := fst (fst (eval_detection_scores viou gts preds thr)) in
  let rec := snd (fst (eval_detection_scores viou gts preds thr)) in
  let hit_scores := snd (eval_detection_scores viou gts preds thr) in
  length prec = length preds /\
  length rec = length preds /\
  length hit_scores = length preds /\
  Forall (fun p => 0 <= p /\ p <= 1) prec /\
  Forall (fun r => 0 <= r) rec /\
  StronglySorted Qle rec.
Proof.
  cbv zeta. assert (Hl := hit_scores_length gts preds thr).
  rewrite eval_detection_scores_eq in *. cbn [fst snd] in *.
  set (hs := snd (match_loop viou thr gts (sorted_by_score preds))) in *.
  destruct (curves_length hs (length gts)) as [L1 L2].
  destruct (curves_bounds hs (length gts)) as (B1 & B2 & B3).
  rewrite L1, L2. repeat split; auto.
Qed.

(** X2.  At rank [i] (from 0) the precision is the number of hits among
    the [i + 1] best ranked predictions divided by [i + 1], and the recall
    is that number divided by the number of ground-truth instances; with
    no ground-truth instance the recall is 0. *)
Theorem eval_detection_scores_values
    (gts : list relation) (preds : list pred_relation) (thr : Q) (i : nat) :
  (i < length preds)%nat ->
  let prec := fst (fst (eval_detection_scores viou gts preds thr)) in
  let rec := snd (fst (eval_detection_scores viou gts preds thr)) in
  let hit_scores := snd (eval_detection_scores viou gts preds thr) in
  let hits := count_true (map isfinite (firstn (S i) hit_scores)) in
  nth i prec 0 == Qnat hits / Qnat (S i) /\
  (gts <> [] -> nth i rec 0 == Qnat hits / Qnat (length gts)) /\
  (gts = [] -> nth i rec 0 == 0).
Proof.
  intros Hi. cbv zeta.
  assert (Hl := hit_scores_length gts preds thr).
  rewrite eval_detection_scores_eq in *. cbn [fst snd] in *.
  set (hs := snd (match_loop viou thr gts (sorted_by_score preds))) in *.
  destruct (@curves_nth hs (length gts) i) as [P R]; [lia|].
  cbv zeta in P, R. split; [exact P|]. split.
  - intros Hne. rewrite R, Qmax_eps_nat; [reflexivity|].
    destruct gts; [congruence | simpl; lia].
  - intros ->. rewrite R.
    assert (Hz : count_true (map isfinite (firstn (S i) hs)) = 0%nat).
    { assert (H := count_true_app (map isfinite (firstn (S i) hs))
                     (map isfinite (skipn (S i) hs))).
      rewrite <- map_app, firstn_skipn in H.
      unfold hs in H at 1.
      rewrite match_loop_run, match_run_no_ground_truth in H. cbn [snd] in H.
      rewrite count_true_no_hit in H. lia. }
    rewrite Hz. unfold Qdiv. apply Qmult_0_l.
Qed.

(** X3.  Without ground-truth instances no prediction is a hit: every
    entry of [hit_scores] is the sentinel [-inf] and every precision and
    every recall is 0. *)
Theorem eval_detection_scores_no_ground_truth
    (preds : list pred_relation) (thr : Q) :
  let prec := fst (fst (eval_detection_scores viou [] preds thr)) in
  let rec := snd (fst (eval_detection_scores viou [] preds thr)) in
  let hit_scores := snd (eval_detection_scores viou [] preds thr) in
  hit_scores = repeat NegInf (length preds) /\
  Forall (fun p => p == 0) prec /\
  Forall (fun r => r == 0) rec.
Proof.
  cbv zeta.
  rewrite eval_detection_scores_eq. cbn [fst snd].
  rewrite match_loop_run, match_run_no_ground_truth. cbn [snd].
  unfold sorted_by_score. rewrite stable_sort_length.
  split; [reflexivity|].
  set (n := length preds).
  assert (Hcum : Forall (fun c => c = 0%nat)
                   (cumsum (map isfinite (repeat NegInf n)))).
  { assert (Hz := count_true_no_hit n).
    eapply Forall_impl; [|apply (cumsum_from_bound 0)].
    intros c Hc. simpl in Hc. lia. }
  unfold curves. cbn [fst snd]. split.
  - unfold precision_curve. apply Forall_map, Forall_forall.
    intros [c c'] Hin. cbn [fst snd].
    apply in_combine_l in Hin. rewrite Forall_forall in Hcum.
    rewrite (Hcum c Hin). unfold Qdiv. apply Qmult_0_l.
  - unfold recall_curve. apply Forall_map.
    eapply Forall_impl; [|exact Hcum]. intros c ->.
    unfold Qdiv. apply Qmult_0_l.
Qed.

End MatcherCurves.

(** The values at rank 0 on one ground-truth instance and one matching
    prediction. *)
Lemma eval_detection_scores_values_witness :
  (0 < length Runs.pred_one_list)%nat /\
  let gts := [Fixture.gt Fixture.t123 Fixture.d01] in
  let r := eval_detection_scores Fixture.viou gts Runs.pred_one_list (1 # 2) in
  let hits := count_true (map isfinite (firstn 1 (snd r))) in
  nth 0 (fst (fst r)) 0 == Qnat hits / Qnat 1 /\
  (gts <> [] -> nth 0 (snd (fst r)) 0 == Qnat hits / Qnat (length gts)) /\
  (gts = [] -> nth 0 (snd (fst r)) 0 == 0).
Proof.
  assert (H : (0 < length Runs.pred_one_list)%nat) by (simpl; lia).
  split; [exact H|].
  exact (@eval_detection_scores_values Fixture.viou
           [Fixture.gt Fixture.t123 Fixture.d01] Runs.pred_one_list (1 # 2) 0 H).
Defined.

(** ** The sequences of the tagger *)

Lemma NoDup_map_filter {A B} (g : A -> B) (f : A -> bool) (l : list A) :
  NoDup (map g l) -> NoDup (map g (filter f l)).
Proof.
  induction l as [|x l IH]; simpl; intros H; [constructor|].
  inversion H as [|? ? Hn Hd]; subst.
  destruct (f x); simpl; auto.
  constructor; auto. intros Hin. apply Hn.
  apply in_map_iff in Hin. destruct Hin as (y & Hy & Hin).
  apply filter_In in Hin. rewrite <- Hy. apply in_map. tauto.
Qed.

Lemma dedup_spec l : forall seen,
  NoDup (map ptriplet (dedup seen l)) /\
  forall t, In t (map ptriplet (dedup seen l))
            <-> In t (map ptriplet l) /\ ~ In t seen.
Proof.
  induction l as [|r l IH]; intros seen; simpl.
  - split; [constructor | tauto].
  - destruct (triplet_in (triplet r) seen) eqn:E.
    + destruct (IH seen) as [Hn Hi]. split; [exact Hn|].
      intros t. rewrite Hi. apply triplet_in_In in E.
      split; [tauto|]. intros [[<-|H] Hs]; tauto.
    + destruct (IH (seen ++ [triplet r])) as [Hn Hi].
      assert (Hns : ~ In (triplet r) seen).
      { intros H. apply triplet_in_In in H. congruence. }
      split.
      * simpl. constructor; [|exact Hn].
        rewrite Hi, in_app_iff. simpl. tauto.
      * intros t. simpl. rewrite Hi, in_app_iff. simpl.
        split.
        -- intros [<-|[H1 H2]]; tauto.
        -- intros [[<-|H] Hs]; [tauto|].
           destruct (triplet_eqb (triplet r) t) eqn:Et.
           ++ apply triplet_eqb_eq in Et. tauto.
           ++ right. split; [exact H|]. intros [H'|[H'|[]]]; [tauto|].
              apply triplet_eqb_eq in H'. congruence.
Qed.

Lemma retained_is_dedup ranked : retained ranked = dedup [] ranked.
Proof. exact (retained_dedup ranked []). Qed.

Lemma triplet_set_NoDup l : NoDup (triplet_set l).
Proof.
  induction l as [|t l IH]; simpl; [constructor|].
  destruct (triplet_in t (triplet_set l)) eqn:E; [exact IH|].
  constructor; [|exact IH]. intros H. apply triplet_in_In in H. congruence.
Qed.

Lemma triplet_set_In t l : In t (triplet_set l) <-> In t l.
Proof. now rewrite <- !triplet_in_In, triplet_in_set. Qed.

Lemma count_true_filter {A} (f : A -> bool) (l : list A) :
  count_true (map f l) = length (filter f l).
Proof.
  unfold count_true. induction l as [|x l IH]; simpl; [reflexivity|].
  destruct (f x); simpl; now rewrite IH.
Qed.

(** X5.  The arrays that [eval_tagging_scores] returns have one entry per
    retained prediction; the retained predictions carry pairwise distinct
    triplets, which are exactly the triplets that occur in the predictions;
    the hits are at most as many as the distinct ground-truth triplets, so
    every recall is at most 1; every precision lies between 0 and 1 and the
    recall sequence never decreases. *)
Theorem eval_tagging_scores_shape
    (gts : list relation) (preds : list pred_relation) :
  let kept := retained (sorted_by_score preds) in
  let prec := fst (fst (eval_tagging_scores gts preds)) in
  let rec := snd (fst (eval_tagging_scores gts preds)) in
  let hit_scores := snd (eval_tagging_scores gts preds) in
  length prec = length kept /\
  length rec = length kept /\
  length hit_scores = length kept /\
  NoDup (map ptriplet kept) /\
  (forall t, In t (map ptriplet kept) <-> In t (map ptriplet preds)) /\
  (count_true (map isfinite hit_scores)
   <= length (triplet_set (map triplet gts)))%nat /\
  Forall (fun p => 0 <= p /\ p <= 1) prec /\
  Forall (fun r => 0 <= r /\ r <= 1) rec /\
  StronglySorted Qle rec.
Proof.
  cbv zeta. rewrite eval_tagging_scores_eq. cbn [fst snd].
  set (G := triplet_set (map triplet gts)).
  set (kept := retained (sorted_by_score preds)).
  set (hs := map (tag_of G) kept).
  destruct (curves_length hs (length G)) as [L1 L2].
  destruct (curves_bounds hs (length G)) as (B1 & B2 & B3).
  assert (Hlen : length hs = length kept) by (unfold hs; apply length_map).
  destruct (dedup_spec (sorted_by_score preds) []) as [Hnd Hin].
  rewrite <- retained_is_dedup in Hnd, Hin. fold kept in Hnd, Hin.
  assert (Hcount : (count_true (map isfinite hs) <= length G)%nat).
  { unfold hs. rewrite map_map.
    rewrite (map_ext _ (fun r : pred_relation => triplet_in (triplet r) G)).
    2:{ intros r. unfold tag_of. now destruct (triplet_in (triplet r) G). }
    rewrite count_true_filter.
    rewrite <- (length_map ptriplet).
    apply NoDup_incl_length; [now apply NoDup_map_filter|].
    intros t Ht. apply in_map_iff in Ht. destruct Ht as (r & <- & Hr).
    apply filter_In in Hr. now apply triplet_in_In. }
  assert (Hperm : Permutation (map ptriplet (sorted_by_score preds))
                              (map ptriplet preds))
    by apply Permutation_map, stable_sort_perm.
  rewrite L1, L2, Hlen.
  split; [reflexivity|]. split; [reflexivity|]. split; [reflexivity|].
  split; [exact Hnd|]. split.
  { intros t. rewrite Hin. split.
    - intros [H _]. now apply (Permutation_in _ Hperm).
    - intros H. split; [|tauto].
      now apply (Permutation_in _ (Permutation_sym Hperm)). }
  split; [exact Hcount|]. split; [exact B1|]. split; [|exact B3].
  assert (B4 : Forall (fun r => r <= 1) (snd (curves hs (length G)))).
  { unfold curves. cbn [snd]. apply recall_curve_le_1.
    eapply Forall_impl; [|apply (cumsum_from_bound 0)].
    intros c Hc. simpl in Hc. lia. }
  rewrite Forall_forall in *. intros r Hr. split; auto.
Qed.

(** X6.  The tagger reads the ground truth only as a set of triplets: two
    ground-truth lists with the same triplets, whatever their trajectories,
    order and repetitions, give the same three arrays. *)
Theorem eval_tagging_scores_ground_truth_set
    (gts1 gts2 : list relation) (preds : list pred_relation) :
  (forall t, In t (map triplet gts1) <-> In t (map triplet gts2)) ->
  eval_tagging_scores gts1 preds = eval_tagging_scores gts2 preds.
Proof.
  intros H. rewrite !eval_tagging_scores_eq.
  set (G1 := triplet_set (map triplet gts1)).
  set (G2 := triplet_set (map triplet gts2)).
  assert (Hlen : length G1 = length G2).
  { apply Permutation_length, NoDup_Permutation; try apply triplet_set_NoDup.
    intros t. unfold G1, G2. now rewrite !triplet_set_In. }
  assert (Htag : map (tag_of G1) (retained (sorted_by_score preds))
                 = map (tag_of G2) (retained (sorted_by_score preds))).
  { apply map_ext. intros r. unfold tag_of, G1, G2.
    rewrite !triplet_in_set.
    destruct (triplet_in (triplet r) (map triplet gts1)) eqn:E1,
             (triplet_in (triplet r) (map triplet gts2)) eqn:E2;
      try reflexivity.
    - apply triplet_in_In, H, triplet_in_In in E1. congruence.
    - apply triplet_in_In, H, triplet_in_In in E2. congruence. }
  rewrite Htag, Hlen. reflexivity.
Qed.

(** Two instances of one triplet count as the one instance does. *)
Lemma eval_tagging_scores_ground_truth_set_witness :
  (forall t,
     In t (map triplet [Fixture.gt Fixture.t123 Fixture.d01;
                        Fixture.gt Fixture.t123 Fixture.d56])
     <-> In t (map triplet [Fixture.gt Fixture.t123 Fixture.d06])) /\
  eval_tagging_scores [Fixture.gt Fixture.t123 Fixture.d01;
                       Fixture.gt Fixture.t123 Fixture.d56] Runs.pred_one_list
  = eval_tagging_scores [Fixture.gt Fixture.t123 Fixture.d06] Runs.pred_one_list.
Proof.
  assert (H : forall t,
     In t (map triplet [Fixture.gt Fixture.t123 Fixture.d01;
                        Fixture.gt Fixture.t123 Fixture.d56])
     <-> In t (map triplet [Fixture.gt Fixture.t123 Fixture.d06])).
  { intros t. simpl. tauto. }
  split; [exact H|].
  exact (@eval_tagging_scores_ground_truth_set _ _ Runs.pred_one_list H).
Defined.

(** ** The outcomes of [evaluate] *)

Lemma count_true_firstn_le n l : (count_true (firstn n l) <= count_true l)%nat.
Proof.
  rewrite <- (firstn_skipn n l) at 2. rewrite count_true_app. lia.
Qed.

Lemma list_sum_le {A} (f g : A -> nat) (l : list A) :
  (forall x, In x l -> (f x <= g x)%nat) ->
  (list_sum (map f l) <= list_sum (map g l))%nat.
Proof.
  induction l as [|x l IH]; simpl; intros H; [lia|].
  assert (f x <= g x)%nat by (apply H; auto).
  assert (list_sum (map f l) <= list_sum (map g l))%nat by (apply IH; auto).
  lia.
Qed.

Lemma Qsum_bounds (l : list Q) :
  Forall (fun q => 0 <= q /\ q <= 1) l ->
  0 <= Qsum l /\ Qsum l <= Qnat (length l).
Proof.
  induction 1 as [|q l [H0 H1] _ [IH0 IH1]].
  - split; discriminate.
  - change (Qsum (q :: l)) with (q + Qsum l).
    change (Qnat (length (q :: l))) with (Qnat (1 + length l)).
    split.
    + rewrite <- (Qplus_0_r 0). now apply Qplus_le_compat.
    + rewrite <- Qnat_plus. now apply Qplus_le_compat.
Qed.

Lemma np_mean_bounds (l : list Q) :
  l <> [] -> Forall (fun q => 0 <= q /\ q <= 1) l ->
  exists q, np_mean l = Num q /\ 0 <= q /\ q <= 1.
Proof.
  intros Hne H. destruct l as [|x l]; [congruence|].
  eexists. split; [reflexivity|].
  destruct (Qsum_bounds H) as [H0 H1].
  assert (Hpos : 0 < Qnat (length (x :: l))).
  { apply Qlt_le_trans with (Qnat 1); [reflexivity|].
    apply Qnat_le. simpl. lia. }
  split.
  - apply Qle_shift_div_l; [exact Hpos|]. now rewrite Qmult_0_l.
  - apply Qle_shift_div_r; [exact Hpos|]. now rewrite Qmult_1_l.
Qed.

Lemma prec_at_bounds nre tp :
  Forall (fun p => 0 <= p /\ p <= 1) tp ->
  0 <= prec_at nre tp /\ prec_at nre tp <= 1.
Proof.
  intros H. unfold prec_at.
  destruct (Nat.ltb_spec 0 (Nat.min nre (length tp))) as [Hlt|_].
  - rewrite Forall_forall in H. apply H, nth_In. lia.
  - split; [apply Qle_refl | discriminate].
Qed.

Lemma count_true_repeat_false n : count_true (repeat false n) = 0%nat.
Proof. unfold count_true. induction n; simpl; auto. Qed.

Section EvaluateOutcomes.

Variable viou : traj -> duration_t -> traj -> duration_t -> Q.
Variable voc_ap : list Q -> list Q -> Q.
Variable thr : Q.

Lemma det_scores_hits_le_gt v :
  (count_true (map isfinite (det_scores viou thr v)) <= length (v_gt v))%nat.
Proof.
  unfold det_scores. rewrite eval_detection_scores_eq. cbn [snd].
  rewrite match_loop_run.
  destruct (match_run_inv viou thr (v_gt v) (sorted_by_score (v_pred v))
              (repeat false (length (v_gt v))) (repeat_length _ _)) as [H1 H2].
  rewrite count_true_repeat_false in H2. simpl in H2.
  assert (H3 := count_true_le_length
                  (fst (match_run viou thr (v_gt v)
                          (repeat false (length (v_gt v)))
                          (sorted_by_score (v_pred v))))).
  lia.
Qed.

Lemma hits_top_le_total b N vs : (hits_top viou thr N vs <= total b vs)%nat.
Proof.
  unfold hits_top, total. apply list_sum_le. intros v _.
  rewrite <- firstn_map.
  apply Nat.le_trans with (count_true (map isfinite (det_scores viou thr v)));
    [apply count_true_firstn_le|].
  destruct b; cbn [counted]; [apply det_scores_hits_le_gt|].
  rewrite <- (det_scores_length viou thr v), <- (length_map isfinite).
  apply count_true_le_length.
Qed.

Lemma hits_top_mono N M vs :
  (N <= M)%nat -> (hits_top viou thr N vs <= hits_top viou thr M vs)%nat.
Proof.
  intros H. unfold hits_top. apply list_sum_le. intros v _.
  rewrite <- !firstn_map.
  replace N with (Nat.min N M) by lia. rewrite <- firstn_firstn.
  apply count_true_firstn_le.
Qed.

Lemma evaluated_pred_nonempty gt pred v :
  In v (evaluated_videos false gt pred) -> v_pred v <> [].
Proof.
  unfold evaluated_videos. rewrite in_map_iff.
  intros ([vid preds] & <- & H). apply filter_In in H.
  destruct H as [_ H]. unfold nonempty in H. cbn [snd v_pred] in *.
  destruct preds; [discriminate | congruence].
Qed.

Lemma filter_nonempty_nil {K V} (d : list (K * list V)) :
  Forall (fun item => snd item = []) d -> filter nonempty d = [].
Proof.
  induction 1 as [|[k l] d H _ IH]; [reflexivity|].
  simpl in *. subst l. unfold nonempty at 1. simpl. exact IH.
Qed.

(** X7.  In [evaluate] with [base_on_gt=False], a video that has at least
    one prediction and no entry in the ground truth makes the lookup
    [groundtruth[vid]] fail: the call raises [KeyError]. *)
Theorem evaluate_missing_ground_truth
    (groundtruth : sdict (list relation))
    (prediction : sdict (list pred_relation))
    (vid : string) (preds : list pred_relation) :
  In (vid, preds) prediction ->
  preds <> [] ->
  lookup String.eqb vid groundtruth = None ->
  evaluate viou voc_ap thr default_det_nreturns default_tag_nreturns
           groundtruth prediction false
  = Raise KeyError.
Proof.
  intros Hin Hne Hl. apply evaluate_raises_KeyError.
  intros Hr. exact (Hr vid preds Hin Hne Hl).
Qed.

(** X8.  When no video is scored, because every list of the mapping that
    anchors the loop is empty (or the mapping itself is), [evaluate]
    raises [ValueError]: [np.concatenate] gets an empty list. *)
Theorem evaluate_nothing_scored
    (groundtruth : sdict (list relation))
    (prediction : sdict (list pred_relation)) :
  (Forall (fun item => snd item = []) groundtruth ->
   evaluate viou voc_ap thr default_det_nreturns default_tag_nreturns
            groundtruth prediction true = Raise ValueError) /\
  (Forall (fun item => snd item = []) prediction ->
   evaluate viou voc_ap thr default_det_nreturns default_tag_nreturns
            groundtruth prediction false = Raise ValueError).
Proof.
  split; intros H; rewrite evaluate_resolve;
    apply filter_nonempty_nil in H.
  - destruct (resolve_cases true groundtruth prediction) as [[_ ->]|[Hn _]].
    + cbn [bind]. rewrite finish_scored.
      unfold evaluated_videos. now rewrite H.
    + exfalso. apply Hn. intros vid rels Hin Hne.
      assert (Hf : In (vid, rels) (filter nonempty groundtruth)).
      { apply filter_In. split; [exact Hin|].
        unfold nonempty. destruct rels; [congruence | reflexivity]. }
      rewrite H in Hf. destruct Hf.
  - destruct (resolve_cases false groundtruth prediction) as [[_ ->]|[Hn _]].
    + cbn [bind]. rewrite finish_scored.
      unfold evaluated_videos. now rewrite H.
    + exfalso. apply Hn. intros vid preds Hin Hne.
      assert (Hf : In (vid, preds) (filter nonempty prediction)).
      { apply filter_In. split; [exact Hin|].
        unfold nonempty. destruct preds; [congruence | reflexivity]. }
      rewrite H in Hf. destruct Hf.
Qed.

(** X9.  In [evaluate] with [base_on_gt=True], when some video has a
    ground-truth relation and every such video has an empty prediction
    list, the pooled arrays are empty and [rec[-1]] raises [IndexError]. *)
Theorem evaluate_no_prediction_at_all
    (groundtruth : sdict (list relation))
    (prediction : sdict (list pred_relation)) :
  (exists vid rels, In (vid, rels) groundtruth /\ rels <> []) ->
  (forall vid rels, In (vid, rels) groundtruth -> rels <> [] ->
     lookup String.eqb vid prediction = Some []) ->
  evaluate viou voc_ap thr default_det_nreturns default_tag_nreturns
           groundtruth prediction true
  = Raise IndexError.
Proof.
  intros (vid & rels & Hin & Hne) Hall.
  assert (Hr : resolvable true groundtruth prediction).
  { intros v r Hv Hr. rewrite (Hall v r Hv Hr). discriminate. }
  rewrite evaluate_resolve.
  destruct (resolve_cases true groundtruth prediction) as [[_ ->]|[Hn _]];
    [|contradiction].
  cbn [bind]. rewrite finish_scored.
  assert (Hvs : In (vid, rels) (filter nonempty groundtruth)).
  { apply filter_In. split; [exact Hin|].
    unfold nonempty. destruct rels; [congruence | reflexivity]. }
  assert (Hempty : forall v, In v (evaluated_videos true groundtruth prediction) ->
                     v_pred v = []).
  { unfold evaluated_videos. intros v Hv. apply in_map_iff in Hv.
    destruct Hv as ([v' r'] & <- & Hf). apply filter_In in Hf.
    destruct Hf as [Hf1 Hf2]. cbn [v_pred fst]. unfold lookup_list.
    rewrite (Hall v' r' Hf1); [reflexivity|].
    unfold nonempty in Hf2. cbn [snd] in Hf2. destruct r'; [discriminate|congruence]. }
  destruct (evaluated_videos true groundtruth prediction) as [|v vs] eqn:E.
  - unfold evaluated_videos in E. destruct (filter nonempty groundtruth);
      [destruct Hvs | discriminate].
  - unfold pooled_recall.
    destruct (concat (pool viou thr 50 (v :: vs))) eqn:Ec; [reflexivity|].
    exfalso.
    assert (Hc : concat (pool viou thr 50 (v :: vs)) <> []) by congruence.
    apply pool_nonempty_inv in Hc. destruct Hc as (w & Hw & Hne').
    apply Hne'. apply Hempty. exact Hw.
Qed.

(** X10.  In [evaluate] with [base_on_gt=False], when every video with a
    prediction has an entry in the ground truth and some video has a
    prediction, the call returns, and [rec_at_n[N]] is the number of hits
    among the top [N] ranked predictions of each scored video, added up,
    divided by the number of predictions of the scored videos (not by the
    number of ground-truth relations). *)
Theorem evaluate_on_predictions_recall
    (groundtruth : sdict (list relation))
    (prediction : sdict (list pred_relation)) :
  resolvable false groundtruth prediction ->
  (exists vid preds, In (vid, preds) prediction /\ preds <> []) ->
  let vs := evaluated_videos false groundtruth prediction in
  exists r,
    evaluate viou voc_ap thr default_det_nreturns default_tag_nreturns
             groundtruth prediction false = Ok r /\
    forall N, In N default_det_nreturns ->
      exists q, lookup Nat.eqb N (rec_at_n r) = Some q /\
        q == Qnat (hits_top viou thr N vs)
             / Qnat (list_sum (map (fun v => length (v_pred v)) vs)).
Proof.
  intros Hr (vid & preds & Hin & Hne) vs.
  assert (Hex : exists v, In v vs /\ v_pred v <> []).
  { exists {| v_id := vid; v_gt := lookup_list groundtruth vid; v_pred := preds |}.
    split; [|exact Hne]. unfold vs, evaluated_videos.
    apply (in_map (fun item => {| v_id := fst item;
                                  v_gt := lookup_list groundtruth (fst item);
                                  v_pred := snd item |}) _ (vid, preds)).
    apply filter_In. split; [exact Hin|].
    unfold nonempty. destruct preds; [congruence | reflexivity]. }
  exists (scores_of viou voc_ap thr false vs).
  split; [now apply evaluate_returns|].
  assert (Htot : (1 <= total false vs)%nat).
  { destruct Hex as (v & Hv & Hp).
    apply Nat.le_trans with (length (v_pred v)).
    - destruct (v_pred v); [congruence | simpl; lia].
    - unfold total. apply (list_sum_In (counted false) _ _ Hv). }
  intros N [<-|[<-|[]]]; eexists; (split; [reflexivity|]);
    now rewrite (Qmax_eps_nat Htot).
Qed.

End EvaluateOutcomes.

Lemma resolve_gt_filter gt pred :
  resolve_gt (filter nonempty gt) pred = resolve_gt gt pred.
Proof.
  induction gt as [|[vid rels] gt IH]; [reflexivity|].
  cbn [filter resolve_gt]. unfold nonempty at 1. cbn [snd].
  destruct (length rels =? 0)%nat eqn:E; cbn [negb]; [exact IH|].
  cbn [resolve_gt]. rewrite E, IH. reflexivity.
Qed.

Lemma resolve_pred_filter gt pred :
  resolve_pred gt (filter nonempty pred) = resolve_pred gt pred.
Proof.
  induction pred as [|[vid preds] pred IH]; [reflexivity|].
  cbn [filter resolve_pred]. unfold nonempty at 1. cbn [snd].
  destruct (length preds =? 0)%nat eqn:E; cbn [negb]; [exact IH|].
  cbn [resolve_pred]. rewrite E, IH. reflexivity.
Qed.

Section EvaluateBounds.

Variable viou : traj -> duration_t -> traj -> duration_t -> Q.
Variable voc_ap : list Q -> list Q -> Q.
Variable thr : Q.

Lemma pooled_ratio_bounds b N M vs :
  (N <= M)%nat ->
  0 <= Qnat (hits_top viou thr N vs) / Qmax (Qnat (total b vs)) eps /\
  Qnat (hits_top viou thr N vs) / Qmax (Qnat (total b vs)) eps
  <= Qnat (hits_top viou thr M vs) / Qmax (Qnat (total b vs)) eps /\
  Qnat (hits_top viou thr M vs) / Qmax (Qnat (total b vs)) eps <= 1.
Proof.
  intros H. split; [|split].
  - apply Qle_shift_div_l; [apply Qmax_eps_pos|].
    rewrite Qmult_0_l. apply Qnat_nonneg.
  - apply Qmult_le_compat_r; [apply Qnat_le, hits_top_mono, H|].
    apply Qinv_le_0_compat, Qlt_le_weak, Qmax_eps_pos.
  - apply Qle_shift_div_r; [apply Qmax_eps_pos|]. rewrite Qmult_1_l.
    apply Qle_trans with (Qnat (total b vs)); [|apply Q.le_max_l].
    apply Qnat_le, hits_top_le_total.
Qed.

(** X11.  Whenever [evaluate] returns, in either mode, [rec_at_n[50]] and
    [rec_at_n[100]] lie between 0 and 1 and [rec_at_n[50]] is not greater
    than [rec_at_n[100]]. *)
Theorem evaluate_recall_bounds (base_on_gt : bool)
    (groundtruth : sdict (list relation))
    (prediction : sdict (list pred_relation)) (r : scores_t) :
  evaluate viou voc_ap thr default_det_nreturns default_tag_nreturns
           groundtruth prediction base_on_gt = Ok r ->
  exists q50 q100,
    lookup Nat.eqb 50%nat (rec_at_n r) = Some q50 /\
    lookup Nat.eqb 100%nat (rec_at_n r) = Some q100 /\
    0 <= q50 /\ q50 <= q100 /\ q100 <= 1.
Proof.
  intros H. apply evaluate_returns_inv in H. destruct H as (_ & _ & ->).
  do 2 eexists. split; [reflexivity|]. split; [reflexivity|].
  apply pooled_ratio_bounds. lia.
Qed.

Lemma tag_prec_of_bounds v :
  Forall (fun p => 0 <= p /\ p <= 1) (tag_prec_of v).
Proof.
  unfold tag_prec_of. rewrite eval_tagging_scores_eq. cbn [fst].
  apply curves_bounds.
Qed.

(** X12.  Whenever [evaluate] returns, in either mode, [mprec_at_n[1]],
    [mprec_at_n[5]] and [mprec_at_n[10]] are numbers (not [nan]) between 0
    and 1. *)
Theorem evaluate_mprec_bounds (base_on_gt : bool)
    (groundtruth : sdict (list relation))
    (prediction : sdict (list pred_relation)) (r : scores_t) :
  evaluate viou voc_ap thr default_det_nreturns default_tag_nreturns
           groundtruth prediction base_on_gt = Ok r ->
  forall N, In N default_tag_nreturns ->
    exists q, lookup Nat.eqb N (mprec_at_n r) = Some (Num q) /\
              0 <= q /\ q <= 1.
Proof.
  intros H. apply evaluate_returns_inv in H.
  destruct H as (_ & (v & Hv & _) & ->).
  set (vs := evaluated_videos base_on_gt groundtruth prediction) in *.
  assert (Hm : forall N, exists q,
            np_mean (map (fun v => prec_at N (tag_prec_of v)) vs) = Num q /\
            0 <= q /\ q <= 1).
  { intros N. apply np_mean_bounds.
    - destruct vs; [destruct Hv | discriminate].
    - apply Forall_map, Forall_forall. intros w _.
      apply prec_at_bounds, tag_prec_of_bounds. }
  intros N [<-|[<-|[<-|[]]]]; cbn [scores_of mprec_at_n lookup Nat.eqb];
    match goal with
    | |- context [prec_at ?n] =>
        destruct (Hm n) as (q & -> & Hq); exists q; split; [reflexivity|exact Hq]
    end.
Qed.

(** X13.  A video whose list in the anchoring mapping is empty is skipped
    altogether: [evaluate] gives the same outcome, result or exception,
    with these videos removed from the mapping. *)
Theorem evaluate_skips_empty_lists
    (groundtruth : sdict (list relation))
    (prediction : sdict (list pred_relation)) :
  evaluate viou voc_ap thr default_det_nreturns default_tag_nreturns
           (filter nonempty groundtruth) prediction true
  = evaluate viou voc_ap thr default_det_nreturns default_tag_nreturns
             groundtruth prediction true /\
  evaluate viou voc_ap thr default_det_nreturns default_tag_nreturns
           groundtruth (filter nonempty prediction) false
  = evaluate viou voc_ap thr default_det_nreturns default_tag_nreturns
             groundtruth prediction false.
Proof.
  rewrite !evaluate_resolve. unfold resolve.
  now rewrite resolve_gt_filter, resolve_pred_filter.
Qed.

End EvaluateBounds.

(** Predictions for a video that the ground truth does not hold. *)
Lemma evaluate_missing_ground_truth_witness :
  In ("A"%string, Runs.pred_one_list) Runs.pred_one /\
  Runs.pred_one_list <> [] /\
  lookup String.eqb "A"%string
         [("B"%string, [Fixture.gt Fixture.t123 Fixture.d01])] = None /\
  evaluate Fixture.viou Fixture.voc_ap default_viou_threshold
           default_det_nreturns default_tag_nreturns
           [("B"%string, [Fixture.gt Fixture.t123 Fixture.d01])]
           Runs.pred_one false
  = Raise KeyError.
Proof.
  assert (H1 : In ("A"%string, Runs.pred_one_list) Runs.pred_one)
    by (left; reflexivity).
  assert (H2 : Runs.pred_one_list <> []) by discriminate.
  assert (H3 : lookup String.eqb "A"%string
                 [("B"%string, [Fixture.gt Fixture.t123 Fixture.d01])] = None)
    by reflexivity.
  split; [exact H1|]. split; [exact H2|]. split; [exact H3|].
  exact (@evaluate_missing_ground_truth Fixture.viou Fixture.voc_ap
           default_viou_threshold _ Runs.pred_one _ _ H1 H2 H3).
Defined.

(** One video with a ground-truth relation and an empty prediction list. *)
Lemma evaluate_no_prediction_at_all_witness :
  (exists vid rels, In (vid, rels) Runs.gt_one /\ rels <> []) /\
  (forall vid rels, In (vid, rels) Runs.gt_one -> rels <> [] ->
     lookup String.eqb vid [("A"%string, @nil pred_relation)] = Some []) /\
  evaluate Fixture.viou Fixture.voc_ap default_viou_threshold
           default_det_nreturns default_tag_nreturns
           Runs.gt_one [("A"%string, [])] true
  = Raise IndexError.
Proof.
  assert (H1 : exists vid rels, In (vid, rels) Runs.gt_one /\ rels <> []).
  { do 2 eexists. split; [left; reflexivity | discriminate]. }
  assert (H2 : forall vid rels, In (vid, rels) Runs.gt_one -> rels <> [] ->
            lookup String.eqb vid [("A"%string, @nil pred_relation)] = Some []).
  { intros vid rels [H|[]] _. inversion H; subst. reflexivity. }
  split; [exact H1|]. split; [exact H2|].
  exact (@evaluate_no_prediction_at_all Fixture.viou Fixture.voc_ap
           default_viou_threshold Runs.gt_one _ H1 H2).
Defined.

Lemma resolvable_one_on_predictions : resolvable false Runs.gt_one Runs.pred_one.
Proof.
  intros vid preds [H|[]] _. inversion H; subst. simpl. discriminate.
Defined.

(** One video with one prediction, scored from its predictions. *)
Lemma evaluate_on_predictions_recall_witness :
  resolvable false Runs.gt_one Runs.pred_one /\
  (exists vid preds, In (vid, preds) Runs.pred_one /\ preds <> []) /\
  let vs := evaluated_videos false Runs.gt_one Runs.pred_one in
  exists r,
    evaluate Fixture.viou Fixture.voc_ap default_viou_threshold
             default_det_nreturns default_tag_nreturns
             Runs.gt_one Runs.pred_one false = Ok r /\
    forall N, In N default_det_nreturns ->
      exists q, lookup Nat.eqb N (rec_at_n r) = Some q /\
        q == Qnat (hits_top Fixture.viou default_viou_threshold N vs)
             / Qnat (list_sum (map (fun v => length (v_pred v)) vs)).
Proof.
  assert (H2 : exists vid preds, In (vid, preds) Runs.pred_one /\ preds <> []).
  { do 2 eexists. split; [left; reflexivity | discriminate]. }
  split; [exact resolvable_one_on_predictions|]. split; [exact H2|].
  exact (@evaluate_on_predictions_recall Fixture.viou Fixture.voc_ap
           default_viou_threshold Runs.gt_one Runs.pred_one
           resolvable_one_on_predictions H2).
Defined.

Lemma evaluate_two_returns :
  evaluate Fixture.viou Fixture.voc_ap default_viou_threshold
           default_det_nreturns default_tag_nreturns
           Runs.gt_two Runs.pred_two true
  = Ok (scores_of Fixture.viou Fixture.voc_ap default_viou_threshold true
          (evaluated_videos true Runs.gt_two Runs.pred_two)).
Proof. apply evaluate_returns; [exact resolvable_two | exact has_prediction_two]. Qed.

(** The recalls of the run on the two videos of [Runs.gt_two]. *)
Lemma evaluate_recall_bounds_witness :
  let r := scores_of Fixture.viou Fixture.voc_ap default_viou_threshold true
             (evaluated_videos true Runs.gt_two Runs.pred_two) in
  evaluate Fixture.viou Fixture.voc_ap default_viou_threshold
           default_det_nreturns default_tag_nreturns
           Runs.gt_two Runs.pred_two true = Ok r /\
  exists q50 q100,
    lookup Nat.eqb 50%nat (rec_at_n r) = Some q50 /\
    lookup Nat.eqb 100%nat (rec_at_n r) = Some q100 /\
    0 <= q50 /\ q50 <= q100 /\ q100 <= 1.
Proof.
  split; [exact evaluate_two_returns|].
  exact (@evaluate_recall_bounds Fixture.viou Fixture.voc_ap
           default_viou_threshold true Runs.gt_two Runs.pred_two _
           evaluate_two_returns).
Defined.

(** The mean precisions of the run on the two videos of [Runs.gt_two]. *)
Lemma evaluate_mprec_bounds_witness :
  let r := scores_of Fixture.viou Fixture.voc_ap default_viou_threshold true
             (evaluated_videos true Runs.gt_two Runs.pred_two) in
  evaluate Fixture.viou Fixture.voc_ap default_viou_threshold
           default_det_nreturns default_tag_nreturns
           Runs.gt_two Runs.pred_two true = Ok r /\
  forall N, In N default_tag_nreturns ->
    exists q, lookup Nat.eqb N (mprec_at_n r) = Some (Num q) /\
              0 <= q /\ q <= 1.
Proof.
  split; [exact evaluate_two_returns|].
  exact (@evaluate_mprec_bounds Fixture.viou Fixture.voc_ap
           default_viou_threshold true Runs.gt_two Runs.pred_two _
           evaluate_two_returns).
Defined.

(** ** The outcomes of [evaluate_segs] *)

Section SegmentLoop.

Variable viou : traj -> duration_t -> traj -> duration_t -> Q.
Variable voc_ap : list Q -> list Q -> Q.
Variable thr : Q.
Variables dets tags : list nat.

Lemma ap_dict_app l1 l2 d :
  ap_dict viou voc_ap thr (l1 ++ l2) d
  = ap_dict viou voc_ap thr l2 (ap_dict viou voc_ap thr l1 d).
Proof. unfold ap_dict. apply fold_left_app. Qed.

(** What the inner loop over the segments of a video accumulates. *)
Lemma seg_inner_fields vid preds segs : forall st,
  let st' := seg_inner viou voc_ap thr dets tags vid preds segs st in
  let svs := segments_of {| v_id := vid; v_gt := segs; v_pred := preds |} in
  video_ap st' = ap_dict viou voc_ap thr svs (video_ap st) /\
  (forall N, dd_get (tot_scores st') N
     = dd_get (tot_scores st) N
       ++ flat_map (fun v => map (fun nre => firstn nre (det_scores viou thr v))
                                 (filter (Nat.eqb N) dets)) svs) /\
  (forall N, dd_get (tot_tp st') N
     = dd_get (tot_tp st) N
       ++ flat_map (fun v => map (fun nre => map isfinite (firstn nre (det_scores viou thr v)))
                                 (filter (Nat.eqb N) dets)) svs) /\
  (forall N, dd_get (prec_at_n st') N
     = dd_get (prec_at_n st) N
       ++ flat_map (fun v => map (fun nre => prec_at nre (tag_prec_of v))
                                 (filter (Nat.eqb N) tags)) svs) /\
  tot_relations st' = tot_relations st.
Proof.
  unfold segments_of. cbn [v_id v_gt v_pred].
  induction segs as [|seg segs IH]; intros st; cbv zeta.
  - simpl. repeat split; intros; now rewrite app_nil_r.
  - unfold seg_inner. cbn [fold_left map flat_map].
    fold (seg_inner viou voc_ap thr dets tags vid preds segs
            (score_video viou voc_ap thr dets tags st vid [seg] preds)).
    specialize (IH (score_video viou voc_ap thr dets tags st vid [seg] preds)).
    cbv zeta in IH. destruct IH as (H1 & H2 & H3 & H4 & H5).
    destruct (score_video_fields viou voc_ap thr dets tags st vid [seg] preds)
      as (F1 & F2 & F3 & F4 & F5).
    split; [rewrite H1, F1; reflexivity|].
    split; [intros N; rewrite H2, F2, dd_get_fold, <- app_assoc; reflexivity|].
    split; [intros N; rewrite H3, F3, dd_get_fold, <- app_assoc; reflexivity|].
    split; [intros N; rewrite H4, F4, dd_get_fold, <- app_assoc; reflexivity|].
    rewrite H5, F5. reflexivity.
Qed.

(** What the outer loop accumulates over the videos it scores. *)
Lemma seg_fold_fields vs : forall st,
  let st' := fold_left (seg_one viou voc_ap thr dets tags) vs st in
  let svs := flat_map segments_of vs in
  video_ap st' = ap_dict viou voc_ap thr svs (video_ap st) /\
  (forall N, dd_get (tot_scores st') N
     = dd_get (tot_scores st) N
       ++ flat_map (fun v => map (fun nre => firstn nre (det_scores viou thr v))
                                 (filter (Nat.eqb N) dets)) svs) /\
  (forall N, dd_get (tot_tp st') N
     = dd_get (tot_tp st) N
       ++ flat_map (fun v => map (fun nre => map isfinite (firstn nre (det_scores viou thr v)))
                                 (filter (Nat.eqb N) dets)) svs) /\
  (forall N, dd_get (prec_at_n st') N
     = dd_get (prec_at_n st) N
       ++ flat_map (fun v => map (fun nre => prec_at nre (tag_prec_of v))
                                 (filter (Nat.eqb N) tags)) svs) /\
  tot_relations st' = (tot_relations st + total false vs)%nat.
Proof.
  induction vs as [|v vs IH]; intros st; cbv zeta.
  - simpl. repeat split; intros; try now rewrite app_nil_r.
    unfold total. simpl. lia.
  - cbn [fold_left flat_map].
    specialize (IH (seg_one viou voc_ap thr dets tags st v)).
    cbv zeta in IH. destruct IH as (H1 & H2 & H3 & H4 & H5).
    destruct (seg_inner_fields (v_id v) (v_pred v) (v_gt v)
                (count_relations st (length (v_pred v))))
      as (F1 & F2 & F3 & F4 & F5).
    fold (seg_one viou voc_ap thr dets tags st v) in F1, F2, F3, F4, F5.
    replace {| v_id := v_id v; v_gt := v_gt v; v_pred := v_pred v |}
      with v in * by (now destruct v).
    cbn [count_relations video_ap tot_scores tot_tp prec_at_n tot_relations]
      in F1, F2, F3, F4, F5.
    split; [rewrite H1, F1, ap_dict_app; reflexivity|].
    split; [intros N; rewrite H2, F2, flat_map_app, <- app_assoc; reflexivity|].
    split; [intros N; rewrite H3, F3, flat_map_app, <- app_assoc; reflexivity|].
    split; [intros N; rewrite H4, F4, flat_map_app, <- app_assoc; reflexivity|].
    rewrite H5, F5.
    change (total false (v :: vs))
      with (length (v_pred v) + total false vs)%nat. lia.
Qed.

Lemma seg_loop_raise gt l e :
  fold_left (seg_step viou voc_ap thr dets tags gt) l (Raise e) = Raise e.
Proof. induction l; simpl; auto. Qed.

(** The outer loop does the lookups of the prediction-anchored loop of
    [evaluate], in the same order. *)
Lemma seg_loop_resolve gt pred : forall st,
  fold_left (seg_step viou voc_ap thr dets tags gt) pred (Ok st)
  = vs <- resolve_pred gt pred ;;
    Ok (fold_left (seg_one viou voc_ap thr dets tags) vs st).
Proof.
  induction pred as [|[vid preds] pred IH]; intros st; [reflexivity|].
  cbn [fold_left resolve_pred]. unfold seg_step at 2. cbn [bind].
  destruct (length preds =? 0)%nat; [apply IH|].
  unfold getitem. destruct (lookup String.eqb vid gt) as [rels|]; cbn [bind].
  - rewrite IH. destruct (resolve_pred gt pred); reflexivity.
  - apply seg_loop_raise.
Qed.

End SegmentLoop.

Section SegmentResult.

Variable viou : traj -> duration_t -> traj -> duration_t -> Q.
Variable voc_ap : list Q -> list Q -> Q.
Variable thr : Q.

Let dets := default_det_nreturns.
Let tags := default_tag_nreturns.

(** The statements after the loop, on a state that holds the scores of
    the rounds [svs]. *)
Lemma finish_pooled st svs :
  (forall N, In N dets -> dd_get (tot_scores st) N = pool viou thr N svs) ->
  (forall N, In N dets ->
     dd_get (tot_tp st) N = map (map isfinite) (pool viou thr N svs)) ->
  (forall N, In N tags ->
     dd_get (prec_at_n st) N = map (fun v => prec_at N (tag_prec_of v)) svs) ->
  finish dets tags st
  = match svs with
    | [] => Raise ValueError
    | _ =>
        r50 <- match concat (pool viou thr 50 svs) with
               | [] => Raise IndexError
               | _ => Ok (Qnat (hits_top viou thr 50 svs)
                          / Qmax (Qnat (tot_relations st)) eps)
               end ;;
        r100 <- match concat (pool viou thr 100 svs) with
                | [] => Raise IndexError
                | _ => Ok (Qnat (hits_top viou thr 100 svs)
                           / Qmax (Qnat (tot_relations st)) eps)
                end ;;
        Ok {| mean_ap := np_mean (values (video_ap st));
              rec_at_n := [(50%nat, r50); (100%nat, r100)];
              mprec_at_n :=
                [(1%nat, np_mean (map (fun v => prec_at 1 (tag_prec_of v)) svs));
                 (5%nat, np_mean (map (fun v => prec_at 5 (tag_prec_of v)) svs));
                 (10%nat, np_mean (map (fun v => prec_at 10 (tag_prec_of v)) svs))] |}
    end.
Proof.
  intros Hs Ht Hp. rewrite finish_defaults.
  rewrite !Hs, !Ht, !Hp by (unfold dets, tags; simpl; auto 6).
  rewrite !recall_at_pooled.
  destruct svs as [|v svs']; [reflexivity|].
  set (l := v :: svs') in *. rewrite !hits_top_pool. reflexivity.
Qed.

Lemma seg_fold_pooled vs :
  let st := fold_left (seg_one viou voc_ap thr dets tags) vs accum_init in
  let svs := flat_map segments_of vs in
  video_ap st = ap_dict viou voc_ap thr svs [] /\
  tot_relations st = total false vs /\
  (forall N, In N dets -> dd_get (tot_scores st) N = pool viou thr N svs) /\
  (forall N, In N dets ->
     dd_get (tot_tp st) N = map (map isfinite) (pool viou thr N svs)) /\
  (forall N, In N tags ->
     dd_get (prec_at_n st) N = map (fun v => prec_at N (tag_prec_of v)) svs).
Proof.
  cbv zeta.
  destruct (seg_fold_fields viou voc_ap thr dets tags vs accum_init)
    as (H1 & H2 & H3 & H4 & H5).
  split; [exact H1|]. split; [exact H5|]. split; [|split].
  - intros N HN. rewrite H2. simpl dd_get. simpl app.
    destruct HN as [<-|[<-|[]]]; simpl filter; simpl map;
      apply flat_map_single.
  - intros N HN. rewrite H3. simpl dd_get. simpl app. unfold pool.
    rewrite map_map.
    destruct HN as [<-|[<-|[]]]; simpl filter; simpl map;
      apply flat_map_single.
  - intros N HN. rewrite H4. simpl dd_get. simpl app.
    destruct HN as [<-|[<-|[<-|[]]]]; simpl filter; simpl map;
      apply flat_map_single.
Qed.

Lemma evaluate_segs_resolve gt pred :
  evaluate_segs viou voc_ap thr dets tags gt pred false
  = vs <- resolve_pred gt pred ;;
    finish dets tags (fold_left (seg_one viou voc_ap thr dets tags) vs accum_init).
Proof.
  unfold evaluate_segs, seg_loop. cbn [negb]. rewrite seg_loop_resolve.
  destruct (resolve_pred gt pred); reflexivity.
Qed.

Lemma segments_pred_nonempty vs :
  (forall v, In v vs -> v_pred v <> []) ->
  forall s, In s (flat_map segments_of vs) -> v_pred s <> [].
Proof.
  intros H s Hs. apply in_flat_map in Hs. destruct Hs as (v & Hv & Hs).
  unfold segments_of in Hs. apply in_map_iff in Hs.
  destruct Hs as (seg & <- & _). cbn [v_pred]. auto.
Qed.

Lemma segments_nonempty vs :
  (exists v, In v vs /\ v_gt v <> []) ->
  exists s, In s (flat_map segments_of vs).
Proof.
  intros (v & Hv & Hg). destruct (v_gt v) as [|seg segs] eqn:E; [congruence|].
  exists {| v_id := v_id v; v_gt := [seg]; v_pred := v_pred v |}.
  apply in_flat_map. exists v. split; [exact Hv|].
  unfold segments_of. rewrite E. left. reflexivity.
Qed.

Lemma segments_none vs :
  (forall v, In v vs -> v_gt v = []) -> flat_map segments_of vs = [].
Proof.
  induction vs as [|v vs IH]; intros H; [reflexivity|].
  cbn [flat_map]. unfold segments_of at 1. rewrite (H v) by (left; reflexivity).
  simpl. apply IH. intros w Hw. apply H. right. exact Hw.
Qed.

Lemma segments_single vs :
  (forall v, In v vs -> length (v_gt v) = 1%nat) -> flat_map segments_of vs = vs.
Proof.
  induction vs as [|v vs IH]; intros H; [reflexivity|].
  cbn [flat_map]. rewrite IH by (intros w Hw; apply H; right; exact Hw).
  assert (Hv := H v (or_introl eq_refl)).
  destruct v as [vid g p]. cbn [v_gt] in Hv. unfold segments_of. cbn [v_id v_gt v_pred].
  destruct g as [|seg [|]]; try discriminate. reflexivity.
Qed.

(** X14.  [evaluate_segs] with [base_on_gt=False], when every video with a
    prediction has an entry in the ground truth and one of them has a
    segment: the call returns.  With a round for each pair of a scored
    video and one of its segments, [rec_at_n[N]] is the number of hits
    among the top [N] ranks of every round, added up, divided by the
    number of predictions of the scored videos, each video counted once;
    [mprec_at_n[N]] is the mean over the rounds of the tagging precision
    at rank [min(N, size)]; [mean_ap] is the mean of the values left in
    [seg_ap]. *)
Theorem evaluate_segs_on_predictions
    (groundtruth : sdict (list relation))
    (prediction : sdict (list pred_relation)) :
  resolvable false groundtruth prediction ->
  (exists v, In v (evaluated_videos false groundtruth prediction) /\
             v_gt v <> []) ->
  let vs := evaluated_videos false groundtruth prediction in
  let svs := evaluated_segments groundtruth prediction in
  exists r,
    evaluate_segs viou voc_ap thr default_det_nreturns default_tag_nreturns
                  groundtruth prediction false = Ok r /\
    mean_ap r = np_mean (values (ap_dict viou voc_ap thr svs [])) /\
    (forall N, In N default_det_nreturns ->
       exists q, lookup Nat.eqb N (rec_at_n r) = Some q /\
         q == Qnat (hits_top viou thr N svs)
              / Qnat (list_sum (map (fun v => length (v_pred v)) vs))) /\
    (forall N, In N default_tag_nreturns ->
       lookup Nat.eqb N (mprec_at_n r)
       = Some (np_mean (map (fun v => prec_at N (tag_prec_of v)) svs))).
Proof.
  intros Hr Hex. cbv zeta. unfold evaluated_segments.
  fold dets tags. rewrite evaluate_segs_resolve.
  rewrite (@resolve_pred_ok groundtruth prediction Hr). cbn [bind].
  set (vs := evaluated_videos false groundtruth prediction) in *.
  destruct (seg_fold_pooled vs) as (H1 & H5 & Hs & Ht & Hp).
  destruct (@segments_nonempty vs Hex) as (s & Hin).
  set (svs := flat_map segments_of vs) in *.
  rewrite (@finish_pooled _ _ Hs Ht Hp), H1, H5.
  assert (Hne : forall s, In s svs -> v_pred s <> []).
  { apply segments_pred_nonempty. intros v Hv.
    apply (@evaluated_pred_nonempty groundtruth prediction v Hv). }
  assert (Hx : exists v, In v svs /\ v_pred v <> []) by (exists s; auto).
  assert (H50 := @pool_nonempty viou thr 50 svs ltac:(lia) Hx).
  assert (H100 := @pool_nonempty viou thr 100 svs ltac:(lia) Hx).
  assert (Htot : (1 <= total false vs)%nat).
  { destruct Hex as (v & Hv & _).
    apply Nat.le_trans with (length (v_pred v)).
    - assert (Hp' := @evaluated_pred_nonempty groundtruth prediction v Hv).
      destruct (v_pred v); [congruence | simpl; lia].
    - unfold total. apply (list_sum_In (counted false) _ _ Hv). }
  destruct svs as [|s0 svs0] eqn:E; [destruct Hin|]. rewrite <- E in *.
  destruct (concat (pool viou thr 50 svs)); [congruence|].
  destruct (concat (pool viou thr 100 svs)); [congruence|].
  cbn [bind]. eexists. split; [reflexivity|].
  cbn [mean_ap rec_at_n mprec_at_n]. split; [reflexivity|]. split.
  - intros N [<-|[<-|[]]]; eexists; (split; [reflexivity|]);
      now rewrite (Qmax_eps_nat Htot).
  - intros N [<-|[<-|[<-|[]]]]; reflexivity.
Qed.

(** X15.  In [evaluate_segs] with [base_on_gt=False], a video that has at
    least one prediction and no entry in the ground truth makes the lookup
    [groundtruth[vid]] fail: the call raises [KeyError]. *)
Theorem evaluate_segs_missing_ground_truth
    (groundtruth : sdict (list relation))
    (prediction : sdict (list pred_relation))
    (vid : string) (preds : list pred_relation) :
  In (vid, preds) prediction -> preds <> [] ->
  lookup String.eqb vid groundtruth = None ->
  evaluate_segs viou voc_ap thr default_det_nreturns default_tag_nreturns
                groundtruth prediction false
  = Raise KeyError.
Proof.
  intros Hin Hne Hl. fold dets tags. rewrite evaluate_segs_resolve.
  now rewrite (@resolve_pred_missing groundtruth prediction vid preds Hin Hne Hl).
Qed.

(** X16.  In [evaluate_segs] with [base_on_gt=False], when every video with
    a prediction has an entry in the ground truth and each of these entries
    is an empty list, no round is run and the call raises [ValueError]:
    [np.concatenate] gets an empty list. *)
Theorem evaluate_segs_no_segment
    (groundtruth : sdict (list relation))
    (prediction : sdict (list pred_relation)) :
  (forall vid preds, In (vid, preds) prediction -> preds <> [] ->
     lookup String.eqb vid groundtruth = Some []) ->
  evaluate_segs viou voc_ap thr default_det_nreturns default_tag_nreturns
                groundtruth prediction false
  = Raise ValueError.
Proof.
  intros H. fold dets tags. rewrite evaluate_segs_resolve.
  assert (Hr : resolvable false groundtruth prediction).
  { intros vid preds Hin Hne. rewrite (H vid preds Hin Hne). discriminate. }
  rewrite (@resolve_pred_ok groundtruth prediction Hr). cbn [bind].
  set (vs := evaluated_videos false groundtruth prediction).
  destruct (seg_fold_pooled vs) as (_ & _ & Hs & Ht & Hp).
  rewrite (@finish_pooled _ _ Hs Ht Hp).
  rewrite segments_none; [reflexivity|].
  intros v Hv. unfold vs, evaluated_videos in Hv. apply in_map_iff in Hv.
  destruct Hv as ([vid preds] & <- & Hf). apply filter_In in Hf.
  destruct Hf as [Hin Hn]. cbn [v_gt fst snd] in *.
  unfold lookup_list. rewrite (H vid preds Hin); [reflexivity|].
  unfold nonempty in Hn. destruct preds; [discriminate | congruence].
Qed.

(** X17.  When the ground truth of every video with a prediction is a
    single segment, [evaluate_segs] and [evaluate], both with
    [base_on_gt=False], give the same outcome: the same result or the same
    exception. *)
Theorem evaluate_segs_single_segments
    (groundtruth : sdict (list relation))
    (prediction : sdict (list pred_relation)) :
  (forall vid preds, In (vid, preds) prediction -> preds <> [] ->
     forall rels, lookup String.eqb vid groundtruth = Some rels ->
       length rels = 1%nat) ->
  evaluate_segs viou voc_ap thr default_det_nreturns default_tag_nreturns
                groundtruth prediction false
  = evaluate viou voc_ap thr default_det_nreturns default_tag_nreturns
             groundtruth prediction false.
Proof.
  intros H. fold dets tags. rewrite evaluate_segs_resolve, evaluate_resolve.
  destruct (resolve_cases false groundtruth prediction) as [[Hr E]|[_ E]];
    unfold resolve in E |- *; rewrite E; [|reflexivity].
  cbn [bind]. set (vs := evaluated_videos false groundtruth prediction).
  assert (Hone : flat_map segments_of vs = vs).
  { apply segments_single. intros v Hv.
    unfold vs, evaluated_videos in Hv. apply in_map_iff in Hv.
    destruct Hv as ([vid preds] & <- & Hf). apply filter_In in Hf.
    destruct Hf as [Hin Hn]. cbn [v_gt fst snd] in *.
    assert (Hne : preds <> []).
    { unfold nonempty in Hn. destruct preds; [discriminate | congruence]. }
    assert (Hl := Hr vid preds Hin Hne). unfold lookup_list.
    destruct (lookup String.eqb vid groundtruth) as [rels|] eqn:El;
      [|congruence].
    exact (H vid preds Hin Hne rels El). }
  destruct (seg_fold_pooled vs) as (H1 & H5 & Hs & Ht & Hp).
  rewrite Hone in H1, Hs, Ht, Hp.
  rewrite (@finish_pooled _ _ Hs Ht Hp), H1, H5.
  rewrite finish_scored. unfold pooled_recall. reflexivity.
Qed.

End SegmentResult.

Lemma resolvable_segs_on_predictions :
  resolvable false Runs.gt_segs Runs.pred_one.
Proof.
  intros vid preds [H|[]] _. inversion H; subst. simpl. discriminate.
Defined.

Lemma segs_has_segment :
  exists v, In v (evaluated_videos false Runs.gt_segs Runs.pred_one) /\
            v_gt v <> [].
Proof.
  eexists. split; [left; reflexivity | discriminate].
Defined.

(** One video with two segments and one prediction. *)
Lemma evaluate_segs_on_predictions_witness :
  resolvable false Runs.gt_segs Runs.pred_one /\
  (exists v, In v (evaluated_videos false Runs.gt_segs Runs.pred_one) /\
             v_gt v <> []) /\
  let vs := evaluated_videos false Runs.gt_segs Runs.pred_one in
  let svs := evaluated_segments Runs.gt_segs Runs.pred_one in
  exists r,
    evaluate_segs Fixture.viou Fixture.voc_ap default_viou_threshold
                  default_det_nreturns default_tag_nreturns
                  Runs.gt_segs Runs.pred_one false = Ok r /\
    mean_ap r
    = np_mean (values (ap_dict Fixture.viou Fixture.voc_ap
                               default_viou_threshold svs [])) /\
    (forall N, In N default_det_nreturns ->
       exists q, lookup Nat.eqb N (rec_at_n r) = Some q /\
         q == Qnat (hits_top Fixture.viou default_viou_threshold N svs)
              / Qnat (list_sum (map (fun v => length (v_pred v)) vs))) /\
    (forall N, In N default_tag_nreturns ->
       lookup Nat.eqb N (mprec_at_n r)
       = Some (np_mean (map (fun v => prec_at N (tag_prec_of v)) svs))).
Proof.
  split; [exact resolvable_segs_on_predictions|].
  split; [exact segs_has_segment|].
  exact (@evaluate_segs_on_predictions Fixture.viou Fixture.voc_ap
           default_viou_threshold Runs.gt_segs Runs.pred_one
           resolvable_segs_on_predictions segs_has_segment).
Defined.

(** Predictions for a video that the ground truth does not hold. *)
Lemma evaluate_segs_missing_ground_truth_witness :
  In ("A"%string, Runs.pred_one_list) Runs.pred_one /\
  Runs.pred_one_list <> [] /\
  lookup String.eqb "A"%string
         [("B"%string, [Fixture.gt Fixture.t123 Fixture.d01])] = None /\
  evaluate_segs Fixture.viou Fixture.voc_ap default_viou_threshold
                default_det_nreturns default_tag_nreturns
                [("B"%string, [Fixture.gt Fixture.t123 Fixture.d01])]
                Runs.pred_one false
  = Raise KeyError.
Proof.
  assert (H1 : In ("A"%string, Runs.pred_one_list) Runs.pred_one)
    by (left; reflexivity).
  assert (H2 : Runs.pred_one_list <> []) by discriminate.
  assert (H3 : lookup String.eqb "A"%string
                 [("B"%string, [Fixture.gt Fixture.t123 Fixture.d01])] = None)
    by reflexivity.
  split; [exact H1|]. split; [exact H2|]. split; [exact H3|].
  exact (@evaluate_segs_missing_ground_truth Fixture.viou Fixture.voc_ap
           default_viou_threshold _ Runs.pred_one _ _ H1 H2 H3).
Defined.

(** One video with a prediction and an empty ground-truth list. *)
Lemma evaluate_segs_no_segment_witness :
  (forall vid preds, In (vid, preds) Runs.pred_one -> preds <> [] ->
     lookup String.eqb vid [("A"%string, @nil relation)] = Some []) /\
  evaluate_segs Fixture.viou Fixture.voc_ap default_viou_threshold
                default_det_nreturns default_tag_nreturns
                [("A"%string, [])] Runs.pred_one false
  = Raise ValueError.
Proof.
  assert (H : forall vid preds, In (vid, preds) Runs.pred_one -> preds <> [] ->
            lookup String.eqb vid [("A"%string, @nil relation)] = Some []).
  { intros vid preds [E|[]] _. inversion E; subst. reflexivity. }
  split; [exact H|].
  exact (@evaluate_segs_no_segment Fixture.viou Fixture.voc_ap
           default_viou_threshold _ Runs.pred_one H).
Defined.

(** One video with one segment and one prediction. *)
Lemma evaluate_segs_single_segments_witness :
  (forall vid preds, In (vid, preds) Runs.pred_one -> preds <> [] ->
     forall rels, lookup String.eqb vid Runs.gt_one = Some rels ->
       length rels = 1%nat) /\
  evaluate_segs Fixture.viou Fixture.voc_ap default_viou_threshold
                default_det_nreturns default_tag_nreturns
                Runs.gt_one Runs.pred_one false
  = evaluate Fixture.viou Fixture.voc_ap default_viou_threshold
             default_det_nreturns default_tag_nreturns
             Runs.gt_one Runs.pred_one false.
Proof.
  assert (H : forall vid preds, In (vid, preds) Runs.pred_one -> preds <> [] ->
            forall rels, lookup String.eqb vid Runs.gt_one = Some rels ->
              length rels = 1%nat).
  { intros vid preds [E|[]] _ rels Hl. inversion E; subst.
    simpl in Hl. inversion Hl. reflexivity. }
  split; [exact H|].
  exact (@evaluate_segs_single_segments Fixture.viou Fixture.voc_ap
           default_viou_threshold Runs.gt_one Runs.pred_one H).
Defined.

(** A ground truth whose only list is empty. *)
Lemma evaluate_nothing_scored_witness :
  Forall (fun item : string * list relation => snd item = [])
         [("A"%string, [])] /\
  evaluate Fixture.viou Fixture.voc_ap default_viou_threshold
           default_det_nreturns default_tag_nreturns
           [("A"%string, [])] Runs.pred_one true
  = Raise ValueError.
Proof.
  assert (H : Forall (fun item : string * list relation => snd item = [])
                [("A"%string, [])])
    by (constructor; [reflexivity | constructor]).
  split; [exact H|].
  exact (proj1 (@evaluate_nothing_scored Fixture.viou Fixture.voc_ap
                  default_viou_threshold _ Runs.pred_one) H).
Defined.

(** ** The inputs of the zero-shot pass *)

Lemma lookup_dict_set {V} (d : sdict V) k v k' :
  lookup String.eqb k' (dict_set String.eqb d k v)
  = if String.eqb k' k then Some v else lookup String.eqb k' d.
Proof.
  induction d as [|[k0 v0] d IH]; simpl.
  - destruct (String.eqb k' k); reflexivity.
  - destruct (String.eqb k k0) eqn:E; simpl.
    + apply String.eqb_eq in E. subst k0.
      destruct (String.eqb k' k); reflexivity.
    + destruct (String.eqb k' k0) eqn:E'.
      * apply String.eqb_eq in E'. subst k0.
        rewrite String.eqb_sym, E. reflexivity.
      * exact IH.
Qed.

Lemma keys_dict_set {V W} (d : sdict V) (d' : sdict W) k v w :
  keys d = keys d' ->
  keys (dict_set String.eqb d k v) = keys (dict_set String.eqb d' k w).
Proof.
  revert d'. induction d as [|[k0 v0] d IH]; intros [|[k1 w1] d'] H;
    try discriminate; [reflexivity|].
  simpl in H. injection H as -> H. simpl.
  destruct (String.eqb k k1); simpl; [now rewrite H|].
  now rewrite (IH d' H).
Qed.

Lemma keys_dict_set_In {V} (d : sdict V) k v k' :
  In k' (keys (dict_set String.eqb d k v)) -> k' = k \/ In k' (keys d).
Proof.
  unfold keys. rewrite in_map_iff. intros ([k0 v0] & <- & H).
  apply In_dict_set in H. destruct H as [H|H].
  - inversion H. auto.
  - right. apply (in_map fst _ _ H).
Qed.

Lemma NoDup_dict_set {V} (d : sdict V) k v :
  NoDup (keys d) -> NoDup (keys (dict_set String.eqb d k v)).
Proof.
  induction d as [|[k0 v0] d IH]; simpl; intros H.
  - constructor; [intros [] | constructor].
  - inversion H as [|? ? Hn Hd]; subst.
    destruct (String.eqb k k0) eqn:E; simpl.
    + apply String.eqb_eq in E. subst k0. constructor; assumption.
    + constructor; [|auto]. intros Hin.
      apply keys_dict_set_In in Hin. destruct Hin as [->|Hin]; [|tauto].
      rewrite String.eqb_refl in E. discriminate.
Qed.

Lemma keys_In_lookup {V} (d : sdict V) k :
  In k (keys d) -> lookup String.eqb k d <> None.
Proof.
  induction d as [|[k0 v0] d IH]; simpl; [tauto|].
  intros [->|H].
  - rewrite String.eqb_refl. discriminate.
  - destruct (String.eqb k k0); [discriminate | auto].
Qed.

Lemma filter_none {A} (f : A -> bool) (l : list A) :
  (forall x, In x l -> f x = false) -> filter f l = [].
Proof.
  induction l as [|x l IH]; intros H; [reflexivity|].
  simpl. rewrite (H x) by (left; reflexivity).
  apply IH. intros y Hy. apply H. right. exact Hy.
Qed.

(** The ground truth of [evaluate_relation] holds, for each video of the
    index, the instances of that video. *)
Lemma fold_dict_set_lookup {V} (f : string -> V) l : forall d vid,
  lookup String.eqb vid (fold_left (fun d vid => dict_set String.eqb d vid (f vid)) l d)
  = if existsb (String.eqb vid) l then Some (f vid) else lookup String.eqb vid d.
Proof.
  induction l as [|x l IH]; intros d vid; [reflexivity|].
  cbn [fold_left existsb]. rewrite IH, lookup_dict_set.
  destruct (String.eqb vid x) eqn:E; cbn [orb].
  - apply String.eqb_eq in E. subst x.
    destruct (existsb (String.eqb vid) l); reflexivity.
  - reflexivity.
Qed.

Lemma fold_dict_set_NoDup {V} (f : string -> V) l : forall d,
  NoDup (keys d) ->
  NoDup (keys (fold_left (fun d vid => dict_set String.eqb d vid (f vid)) l d)).
Proof.
  induction l as [|x l IH]; intros d H; [exact H|].
  cbn [fold_left]. apply IH, NoDup_dict_set, H.
Qed.

Section ZeroShotInputs.

Variable ds : dataset.
Variable prediction : sdict (list pred_relation).
Variable zs : list triplet_t.

Lemma zs_fold_raise l e :
  fold_left (zs_step ds zs prediction) l (Raise e) = Raise e.
Proof. induction l; simpl; auto. Qed.

(** The two mappings grow in step, one entry per video with a retained
    ground-truth instance. *)
Lemma zs_fold_shape l : forall g p g' p',
  keys g = keys p -> NoDup (keys g) ->
  Forall (fun item : string * list relation => snd item <> []) g ->
  fold_left (zs_step ds zs prediction) l (Ok (g, p)) = Ok (g', p') ->
  keys g' = keys p' /\ NoDup (keys g') /\
  Forall (fun item : string * list relation => snd item <> []) g'.
Proof.
  induction l as [|vid l IH]; intros g p g' p' Hk Hn Hf H.
  - simpl in H. inversion H; subst. auto.
  - cbn [fold_left] in H. unfold zs_step at 2 in H. cbn [bind] in H.
    destruct (0 <? length _)%nat eqn:E in H; [|eapply IH; eauto].
    unfold getitem in H.
    destruct (lookup String.eqb vid prediction) as [preds|]; cbn [bind] in H;
      [|rewrite zs_fold_raise in H; discriminate].
    eapply IH in H; [exact H| | |].
    + apply keys_dict_set, Hk.
    + apply NoDup_dict_set, Hn.
    + apply Forall_forall. intros item Hin.
      apply In_dict_set in Hin. destruct Hin as [->|Hin].
      * cbn [snd]. apply Nat.ltb_lt in E. intros E'. rewrite E' in E.
        simpl in E. lia.
      * rewrite Forall_forall in Hf. auto.
Qed.

(** The loop gets through when every video with a retained ground-truth
    instance has an entry in the predictions. *)
Lemma zs_fold_returns l : forall st,
  (forall vid, In vid l ->
     filter (fun r => triplet_in (triplet r) zs) (get_relation_insts ds vid) <> [] ->
     lookup String.eqb vid prediction <> None) ->
  exists st', fold_left (zs_step ds zs prediction) l (Ok st) = Ok st'.
Proof.
  induction l as [|vid l IH]; intros st H; [simpl; eauto|].
  cbn [fold_left]. unfold zs_step at 2. cbn [bind]. destruct st as [g p].
  destruct (0 <? length _)%nat eqn:E.
  - unfold getitem.
    destruct (lookup String.eqb vid prediction) eqn:El.
    + cbn [bind]. apply IH. intros v Hv. apply H. right. exact Hv.
    + exfalso. apply (H vid); [left; reflexivity | | exact El].
      apply Nat.ltb_lt in E. intros E'. rewrite E' in E. simpl in E. lia.
  - apply IH. intros v Hv. apply H. right. exact Hv.
Qed.

Lemma zs_fold_missing l vid : forall st,
  In vid l ->
  filter (fun r => triplet_in (triplet r) zs) (get_relation_insts ds vid) <> [] ->
  lookup String.eqb vid prediction = None ->
  fold_left (zs_step ds zs prediction) l (Ok st) = Raise KeyError.
Proof.
  induction l as [|x l IH]; intros st Hin Hne Hl; [destruct Hin|].
  cbn [fold_left]. unfold zs_step at 2. cbn [bind]. destruct st as [g p].
  destruct (String.eqb x vid) eqn:Ex.
  - apply String.eqb_eq in Ex. subst x.
    destruct (filter _ (get_relation_insts ds vid)) as [|r rs] eqn:Ef;
      [congruence|].
    cbn [length Nat.ltb Nat.leb]. unfold getitem. rewrite Hl. cbn [bind].
    apply zs_fold_raise.
  - assert (Hin' : In vid l).
    { destruct Hin as [->|Hin]; [|exact Hin].
      rewrite String.eqb_refl in Ex. discriminate. }
    destruct (0 <? length _)%nat; [|now apply IH].
    unfold getitem. destruct (lookup String.eqb x prediction); cbn [bind].
    + now apply IH.
    + apply zs_fold_raise.
Qed.

End ZeroShotInputs.

Section ZeroShotPass.

Variable viou : traj -> duration_t -> traj -> duration_t -> Q.
Variable voc_ap : list Q -> list Q -> Q.
Variable thr : Q.
Variable ds : dataset.
Variable split : string.
Variable prediction : sdict (list pred_relation).

(** X18.  When the zero-shot loop of [evaluate_relation] gets through, its
    two mappings have the same videos in the same order, each once, and
    every ground-truth list is non-empty.  So [evaluate] with
    [base_on_gt=True] on them finds every prediction entry it looks up: it
    returns, or raises [ValueError] or [IndexError], never [KeyError]. *)
Theorem zero_shot_inputs_well_formed
    (groundtruth : sdict (list relation))
    (zs_prediction : sdict (list pred_relation)) :
  zero_shot_inputs ds split prediction = Ok (groundtruth, zs_prediction) ->
  keys groundtruth = keys zs_prediction /\
  NoDup (keys groundtruth) /\
  Forall (fun item : string * list relation => snd item <> []) groundtruth /\
  resolvable true groundtruth zs_prediction /\
  ((exists r,
      evaluate viou voc_ap thr default_det_nreturns default_tag_nreturns
               groundtruth zs_prediction true = Ok r) \/
   evaluate viou voc_ap thr default_det_nreturns default_tag_nreturns
            groundtruth zs_prediction true = Raise ValueError \/
   evaluate viou voc_ap thr default_det_nreturns default_tag_nreturns
            groundtruth zs_prediction true = Raise IndexError).
Proof.
  intros H. unfold zero_shot_inputs in H.
  apply zs_fold_shape in H; [|reflexivity | constructor | constructor].
  destruct H as (Hk & Hn & Hf).
  assert (Hr : resolvable true groundtruth zs_prediction).
  { intros vid rels Hin _. apply keys_In_lookup. rewrite <- Hk.
    apply (in_map fst _ _ Hin). }
  split; [exact Hk|]. split; [exact Hn|]. split; [exact Hf|].
  split; [exact Hr|].
  rewrite evaluate_resolve.
  destruct (resolve_cases true groundtruth zs_prediction) as [[_ ->]|[Hc _]];
    [|contradiction].
  cbn [bind]. rewrite finish_scored.
  destruct (evaluated_videos true groundtruth zs_prediction) as [|v vs];
    [right; left; reflexivity|].
  unfold pooled_recall.
  destruct (concat (pool viou thr 50 (v :: vs)));
    [right; right; reflexivity|].
  destruct (concat (pool viou thr 100 (v :: vs)));
    [right; right; reflexivity|].
  left. eexists. reflexivity.
Qed.

(** X19.  In the zero-shot loop of [evaluate_relation], a video of the
    split that has a ground-truth instance with a zero-shot triplet and no
    entry in the predictions makes the lookup [prediction[vid]] fail: the
    loop raises [KeyError]. *)
Theorem zero_shot_inputs_missing_prediction (vid : string) :
  In vid (get_index ds split) ->
  filter (fun r => triplet_in (triplet r) (zeroshot_triplets_of ds split))
         (get_relation_insts ds vid) <> [] ->
  lookup String.eqb vid prediction = None ->
  zero_shot_inputs ds split prediction = Raise KeyError.
Proof.
  intros Hin Hne Hl. unfold zero_shot_inputs.
  now apply zs_fold_missing with (vid := vid).
Qed.

(** X20.  When every triplet of the split's vocabulary is in the train
    vocabulary (as when the split is the train split itself), the set of
    zero-shot triplets is empty and the zero-shot loop ends with two empty
    mappings, without a lookup in the predictions; [evaluate] on them
    raises [ValueError] in either mode. *)
Theorem zero_shot_inputs_nothing_unseen :
  (forall t, In t (get_triplets ds split) -> In t (get_triplets ds "train")) ->
  zeroshot_triplets_of ds split = [] /\
  zero_shot_inputs ds split prediction = Ok ([], []) /\
  forall base_on_gt,
    evaluate viou voc_ap thr default_det_nreturns default_tag_nreturns
             [] [] base_on_gt = Raise ValueError.
Proof.
  intros H.
  assert (Hz : zeroshot_triplets_of ds split = []).
  { unfold zeroshot_triplets_of. apply filter_none. intros t Ht.
    apply negb_false_iff, triplet_in_In, H, Ht. }
  split; [exact Hz|]. split.
  - unfold zero_shot_inputs. rewrite Hz.
    induction (get_index ds split) as [|vid l IH]; [reflexivity|].
    cbn [fold_left]. unfold zs_step at 2. cbn [bind].
    rewrite filter_none by reflexivity. exact IH.
  - intros []; reflexivity.
Qed.

(** X21.  When [evaluate] with [base_on_gt=True] returns on the ground
    truth that [evaluate_relation] builds for the split, every video of the
    split with a ground-truth instance has an entry in the predictions, so
    the zero-shot loop that follows gets through all its lookups. *)
Theorem zero_shot_inputs_after_full_pass (r : scores_t) :
  evaluate viou voc_ap thr default_det_nreturns default_tag_nreturns
           (relation_groundtruth ds split) prediction true = Ok r ->
  exists groundtruth zs_prediction,
    zero_shot_inputs ds split prediction = Ok (groundtruth, zs_prediction).
Proof.
  intros H. apply evaluate_returns_inv in H. destruct H as (Hr & _ & _).
  destruct (@zs_fold_returns ds prediction (zeroshot_triplets_of ds split)
              (get_index ds split) ([], [])) as ([g p] & E).
  - intros vid Hin Hne. apply (Hr vid (get_relation_insts ds vid)).
    + apply lookup_In. unfold relation_groundtruth.
      rewrite fold_dict_set_lookup.
      assert (Hx : existsb (String.eqb vid) (get_index ds split) = true).
      { apply existsb_exists. exists vid. split; [exact Hin|].
        apply String.eqb_refl. }
      rewrite Hx. reflexivity.
    + intros E. rewrite E in Hne. apply Hne. reflexivity.
  - exists g, p. exact E.
Qed.

(** X22.  The ground truth that [evaluate_relation] hands to the
    evaluation: a video has an entry exactly when it is in the index of
    the split, the entry is the list of its relation instances, and no
    video has two entries, however often the index lists it. *)
Theorem relation_groundtruth_entries
    (eval_visual_relation eval_visual_relation_segs :
       sdict (list relation) -> sdict (list pred_relation) -> result scores_t)
    (vid : string) :
  evaluate_relation eval_visual_relation eval_visual_relation_segs
                    ds split prediction false
  = (_ <- eval_visual_relation (relation_groundtruth ds split) prediction ;;
     zs <- zero_shot_inputs ds split prediction ;;
     _ <- eval_visual_relation (fst zs) (snd zs) ;;
     Ok tt) /\
  lookup String.eqb vid (relation_groundtruth ds split)
  = (if existsb (String.eqb vid) (get_index ds split)
     then Some (get_relation_insts ds vid) else None) /\
  NoDup (keys (relation_groundtruth ds split)).
Proof.
  split; [reflexivity|]. split.
  - unfold relation_groundtruth. now rewrite fold_dict_set_lookup.
  - unfold relation_groundtruth. apply fold_dict_set_NoDup. constructor.
Qed.

End ZeroShotPass.

(** The zero-shot inputs of the test split of [ZeroShotRuns.ds]. *)
Lemma zero_shot_inputs_well_formed_witness :
  let groundtruth := [("A"%string, [Fixture.gt Fixture.t456 Fixture.d01])] in
  let zs_prediction := [("A"%string, @nil pred_relation)] in
  zero_shot_inputs ZeroShotRuns.ds "test" Runs.pred_one
  = Ok (groundtruth, zs_prediction) /\
  keys groundtruth = keys zs_prediction /\
  NoDup (keys groundtruth) /\
  Forall (fun item : string * list relation => snd item <> []) groundtruth /\
  resolvable true groundtruth zs_prediction /\
  ((exists r,
      evaluate Fixture.viou Fixture.voc_ap default_viou_threshold
               default_det_nreturns default_tag_nreturns
               groundtruth zs_prediction true = Ok r) \/
   evaluate Fixture.viou Fixture.voc_ap default_viou_threshold
            default_det_nreturns default_tag_nreturns
            groundtruth zs_prediction true = Raise ValueError \/
   evaluate Fixture.viou Fixture.voc_ap default_viou_threshold
            default_det_nreturns default_tag_nreturns
            groundtruth zs_prediction true = Raise IndexError).
Proof.
  assert (H : zero_shot_inputs ZeroShotRuns.ds "test" Runs.pred_one
              = Ok ([("A"%string, [Fixture.gt Fixture.t456 Fixture.d01])],
                    [("A"%string, @nil pred_relation)]))
    by reflexivity.
  split; [exact H|].
  exact (@zero_shot_inputs_well_formed Fixture.viou Fixture.voc_ap
           default_viou_threshold ZeroShotRuns.ds "test" Runs.pred_one _ _ H).
Defined.

(** The test split of [ZeroShotRuns.ds] against predictions without its
    video. *)
Lemma zero_shot_inputs_missing_prediction_witness :
  In "A"%string (get_index ZeroShotRuns.ds "test") /\
  filter (fun r => triplet_in (triplet r)
                     (zeroshot_triplets_of ZeroShotRuns.ds "test"))
         (get_relation_insts ZeroShotRuns.ds "A") <> [] /\
  lookup String.eqb "A"%string (@nil (string * list pred_relation)) = None /\
  zero_shot_inputs ZeroShotRuns.ds "test" [] = Raise KeyError.
Proof.
  assert (H1 : In "A"%string (get_index ZeroShotRuns.ds "test"))
    by (left; reflexivity).
  assert (H2 : filter (fun r => triplet_in (triplet r)
                                  (zeroshot_triplets_of ZeroShotRuns.ds "test"))
                      (get_relation_insts ZeroShotRuns.ds "A") <> [])
    by (vm_compute; discriminate).
  assert (H3 : lookup String.eqb "A"%string
                 (@nil (string * list pred_relation)) = None) by reflexivity.
  split; [exact H1|]. split; [exact H2|]. split; [exact H3|].
  exact (@zero_shot_inputs_missing_prediction ZeroShotRuns.ds "test" []
           "A"%string H1 H2 H3).
Defined.

(** The train split of [ZeroShotRuns.ds]. *)
Lemma zero_shot_inputs_nothing_unseen_witness :
  (forall t, In t (get_triplets ZeroShotRuns.ds "train") ->
             In t (get_triplets ZeroShotRuns.ds "train")) /\
  zeroshot_triplets_of ZeroShotRuns.ds "train" = [] /\
  zero_shot_inputs ZeroShotRuns.ds "train" Runs.pred_one = Ok ([], []) /\
  forall base_on_gt,
    evaluate Fixture.viou Fixture.voc_ap default_viou_threshold
             default_det_nreturns default_tag_nreturns
             [] [] base_on_gt = Raise ValueError.
Proof.
  split; [exact (fun t H => H)|].
  exact (@zero_shot_inputs_nothing_unseen Fixture.viou Fixture.voc_ap
           default_viou_threshold ZeroShotRuns.ds "train" Runs.pred_one
           (fun t H => H)).
Defined.

Lemma zero_shot_runs_full_pass :
  evaluate Fixture.viou Fixture.voc_ap default_viou_threshold
           default_det_nreturns default_tag_nreturns
           (relation_groundtruth ZeroShotRuns.ds "test") Runs.pred_one true
  = Ok (scores_of Fixture.viou Fixture.voc_ap default_viou_threshold true
          (evaluated_videos true (relation_groundtruth ZeroShotRuns.ds "test")
                            Runs.pred_one)).
Proof.
  apply evaluate_returns.
  - intros vid rels [H|[]] _. inversion H; subst. simpl. discriminate.
  - eexists. split; [left; reflexivity | discriminate].
Qed.

(** The full pass and the zero-shot loop on the test split of
    [ZeroShotRuns.ds]. *)
Lemma zero_shot_inputs_after_full_pass_witness :
  evaluate Fixture.viou Fixture.voc_ap default_viou_threshold
           default_det_nreturns default_tag_nreturns
           (relation_groundtruth ZeroShotRuns.ds "test") Runs.pred_one true
  = Ok (scores_of Fixture.viou Fixture.voc_ap default_viou_threshold true
          (evaluated_videos true (relation_groundtruth ZeroShotRuns.ds "test")
                            Runs.pred_one)) /\
  exists groundtruth zs_prediction,
    zero_shot_inputs ZeroShotRuns.ds "test" Runs.pred_one
    = Ok (groundtruth, zs_prediction).
Proof.
  split; [exact zero_shot_runs_full_pass|].
  exact (@zero_shot_inputs_after_full_pass Fixture.viou Fixture.voc_ap
           default_viou_threshold ZeroShotRuns.ds "test" Runs.pred_one _
           zero_shot_runs_full_pass).
Defined.

(** ** The order of the predictions *)

Lemma ranked_unique l1 : forall l2,
  StronglySorted score_ge l1 -> StronglySorted score_ge l2 ->
  Permutation l1 l2 ->
  (forall x y, In x l1 -> In y l1 -> score x == score y -> x = y) ->
  l1 = l2.
Proof.
  induction l1 as [|a l1 IH]; intros l2 S1 S2 P D.
  - apply Permutation_nil in P. now subst.
  - destruct l2 as [|b l2].
    { apply Permutation_sym, Permutation_nil in P. discriminate. }
    inversion S1 as [|? ? S1' F1]; subst.
    inversion S2 as [|? ? S2' F2]; subst.
    rewrite Forall_forall in F1, F2.
    assert (Hb : In b (a :: l1)).
    { apply (Permutation_in b (Permutation_sym P)). left. reflexivity. }
    assert (Ha : In a (b :: l2)).
    { apply (Permutation_in a P). left. reflexivity. }
    assert (Hba : score b <= score a).
    { destruct Hb as [->|Hb]; [apply Qle_refl | apply (F1 b Hb)]. }
    assert (Hab : score a <= score b).
    { destruct Ha as [->|Ha]; [apply Qle_refl | apply (F2 a Ha)]. }
    assert (E : a = b).
    { apply D; [left; reflexivity | exact Hb | now apply Qle_antisym]. }
    subst b. f_equal. apply IH; [exact S1' | exact S2' | |].
    + exact (Permutation_cons_inv P).
    + intros x y Hx Hy. apply D; right; assumption.
Qed.

Lemma sorted_by_score_order_independent preds preds' :
  Permutation preds preds' ->
  (forall x y, In x preds -> In y preds -> score x == score y -> x = y) ->
  sorted_by_score preds = sorted_by_score preds'.
Proof.
  intros P D. apply ranked_unique.
  - apply sorted_by_score_sorted.
  - apply sorted_by_score_sorted.
  - unfold sorted_by_score.
    rewrite (stable_sort_perm score_geb preds), (stable_sort_perm score_geb preds').
    exact P.
  - intros x y Hx Hy. apply D.
    + apply (Permutation_in x (stable_sort_perm score_geb preds) Hx).
    + apply (Permutation_in y (stable_sort_perm score_geb preds) Hy).
Qed.

(** X23.  When two different predictions of a video never have the same
    score, the order in which the predictions are given does not matter:
    both matchers return the same sequences on any rearrangement of the
    predictions. *)
Theorem eval_scores_order_independent
    (viou : traj -> duration_t -> traj -> duration_t -> Q)
    (gts : list relation) (preds preds' : list pred_relation) (thr : Q) :
  Permutation preds preds' ->
  (forall x y, In x preds -> In y preds -> score x == score y -> x = y) ->
  eval_detection_scores viou gts preds thr
  = eval_detection_scores viou gts preds' thr /\
  eval_tagging_scores gts preds = eval_tagging_scores gts preds'.
Proof.
  intros P D. unfold eval_detection_scores, eval_tagging_scores.
  now rewrite (sorted_by_score_order_independent P D).
Qed.

(** Two predictions of scores 0.9 and 0.5, in both orders. *)
Lemma eval_scores_order_independent_witness :
  let preds := [Fixture.pr Fixture.t123 Fixture.d01 (9 # 10);
                Fixture.pr Fixture.t456 Fixture.d01 (1 # 2)] in
  let preds' := [Fixture.pr Fixture.t456 Fixture.d01 (1 # 2);
                 Fixture.pr Fixture.t123 Fixture.d01 (9 # 10)] in
  let gts := [Fixture.gt Fixture.t123 Fixture.d01] in
  Permutation preds preds' /\
  (forall x y, In x preds -> In y preds -> score x == score y -> x = y) /\
  eval_detection_scores Fixture.viou gts preds default_viou_threshold
  = eval_detection_scores Fixture.viou gts preds' default_viou_threshold /\
  eval_tagging_scores gts preds = eval_tagging_scores gts preds'.
Proof.
  cbv zeta.
  assert (P : Permutation
                [Fixture.pr Fixture.t123 Fixture.d01 (9 # 10);
                 Fixture.pr Fixture.t456 Fixture.d01 (1 # 2)]
                [Fixture.pr Fixture.t456 Fixture.d01 (1 # 2);
                 Fixture.pr Fixture.t123 Fixture.d01 (9 # 10)])
    by apply perm_swap.
  assert (D : forall x y,
            In x [Fixture.pr Fixture.t123 Fixture.d01 (9 # 10);
                  Fixture.pr Fixture.t456 Fixture.d01 (1 # 2)] ->
            In y [Fixture.pr Fixture.t123 Fixture.d01 (9 # 10);
                  Fixture.pr Fixture.t456 Fixture.d01 (1 # 2)] ->
            score x == score y -> x = y).
  { intros x y [<-|[<-|[]]] [<-|[<-|[]]] H; try reflexivity;
      exfalso; unfold Qeq in H; simpl in H; discriminate. }
  split; [exact P|]. split; [exact D|].
  exact (@eval_scores_order_independent Fixture.viou
           [Fixture.gt Fixture.t123 Fixture.d01] _ _ default_viou_threshold P D).
Defined.
